(** * A bigram language model: counts, smoothing, generation, perplexity

    Shallow embedding of the notebook [04-ngram.ipynb]: the functions
    [convert_sentence], [get_counts], [generate_sentence],
    [get_log_prob_addk], [get_log_prob_interp], [get_sent_log_prob_addk],
    [get_sent_log_prob_interp] and [calculate_perplexity].

    Modelling choices.
    - A token is a [string]; [str.lower] is modelled on ASCII letters.
    - A Python [int] is a [Z].
    - The functions that compute with Python [float]s are embedded twice.
      In the module [Binary64] a [float] is an IEEE binary64 number and
      every operation rounds, overflows and underflows as the interpreter
      does; the C library's [log] and [exp], which [math.log] and
      [math.exp] call, are a parameter.  What a call returns or raises is
      stated about this embedding.  In the embedding outside that module a
      [float] is a real number ([R]) and nothing is rounded: it gives the
      formulas that the code evaluates, and the properties of these
      formulas are stated about it.
    - A [Counter] and a [defaultdict(Counter)] are association lists in
      insertion order without duplicate keys, as Python dictionaries are.
    - Reading [bigram_counts[prev_word]] on a [defaultdict] inserts an empty
      row when the key is missing; reading a [Counter] never inserts.  The
      two tables live in a store that is threaded through every call.
    - Python exceptions are an explicit outcome; the store reached when the
      exception is raised is kept.
    - [numpy.random.choice] takes its uniform draw from an explicit list of
      rational draws in [[0,1)], one per iteration of the generator's loop;
      the probabilities of a row are rationals. *)

From Stdlib Require Import String Ascii List ZArith QArith Reals Psatz Bool.
From Stdlib Require Import Floats.
From Stdlib Require Uint63.
Import ListNotations.

Local Open Scope string_scope.
Local Open Scope list_scope.
Local Open Scope Z_scope.

(** * The program *)

(** ** Tokens and the sentence normaliser *)

Definition token := string.
Definition sentence := list token.

Definition START : token := "<s>".
Definition END : token := "</s>".

(** [w.lower()], on ASCII letters. *)
Definition lower_ascii (c : ascii) : ascii :=
  let n := nat_of_ascii c in
  if (65 <=? n)%nat && (n <=? 90)%nat then ascii_of_nat (n + 32) else c.

Fixpoint lower (w : string) : string :=
  match w with
  | EmptyString => EmptyString
  | String c r => String (lower_ascii c) (lower r)
  end.

(** [["<s>"] + [w.lower() for w in sentence] + ["</s>"]] *)
Definition convert_sentence (sentence : sentence) : list token :=
  [START] ++ map lower sentence ++ [END].

(** [zip(sentence[:-1], sentence[1:])] *)
Definition bigram_list (sentence : list token) : list (token * token) :=
  combine (removelast sentence) (tl sentence).

(** ** Dictionaries *)

Module Dict.
Section Dict.
Context {V : Type}.

Definition t := list (token * V).

Fixpoint find (d : t) (key : token) : option V :=
  match d with
  | [] => None
  | (k, v) :: rest => if String.eqb k key then Some v else find rest key
  end.

(** [d[key] = v]: an existing key keeps its position, a new key goes to
    the end. *)
Fixpoint set (d : t) (key : token) (v : V) : t :=
  match d with
  | [] => [(key, v)]
  | (k, v0) :: rest =>
      if String.eqb k key then (k, v) :: rest else (k, v0) :: set rest key v
  end.

Definition keys (d : t) : list token := map fst d.
Definition values (d : t) : list V := map snd d.
Definition len (d : t) : Z := Z.of_nat (length d).
End Dict.
Arguments t : clear implicits.
End Dict.

(** [collections.Counter]: a missing key reads as [0] and is not inserted. *)
Definition Counter := Dict.t Z.

Definition Counter_get (c : Counter) (w : token) : Z :=
  match Dict.find c w with Some n => n | None => 0 end.

(** [c[w] += 1] *)
Definition Counter_incr (c : Counter) (w : token) : Counter :=
  Dict.set c w (Counter_get c w + 1).

(** [sum(l)] on integers *)
Definition sum (l : list Z) : Z := fold_left Z.add l 0.

(** [collections.defaultdict(Counter)] *)
Definition defaultdict := Dict.t Counter.

(** [d[key]] on a [defaultdict(Counter)]: the row read, and the dictionary
    afterwards (a missing key is inserted with an empty [Counter]). *)
Definition defaultdict_getitem (d : defaultdict) (key : token)
  : Counter * defaultdict :=
  match Dict.find d key with
  | Some row => (row, d)
  | None => ([], Dict.set d key [])
  end.

(** [d[first][second] += 1] *)
Definition defaultdict_incr (d : defaultdict) (bigram : token * token)
  : defaultdict :=
  let (first, second) := bigram in
  let (row, d') := defaultdict_getitem d first in
  Dict.set d' first (Counter_incr row second).

(** The count a bigram has in the table, read without touching the table:
    a missing row and a missing entry both read as zero. *)
Definition bigram_count (d : defaultdict) (prev_word word : token) : Z :=
  match Dict.find d prev_word with
  | Some row => Counter_get row word
  | None => 0
  end.

(** ** The count collector *)

(** The first loop of [get_counts]: unigram counts and [start_count]. *)
Definition count_unigrams (sentences : list sentence) : Counter * Z :=
  fold_left
    (fun (acc : Counter * Z) sentence =>
       let (unigram_counts, start_count) := acc in
       let sentence := convert_sentence sentence in
       (fold_left Counter_incr (tl sentence) unigram_counts, start_count + 1))
    sentences ([], 0).

(** The second loop of [get_counts]: bigram counts. *)
Definition count_bigrams (sentences : list sentence) : defaultdict :=
  fold_left
    (fun bigram_counts sentence =>
       let sentence := convert_sentence sentence in
       fold_left defaultdict_incr (bigram_list sentence) bigram_counts)
    sentences [].

(** [get_counts(sentences)] *)
Definition get_counts (sentences : list sentence)
  : Counter * defaultdict * Z * R :=
  let (unigram_counts, start_count) := count_unigrams sentences in
  let bigram_counts := count_bigrams sentences in
  let token_count := IZR (sum (Dict.values unigram_counts)) in
  (unigram_counts, bigram_counts, start_count, token_count).

(** ** The store, exceptions and the monad of the program *)

(** The two tables that the functions below receive as arguments.  In the
    source the arguments are references to these two objects, so what a
    call does to them is seen by the caller and by every later call. *)
Record store := mkStore {
  unigram_counts : Counter;
  bigram_counts : defaultdict
}.

Inductive exn := ZeroDivisionError | ValueError | IndexError | OverflowError.

Inductive outcome (A : Type) :=
| Ret (a : A)
| Raise (e : exn).
Arguments Ret {A} a.
Arguments Raise {A} e.

Definition M (A : Type) := store -> outcome A * store.

Definition ret {A} (a : A) : M A := fun s => (Ret a, s).
Definition raise {A} (e : exn) : M A := fun s => (Raise e, s).
Definition bind {A B} (m : M A) (f : A -> M B) : M B :=
  fun s =>
    match m s with
    | (Ret a, s') => f a s'
    | (Raise e, s') => (Raise e, s')
    end.

Declare Scope prog_scope.
Delimit Scope prog_scope with prog.
Notation "x <- m ;; k" := (bind m (fun x => k))
  (at level 61, m at next level, right associativity) : prog_scope.
Local Open Scope prog_scope.

(** A list comprehension whose body runs in the monad, left to right. *)
Fixpoint mapM {A B} (f : A -> M B) (l : list A) : M (list B) :=
  match l with
  | [] => ret []
  | a :: l' => b <- f a ;; bs <- mapM f l' ;; ret (b :: bs)
  end.

(** [unigram_counts], read as an object. *)
Definition the_unigram_counts : M Counter :=
  fun s => (Ret (unigram_counts s), s).

(** [bigram_counts[prev_word]] *)
Definition bigram_row (prev_word : token) : M Counter :=
  fun s =>
    let (row, d) := defaultdict_getitem (bigram_counts s) prev_word in
    (Ret row, mkStore (unigram_counts s) d).

(** [a / b] on numbers *)
Definition py_div (a b : R) : M R :=
  if Req_dec_T b 0 then raise ZeroDivisionError else ret (a / b)%R.

(** [math.log(x)] *)
Definition math_log (x : R) : M R :=
  if Rlt_dec 0 x then ret (ln x) else raise ValueError.

(** ** The smoothing estimators *)

(** [get_log_prob_addk(prev_word, word, unigram_counts, bigram_counts, k)] *)
Definition get_log_prob_addk (prev_word word : token) (k : R) : M R :=
  row <- bigram_row prev_word ;;
  let sm_bigram_counts := (IZR (Counter_get row word) + k)%R in
  unigrams <- the_unigram_counts ;;
  let sm_unigram_counts :=
    (IZR (Counter_get unigrams prev_word) + k * IZR (Dict.len unigrams))%R in
  q <- py_div sm_bigram_counts sm_unigram_counts ;;
  math_log q.

(** [get_log_prob_interp(prev_word, word, unigram_counts, bigram_counts,
    start_count, token_count, lambdas)] *)
Definition get_log_prob_interp (prev_word word : token)
    (start_count : Z) (token_count : R) (lambdas : R * R) : M R :=
  let bigram_lambda := fst lambdas in
  let unigram_lambda := snd lambdas in
  let zerogram_lambda := (1 - fst lambdas - snd lambdas)%R in
  row <- bigram_row prev_word ;;
  let sm_bigram_counts := (IZR (Counter_get row word) * bigram_lambda)%R in
  interp_bigram_counts <-
    (if Req_dec_T sm_bigram_counts 0 then ret 0%R
     else
       unigrams <- the_unigram_counts ;;
       let u_counts :=
         if String.eqb prev_word START then start_count
         else Counter_get unigrams prev_word in
       py_div sm_bigram_counts (IZR u_counts)) ;;
  unigrams <- the_unigram_counts ;;
  q <- py_div (IZR (Counter_get unigrams word)) token_count ;;
  let interp_unigram_counts := (q * unigram_lambda)%R in
  let vocab_size := Dict.len unigrams in
  z <- py_div 1 (IZR vocab_size) ;;
  let interp_zerogram_counts := (z * zerogram_lambda)%R in
  math_log (interp_bigram_counts + interp_unigram_counts
            + interp_zerogram_counts)%R.

(** ** The sentence scorers *)

(** [sum(l)] on floats: starts from [0] and adds from the left. *)
Definition fsum (l : list R) : R := fold_left Rplus l 0%R.

(** [get_sent_log_prob_addk(sentence, unigram_counts, bigram_counts,
    start_count, token_count, k)] *)
Definition get_sent_log_prob_addk (sentence : sentence)
    (start_count : Z) (token_count : R) (k : R) : M R :=
  let sentence := convert_sentence sentence in
  let bigram_list := bigram_list sentence in
  probs <- mapM (fun bigram : token * token =>
                   let (prev_word, word) := bigram in
                   get_log_prob_addk prev_word word k) bigram_list ;;
  ret (fsum probs).

(** [get_sent_log_prob_interp(sentence, unigram_counts, bigram_counts,
    start_count, token_count, lambdas)] *)
Definition get_sent_log_prob_interp (sentence : sentence)
    (start_count : Z) (token_count : R) (lambdas : R * R) : M R :=
  let sentence := convert_sentence sentence in
  let bigram_list := bigram_list sentence in
  probs <- mapM (fun bigram : token * token =>
                   let (prev_word, word) := bigram in
                   get_log_prob_interp prev_word word start_count token_count
                     lambdas) bigram_list ;;
  ret (fsum probs).

(** ** The perplexity evaluator *)

Section Perplexity.
Context {P : Type}.
Variable smoothing_function : sentence -> Z -> R -> P -> M R.
Variables (start_count : Z) (token_count : R) (parameter : P).

(** The [for] loop, with its two accumulators. *)
Fixpoint perplexity_loop (sentences : list sentence)
    (total_log_prob : R) (test_token_count : Z) : M (R * Z) :=
  match sentences with
  | [] => ret (total_log_prob, test_token_count)
  | sentence :: rest =>
      let test_token_count :=
        test_token_count + (Z.of_nat (length sentence) + 1) in
      log_prob <-
        smoothing_function sentence start_count token_count parameter ;;
      perplexity_loop rest (total_log_prob + log_prob)%R test_token_count
  end.

(** [calculate_perplexity(sentences, unigram_counts, bigram_counts,
    start_count, token_count, smoothing_function, parameter)] *)
Definition calculate_perplexity (sentences : list sentence) : M R :=
  acc <- perplexity_loop sentences 0%R 0 ;;
  let (total_log_prob, test_token_count) := acc : R * Z in
  q <- py_div (- total_log_prob) (IZR test_token_count) ;;
  ret (exp q).
End Perplexity.

(** ** The generator *)

(** [count / total_counts] with [total_counts] a float *)
Definition prob_div (count total_counts : Z) : M Q :=
  if total_counts =? 0 then raise ZeroDivisionError
  else ret (inject_Z count / inject_Z total_counts)%Q.

(** The sum of the probabilities, as [choice] checks it. *)
Definition Qsum (l : list Q) : Q := fold_left Qplus l 0%Q.

(** The search of the draw [u] in the cumulative distribution of [p]:
    the first entry whose cumulated probability exceeds [u]. *)
Fixpoint searchsorted (a : list token) (p : list Q) (u : Q) : option token :=
  match a, p with
  | w :: a', pw :: p' =>
      if Qlt_le_dec u pw then Some w else searchsorted a' p' (u - pw)%Q
  | _, _ => None
  end.

(** [numpy.random.choice(a, p=p)] on the uniform draw [u]: an empty [a],
    a [p] of another size, a negative probability and probabilities that
    do not sum to one are rejected. *)
Definition choice (a : list token) (p : list Q) (u : Q) : M token :=
  match a with
  | [] => raise ValueError
  | _ :: _ =>
      if negb (length a =? length p)%nat then raise ValueError
      else if negb (forallb (Qle_bool 0) p) then raise ValueError
      else if negb (Qeq_bool (Qsum p) 1) then raise ValueError
      else match searchsorted a p u with
           | Some w => ret w
           | None => raise IndexError
           end
  end.

(** The [while] loop.  It consumes one draw per iteration; [None] is
    returned when the draws run out before [END] is drawn. *)
Fixpoint generate_loop (draws : list Q) (current_word : token)
    (sentence : list token) : M (option (list token)) :=
  if String.eqb current_word END then ret (Some sentence)
  else
    match draws with
    | [] => ret None
    | u :: draws' =>
        let prev_word := current_word in
        prev_word_counts <- bigram_row prev_word ;;
        let total_counts := sum (Dict.values prev_word_counts) in
        bigram_probs <-
          mapM (fun word => prob_div (Counter_get prev_word_counts word)
                              total_counts)
               (Dict.keys prev_word_counts) ;;
        current_word <- choice (Dict.keys prev_word_counts) bigram_probs u ;;
        generate_loop draws' current_word (sentence ++ [current_word])
    end.

(** [sentence[1:-1]] *)
Definition strip (sentence : list token) : list token :=
  removelast (tl sentence).

(** The tokens of the generated sentence, before they are joined. *)
Definition generate_tokens (draws : list Q) : M (option (list token)) :=
  r <- generate_loop draws START [START] ;;
  ret (option_map strip r).

(** [generate_sentence(bigram_counts)], run on the draws that the random
    generator delivers: [Some text] when END was drawn, [None] when the loop
    is still running after the last draw. *)
Definition generate_sentence (draws : list Q) : M (option string) :=
  r <- generate_tokens draws ;;
  ret (option_map (String.concat " ") r).

(** The store that holds the tables of a training corpus. *)
Definition trained (sentences : list sentence) : store :=
  let '(unigram_counts, bigram_counts, _, _) := get_counts sentences in
  mkStore unigram_counts bigram_counts.

(** * The program in binary64 arithmetic *)

Module Binary64.

(** A computation that does not touch the tables. *)
Definition lift {A} (o : outcome A) : M A := fun s => (o, s).

(** The [float] nearest to an [int] (ties to even), infinite when the
    [int] is beyond the largest [float]. *)
Definition int_to_float (n : Z) : float :=
  SF2Prim (binary_normalize prec emax n 0 false).

(** [float(n)], and the conversion of an [int] operand of [+], [*] and [/]
    whose other operand is a [float]. *)
Definition float_of_int (n : Z) : outcome float :=
  let x := int_to_float n in
  if is_infinity x then Raise OverflowError else Ret x.

(** [a / b] on floats *)
Definition py_div (a b : float) : outcome float :=
  if (b =? 0)%float then Raise ZeroDivisionError else Ret (a / b)%float.

(** The C library's [log] and [exp]. *)
Record Libm := {
  libm_log : float -> float;
  libm_exp : float -> float
}.

Section Libm.
Variable libm : Libm.

(** The interpreter's [m_log]: the library's [log] on positive finite
    numbers, the conventional results elsewhere. *)
Definition m_log (x : float) : float :=
  if is_finite x then
    if (0 <? x)%float then libm_log libm x
    else if (x =? 0)%float then neg_infinity
    else nan
  else if is_nan x then x
  else if (0 <? x)%float then x
  else nan.

(** The interpreter's wrapper of a function of the [math] module: a result
    that is not a number, or is infinite, for an argument that is a number,
    or is finite, is an error. *)
Definition math_1 (func : float -> float) (can_overflow : bool) (x : float)
  : outcome float :=
  let r := func x in
  if is_nan r && negb (is_nan x) then Raise ValueError
  else if is_infinity r && is_finite x then
    Raise (if can_overflow then OverflowError else ValueError)
  else Ret r.

(** [math.log(x)] *)
Definition math_log (x : float) : outcome float := math_1 m_log false x.

(** [math.exp(x)] *)
Definition math_exp (x : float) : outcome float :=
  math_1 (libm_exp libm) true x.

(** [get_log_prob_addk(prev_word, word, unigram_counts, bigram_counts, k)] *)
Definition get_log_prob_addk (prev_word word : token) (k : float) : M float :=
  row <- bigram_row prev_word ;;
  c <- lift (float_of_int (Counter_get row word)) ;;
  let sm_bigram_counts := (c + k)%float in
  unigrams <- the_unigram_counts ;;
  v <- lift (float_of_int (Dict.len unigrams)) ;;
  u <- lift (float_of_int (Counter_get unigrams prev_word)) ;;
  let sm_unigram_counts := (u + k * v)%float in
  q <- lift (py_div sm_bigram_counts sm_unigram_counts) ;;
  lift (math_log q).

(** [get_log_prob_interp(prev_word, word, unigram_counts, bigram_counts,
    start_count, token_count, lambdas)] *)
Definition get_log_prob_interp (prev_word word : token)
    (start_count : Z) (token_count : float) (lambdas : float * float)
  : M float :=
  let bigram_lambda := fst lambdas in
  let unigram_lambda := snd lambdas in
  let zerogram_lambda := (1 - fst lambdas - snd lambdas)%float in
  row <- bigram_row prev_word ;;
  c <- lift (float_of_int (Counter_get row word)) ;;
  let sm_bigram_counts := (c * bigram_lambda)%float in
  interp_bigram_counts <-
    (if (sm_bigram_counts =? 0)%float then ret 0%float
     else
       unigrams <- the_unigram_counts ;;
       let u_counts :=
         if String.eqb prev_word START then start_count
         else Counter_get unigrams prev_word in
       d <- lift (float_of_int u_counts) ;;
       lift (py_div sm_bigram_counts d)) ;;
  unigrams <- the_unigram_counts ;;
  cw <- lift (float_of_int (Counter_get unigrams word)) ;;
  q <- lift (py_div cw token_count) ;;
  let interp_unigram_counts := (q * unigram_lambda)%float in
  let vocab_size := Dict.len unigrams in
  v <- lift (float_of_int vocab_size) ;;
  z <- lift (py_div 1 v) ;;
  let interp_zerogram_counts := (z * zerogram_lambda)%float in
  lift (math_log (interp_bigram_counts + interp_unigram_counts
                  + interp_zerogram_counts)%float).

(** [sum(l)] on a list of floats that is not empty, as Python 3.8 (the
    notebook's version) computes it: from [0], adding from the left. *)
Definition fsum (l : list float) : float := fold_left PrimFloat.add l 0%float.

(** [get_sent_log_prob_addk(sentence, unigram_counts, bigram_counts,
    start_count, token_count, k)] *)
Definition get_sent_log_prob_addk (sentence : sentence)
    (start_count : Z) (token_count : float) (k : float) : M float :=
  let sentence := convert_sentence sentence in
  let bigram_list := bigram_list sentence in
  probs <- mapM (fun bigram : token * token =>
                   let (prev_word, word) := bigram in
                   get_log_prob_addk prev_word word k) bigram_list ;;
  ret (fsum probs).

(** [get_sent_log_prob_interp(sentence, unigram_counts, bigram_counts,
    start_count, token_count, lambdas)] *)
Definition get_sent_log_prob_interp (sentence : sentence)
    (start_count : Z) (token_count : float) (lambdas : float * float)
  : M float :=
  let sentence := convert_sentence sentence in
  let bigram_list := bigram_list sentence in
  probs <- mapM (fun bigram : token * token =>
                   let (prev_word, word) := bigram in
                   get_log_prob_interp prev_word word start_count token_count
                     lambdas) bigram_list ;;
  ret (fsum probs).

Section Perplexity.
Context {P : Type}.
Variable smoothing_function : sentence -> Z -> float -> P -> M float.
Variables (start_count : Z) (token_count : float) (parameter : P).

(** The [for] loop, with its two accumulators.  Both start as the [int]
    [0]; the first addition of a score makes [total_log_prob] a float. *)
Fixpoint perplexity_loop (sentences : list sentence)
    (total_log_prob : float) (test_token_count : Z) : M (float * Z) :=
  match sentences with
  | [] => ret (total_log_prob, test_token_count)
  | sentence :: rest =>
      let test_token_count :=
        test_token_count + (Z.of_nat (length sentence) + 1) in
      log_prob <-
        smoothing_function sentence start_count token_count parameter ;;
      perplexity_loop rest (total_log_prob + log_prob)%float test_token_count
  end.

(** [calculate_perplexity(sentences, unigram_counts, bigram_counts,
    start_count, token_count, smoothing_function, parameter)].  With no
    sentence the division is that of the [int]s [0] and [0], which raises
    ZeroDivisionError as the division of floats by [0.0] does. *)
Definition calculate_perplexity (sentences : list sentence) : M float :=
  acc <- perplexity_loop sentences 0%float 0 ;;
  let (total_log_prob, test_token_count) := acc : float * Z in
  n <- lift (float_of_int test_token_count) ;;
  q <- lift (py_div (- total_log_prob) n) ;;
  lift (math_exp q).
End Perplexity.
End Libm.

(** [get_counts(sentences)], with [token_count] the float it is. *)
Definition get_counts (sentences : list sentence)
  : outcome (Counter * defaultdict * Z * float) :=
  let (unigram_counts, start_count) := count_unigrams sentences in
  let bigram_counts := count_bigrams sentences in
  match float_of_int (sum (Dict.values unigram_counts)) with
  | Ret token_count =>
      Ret (unigram_counts, bigram_counts, start_count, token_count)
  | Raise e => Raise e
  end.
End Binary64.

(** * Vocabulary of the statements *)

(** ** Well-formed tables *)

Definition positive_entry (kv : token * Z) : Prop := 0 < snd kv.

(** What every [Counter] that was only ever incremented satisfies. *)
Definition Counter_ok (c : Counter) : Prop :=
  NoDup (Dict.keys c) /\ Forall positive_entry c.

(** The row of [prev_word], read without touching the table. *)
Definition row_of (d : defaultdict) (prev_word : token) : Counter :=
  match Dict.find d prev_word with Some row => row | None => [] end.

Definition good_row (kv : token * Counter) : Prop :=
  Counter_ok (snd kv) /\ snd kv <> [].

(** What the bigram table satisfies while it is being collected. *)
Definition rows_ok (d : defaultdict) : Prop :=
  NoDup (Dict.keys d) /\ Forall good_row d.

(** Rows as the collector builds them. *)
Definition sampled_row (row : Counter) : Prop := Counter_ok row /\ row <> [].

(** What the Add-k scorer needs of the tables to return: counts that are
    not negative and a vocabulary that is not empty. *)
Definition readable (s : store) : Prop :=
  Counter_ok (unigram_counts s) /\
  0 < Dict.len (unigram_counts s) /\
  forall prev_word word, 0 <= bigram_count (bigram_counts s) prev_word word.

(** The number of distinct keys of a counter. *)
Definition VocabularySize (unigrams : Counter) : Z :=
  Z.of_nat (length (nodup string_dec (Dict.keys unigrams))).

(** ** The corpus, as lists *)

Definition bigram_dec (x y : token * token) : {x = y} + {x <> y}.
Proof. decide equality; apply string_dec. Defined.

(** The tokens the unigram pass counts: every token of every normalised
    sentence but the leading START. *)
Definition unigram_tokens (sentences : list sentence) : list token :=
  flat_map (fun s => tl (convert_sentence s)) sentences.

(** The adjacent pairs the bigram pass counts. *)
Definition corpus_bigrams (sentences : list sentence) : list (token * token) :=
  flat_map (fun s => bigram_list (convert_sentence s)) sentences.

(** [reaches_END pairs w]: following pairs of [pairs] from [w] leads to
    END. *)
Inductive reaches_END (pairs : list (token * token)) : token -> Prop :=
| reaches_here : reaches_END pairs END
| reaches_step w w' :
    In (w, w') pairs -> reaches_END pairs w' -> reaches_END pairs w.

(** ** The store before and after a call *)

(** The store after [bigram_counts[prev_word]] was read. *)
Definition probe (s : store) (prev_word : token) : store :=
  mkStore (unigram_counts s)
          (snd (defaultdict_getitem (bigram_counts s) prev_word)).

(** Rows with no entry, one per token of [new]. *)
Definition empty_rows (new : list token) : defaultdict :=
  map (fun prev_word => (prev_word, @nil (token * Z))) new.

(** [extends s s']: the unigram table is the same object with the same
    content, and the bigram table of [s'] is that of [s] followed by empty
    rows for tokens that were not keys of it. *)
Definition extends (s s' : store) : Prop :=
  unigram_counts s' = unigram_counts s /\
  exists new,
    bigram_counts s' = bigram_counts s ++ empty_rows new /\
    NoDup new /\
    forall prev_word, In prev_word new ->
                      ~ In prev_word (Dict.keys (bigram_counts s)).

(** A computation frames the tables when every run of it only extends
    the store. *)
Definition frames {A} (m : M A) : Prop := forall s, extends s (snd (m s)).

(** ** The estimators, in the words of the specification *)

(** The smoothed probability that [get_log_prob_addk] takes the logarithm
    of, as a function of [k]. *)
Definition addk_prob (unigrams : Counter) (bigrams : defaultdict)
    (prev_word word : token) (k : R) : R :=
  ((IZR (bigram_count bigrams prev_word word) + k) /
   (IZR (Counter_get unigrams prev_word) + k * IZR (Dict.len unigrams)))%R.

(** The list comprehension of [get_sent_log_prob_addk]. *)
Definition addk_log_probs (s : store) (k : R) (bigrams : list (token * token))
  : list R :=
  map (fun bigram : token * token =>
         ln (addk_prob (unigram_counts s) (bigram_counts s)
               (fst bigram) (snd bigram) k)) bigrams.

(** The count the bigram term is divided by: StartCount for START, the
    unigram count for any other conditioning token. *)
Definition conditioning_count (unigrams : Counter) (start_count : Z)
    (prev_word : token) : Z :=
  if String.eqb prev_word START then start_count
  else Counter_get unigrams prev_word.

(** The three terms of the interpolated mixture. *)
Definition bigramTerm (unigrams : Counter) (bigrams : defaultdict)
    (start_count : Z) (prev_word word : token) (bigramWeight : R) : R :=
  let product := (IZR (bigram_count bigrams prev_word word) * bigramWeight)%R in
  if Req_dec_T product 0 then 0%R
  else (product / IZR (conditioning_count unigrams start_count prev_word))%R.

Definition unigramTerm (unigrams : Counter) (token_count : R) (word : token)
    (unigramWeight : R) : R :=
  (IZR (Counter_get unigrams word) / token_count * unigramWeight)%R.

Definition zerogramTerm (unigrams : Counter) (bigramWeight unigramWeight : R)
  : R :=
  (1 / IZR (Dict.len unigrams) * (1 - bigramWeight - unigramWeight))%R.

Definition mixture (unigrams : Counter) (bigrams : defaultdict)
    (start_count : Z) (token_count : R) (prev_word word : token)
    (lambdas : R * R) : R :=
  (bigramTerm unigrams bigrams start_count prev_word word (fst lambdas)
   + unigramTerm unigrams token_count word (snd lambdas)
   + zerogramTerm unigrams (fst lambdas) (snd lambdas))%R.

(** ** The evaluator *)

(** The tokens of the test corpus: [len(sentence) + 1] per sentence. *)
Definition totalTokenCount (sentences : list sentence) : Z :=
  sum (map (fun sentence => Z.of_nat (length sentence) + 1) sentences).

(** The scores of the test sentences, in the order of the loop. *)
Definition sentence_scores {P : Type}
    (smoothing_function : sentence -> Z -> R -> P -> M R)
    (start_count : Z) (token_count : R) (parameter : P)
    (sentences : list sentence) : M (list R) :=
  mapM (fun sentence =>
          smoothing_function sentence start_count token_count parameter)
       sentences.

(** ** The generator *)

(** A uniform draw. *)
Definition uniform (u : Q) : Prop := (0 <= u)%Q /\ (u < 1)%Q.

Definition scaled (total_counts : Z) (counts : list Z) : list Q :=
  map (fun c => (inject_Z c / inject_Z total_counts)%Q) counts.

(** The probabilities [generate_sentence] hands to [choice] for a row. *)
Definition row_probs (row : Counter) : list Q :=
  map (fun word =>
         (inject_Z (Counter_get row word)
          / inject_Z (sum (Dict.values row)))%Q)
      (Dict.keys row).


(** ** Stores that read alike *)

(** [same_reads s s']: the unigram tables are equal and every row reads
    the same in the two bigram tables (a missing row reads as an empty
    one). *)
Definition same_reads (s s' : store) : Prop :=
  unigram_counts s = unigram_counts s' /\
  forall prev_word,
    row_of (bigram_counts s) prev_word = row_of (bigram_counts s') prev_word.

(** A computation respects the reads when it returns the same outcome from
    stores that read alike and leaves stores that read alike. *)
Definition respects {A} (m : M A) : Prop :=
  forall s s',
    same_reads s s' ->
    fst (m s) = fst (m s') /\ same_reads (snd (m s)) (snd (m s')).

(** [follows pairs w ws]: each word of [ws] follows its predecessor, the
    first one following [w], along pairs of [pairs]. *)
Fixpoint follows (pairs : list (token * token)) (w : token)
    (ws : list token) : Prop :=
  match ws with
  | [] => True
  | x :: rest => In (w, x) pairs /\ follows pairs x rest
  end.

(** ** The estimators, as binary64 computes them *)

(** [float(n)] does not overflow: the [int] is below the largest [float]. *)
Definition convertible (n : Z) : Prop :=
  is_infinity (Binary64.int_to_float n) = false.

(** The formulas of the specification with every count converted to a
    [float] and every operation rounded, in the order in which the code
    evaluates them. *)
Module Rounded.

(** The quotient that [get_log_prob_addk] takes the logarithm of. *)
Definition addk_prob (unigrams : Counter) (bigrams : defaultdict)
    (prev_word word : token) (k : float) : float :=
  ((Binary64.int_to_float (bigram_count bigrams prev_word word) + k) /
   (Binary64.int_to_float (Counter_get unigrams prev_word)
    + k * Binary64.int_to_float (VocabularySize unigrams)))%float.

(** BigramCounts[prev][word] * bigramWeight *)
Definition product (bigrams : defaultdict) (prev_word word : token)
    (bigramWeight : float) : float :=
  (Binary64.int_to_float (bigram_count bigrams prev_word word)
   * bigramWeight)%float.

Definition bigramTerm (unigrams : Counter) (bigrams : defaultdict)
    (start_count : Z) (prev_word word : token) (bigramWeight : float)
  : float :=
  if (product bigrams prev_word word bigramWeight =? 0)%float then 0%float
  else (product bigrams prev_word word bigramWeight
        / Binary64.int_to_float
            (conditioning_count unigrams start_count prev_word))%float.

Definition unigramTerm (unigrams : Counter) (token_count : float)
    (word : token) (unigramWeight : float) : float :=
  (Binary64.int_to_float (Counter_get unigrams word) / token_count
   * unigramWeight)%float.

Definition zerogramTerm (unigrams : Counter)
    (bigramWeight unigramWeight : float) : float :=
  (1 / Binary64.int_to_float (Dict.len unigrams)
   * (1 - bigramWeight - unigramWeight))%float.

Definition mixture (unigrams : Counter) (bigrams : defaultdict)
    (start_count : Z) (token_count : float) (prev_word word : token)
    (lambdas : float * float) : float :=
  (bigramTerm unigrams bigrams start_count prev_word word (fst lambdas)
   + unigramTerm unigrams token_count word (snd lambdas)
   + zerogramTerm unigrams (fst lambdas) (snd lambdas))%float.

(** The argument of [math.exp] in [calculate_perplexity]. *)
Definition exponent (scores : list float) (sentences : list sentence)
  : float :=
  (- Binary64.fsum scores
   / Binary64.int_to_float (totalTokenCount sentences))%float.

(** The scores of the test sentences, in the order of the loop. *)
Definition sentence_scores {P : Type}
    (smoothing_function : sentence -> Z -> float -> P -> M float)
    (start_count : Z) (token_count : float) (parameter : P)
    (sentences : list sentence) : M (list float) :=
  mapM (fun sentence =>
          smoothing_function sentence start_count token_count parameter)
       sentences.
End Rounded.

(** ** The generator as a random process *)




(** ** Corpora of the examples *)

Definition corpus_ab : list sentence := [["a"; "b"]].
Definition corpus_aa : list sentence := [["a"; "a"]].
Definition corpus_aaa : list sentence := [["a"]; ["a"]; ["a"]].
Definition corpus_aaaab : list sentence := [["a"; "a"; "a"; "a"; "b"]].
Definition corpus_abab : list sentence := [["a"; "b"]; ["a"; "b"]].

(** The statements about [Binary64] hold for every C library; the
    examples are run with this one, which computes [log] and [exp] by
    argument reduction and a truncated series. *)
Definition ln2 : float := 0x1.62e42fefa39efp-1.

(** 2 atanh t, the logarithm of (1 + t) / (1 - t) *)
Definition log_series (t : float) : float :=
  let s := (t * t)%float in
  (2 * t * (1 + s * (1 / 3 + s * (1 / 5 + s * (1 / 7 + s * (1 / 9 + s *
     (1 / 11 + s * (1 / 13 + s * (1 / 15)))))))))%float.

(** The logarithm of m * 2^n with m between the square roots of 1/2 and
    of 2. *)
Definition example_log (x : float) : float :=
  let (m, e) := frshiftexp x in
  let n := (of_uint63 e - 2101)%float in
  let (m, n) :=
    if (m <? 0x1.6a09e667f3bcdp-1)%float then ((2 * m)%float, (n - 1)%float)
    else (m, n) in
  (n * ln2 + log_series ((m - 1) / (m + 1)))%float.

Definition exp_series (x : float) : float :=
  (1 + x * (1 + x / 2 * (1 + x / 3 * (1 + x / 4 * (1 + x / 5 * (1 + x / 6 *
     (1 + x / 7 * (1 + x / 8 * (1 + x / 9 * (1 + x / 10 * (1 + x / 11 *
     (1 + x / 12 * (1 + x / 13 * (1 + x / 14))))))))))))))%float.

(** The exponential of x as the square of that of x / 2. *)
Fixpoint exp_reduce (fuel : nat) (x : float) : float :=
  match fuel with
  | O => exp_series x
  | S fuel' =>
      if (abs x <=? 0.5)%float then exp_series x
      else let y := exp_reduce fuel' (x / 2)%float in (y * y)%float
  end.

Definition example_exp (x : float) : float :=
  if is_nan x then x
  else if is_infinity x then (if (0 <? x)%float then infinity else 0%float)
  else exp_reduce 1100 x.

Definition example_libm : Binary64.Libm :=
  {| Binary64.libm_log := example_log;
     Binary64.libm_exp := example_exp |}.

(** * Properties *)

(** ** Dictionaries *)

Module DictFacts.
Section DictFacts.
Context {V : Type}.
Implicit Types (d : Dict.t V) (k : token) (v : V).

Lemma find_set_same d k v : Dict.find (Dict.set d k v) k = Some v.
Proof.
  induction d as [|[k0 v0] d IH]; simpl.
  - now rewrite String.eqb_refl.
  - destruct (String.eqb_spec k0 k) as [->|Hne]; simpl.
    + now rewrite String.eqb_refl.
    + destruct (String.eqb_spec k0 k); [contradiction | exact IH].
Qed.

Lemma find_set_other d k k' v :
  k <> k' -> Dict.find (Dict.set d k v) k' = Dict.find d k'.
Proof.
  intros Hne. induction d as [|[k0 v0] d IH]; simpl.
  - destruct (String.eqb_spec k k'); [contradiction | reflexivity].
  - destruct (String.eqb_spec k0 k) as [->|Hk]; simpl.
    + destruct (String.eqb_spec k k'); [contradiction | reflexivity].
    + now rewrite IH.
Qed.

Lemma find_None_keys d k : Dict.find d k = None <-> ~ In k (Dict.keys d).
Proof.
  induction d as [|[k0 v0] d IH]; simpl.
  - tauto.
  - destruct (String.eqb_spec k0 k) as [->|Hk].
    + split; [discriminate | intros H; exfalso; apply H; now left].
    + rewrite IH. tauto.
Qed.

Lemma find_Some_In d k v : Dict.find d k = Some v -> In (k, v) d.
Proof.
  induction d as [|[k0 v0] d IH]; simpl; [discriminate|].
  destruct (String.eqb_spec k0 k) as [->|Hk].
  - intros [= ->]. now left.
  - intros H. right. now apply IH.
Qed.

Lemma In_find d k v :
  NoDup (Dict.keys d) -> In (k, v) d -> Dict.find d k = Some v.
Proof.
  induction d as [|[k0 v0] d IH]; simpl; [tauto|].
  intros Hnd [[= -> ->]|Hin].
  - now rewrite String.eqb_refl.
  - inversion Hnd as [|? ? Hk0 Hnd']; subst.
    destruct (String.eqb_spec k0 k) as [->|Hk].
    + exfalso. apply Hk0. change k with (fst (k, v)). now apply in_map.
    + now apply IH.
Qed.

Lemma set_missing d k v :
  Dict.find d k = None -> Dict.set d k v = d ++ [(k, v)].
Proof.
  induction d as [|[k0 v0] d IH]; simpl; [reflexivity|].
  destruct (String.eqb_spec k0 k); [discriminate|].
  intros H. now rewrite IH.
Qed.

Lemma keys_set_present d k v :
  Dict.find d k <> None -> Dict.keys (Dict.set d k v) = Dict.keys d.
Proof.
  induction d as [|[k0 v0] d IH]; simpl; [congruence|].
  destruct (String.eqb_spec k0 k) as [->|Hk]; simpl; [reflexivity|].
  intros H. f_equal. now apply IH.
Qed.

Lemma keys_set d k v :
  Dict.keys (Dict.set d k v) =
  match Dict.find d k with
  | Some _ => Dict.keys d
  | None => Dict.keys d ++ [k]
  end.
Proof.
  destruct (Dict.find d k) eqn:E.
  - apply keys_set_present. congruence.
  - rewrite (set_missing _ _ _ E). unfold Dict.keys. now rewrite map_app.
Qed.

Lemma NoDup_keys_set d k v :
  NoDup (Dict.keys d) -> NoDup (Dict.keys (Dict.set d k v)).
Proof.
  intros Hnd. rewrite keys_set. destruct (Dict.find d k) eqn:E; [exact Hnd|].
  apply find_None_keys in E.
  apply NoDup_rev in Hnd. rewrite <- (rev_involutive (_ ++ _)).
  apply NoDup_rev. rewrite rev_app_distr. simpl. constructor; [|exact Hnd].
  now rewrite <- in_rev.
Qed.

Lemma In_keys_set d k v k' :
  In k' (Dict.keys (Dict.set d k v)) <-> k' = k \/ In k' (Dict.keys d).
Proof.
  rewrite keys_set. destruct (Dict.find d k) eqn:E.
  - split; [tauto|]. intros [->|H]; [|exact H].
    apply find_Some_In in E. change k with (fst (k, v0)). now apply in_map.
  - rewrite in_app_iff. simpl. intuition congruence.
Qed.

Lemma len_set_pos d k v : 0 < Dict.len (Dict.set d k v).
Proof. unfold Dict.len. destruct d as [|[k0 v0] d]; simpl; [lia|].
       destruct (String.eqb k0 k); simpl; lia. Qed.

Lemma len_set_le d k v : Dict.len d <= Dict.len (Dict.set d k v).
Proof.
  unfold Dict.len. apply inj_le.
  induction d as [|[k0 v0] d IH]; simpl; [lia|].
  destruct (String.eqb k0 k); simpl; lia.
Qed.

Lemma find_app d e k :
  Dict.find (d ++ e) k =
  match Dict.find d k with Some v => Some v | None => Dict.find e k end.
Proof.
  induction d as [|[k0 v0] d IH]; simpl; [reflexivity|].
  destruct (String.eqb k0 k); [reflexivity | exact IH].
Qed.

Lemma len_keys d : Dict.len d = Z.of_nat (length (Dict.keys d)).
Proof. unfold Dict.len, Dict.keys. now rewrite length_map. Qed.

Lemma set_set d k v v' : Dict.set (Dict.set d k v) k v' = Dict.set d k v'.
Proof.
  induction d as [|[k0 v0] d IH]; simpl.
  - now rewrite String.eqb_refl.
  - destruct (String.eqb_spec k0 k) as [->|Hk]; simpl.
    + now rewrite String.eqb_refl.
    + destruct (String.eqb_spec k0 k); [contradiction | now rewrite IH].
Qed.

Lemma Forall_set (P : token * V -> Prop) d k v :
  Forall P d -> P (k, v) -> Forall P (Dict.set d k v).
Proof.
  intros Hd Hv. induction d as [|[k0 v0] d IH]; simpl.
  - now constructor.
  - inversion Hd; subst.
    destruct (String.eqb_spec k0 k) as [->|Hk]; constructor; auto.
Qed.

Lemma Forall_find (P : token * V -> Prop) d k v :
  Forall P d -> Dict.find d k = Some v -> P (k, v).
Proof.
  intros Hd Hf. apply find_Some_In in Hf.
  rewrite Forall_forall in Hd. now apply Hd.
Qed.
End DictFacts.
End DictFacts.
Import DictFacts.

(** ** Counters *)

Lemma Counter_ok_nil : Counter_ok [].
Proof. split; constructor. Qed.

Lemma Counter_get_nonneg c w : Counter_ok c -> 0 <= Counter_get c w.
Proof.
  intros [_ Hpos]. unfold Counter_get.
  destruct (Dict.find c w) as [n|] eqn:E; [|lia].
  apply (Forall_find _ _ _ _ Hpos) in E. unfold positive_entry in E.
  simpl in E. lia.
Qed.

Lemma Counter_ok_In c w :
  Counter_ok c -> In w (Dict.keys c) <-> 0 < Counter_get c w.
Proof.
  intros [Hnd Hpos]. unfold Counter_get.
  destruct (Dict.find c w) as [n|] eqn:E.
  - split; intros _.
    + now apply (Forall_find _ _ _ _ Hpos) in E.
    + apply find_Some_In in E. change w with (fst (w, n)). now apply in_map.
  - apply find_None_keys in E. split; [tauto | lia].
Qed.

Lemma Counter_get_incr c w w' :
  Counter_get (Counter_incr c w) w' =
  Counter_get c w' + (if String.eqb w w' then 1 else 0).
Proof.
  unfold Counter_incr. destruct (String.eqb_spec w w') as [->|Hne].
  - unfold Counter_get at 1. now rewrite find_set_same.
  - unfold Counter_get at 1. rewrite find_set_other by exact Hne.
    fold (Counter_get c w'). lia.
Qed.

Lemma Counter_ok_incr c w : Counter_ok c -> Counter_ok (Counter_incr c w).
Proof.
  intros Hok. pose proof (Counter_get_nonneg c w Hok) as Hge.
  destruct Hok as [Hnd Hpos]. split.
  - now apply NoDup_keys_set.
  - apply Forall_set; [exact Hpos|]. unfold positive_entry. simpl. lia.
Qed.

Lemma Counter_incr_not_nil c w : Counter_incr c w <> [].
Proof.
  unfold Counter_incr. destruct c as [|[k0 v0] c]; simpl; [discriminate|].
  destruct (String.eqb k0 w); discriminate.
Qed.

Lemma Counter_ok_fold l c :
  Counter_ok c -> Counter_ok (fold_left Counter_incr l c).
Proof.
  revert c. induction l as [|w l IH]; simpl; intros c Hok; [exact Hok|].
  apply IH. now apply Counter_ok_incr.
Qed.

(** The counter after a run of increments holds the number of occurrences. *)
Lemma Counter_get_fold l c w :
  Counter_get (fold_left Counter_incr l c) w =
  Counter_get c w + Z.of_nat (count_occ string_dec l w).
Proof.
  revert c. induction l as [|x l IH]; simpl; intros c; [lia|].
  rewrite IH, Counter_get_incr.
  destruct (string_dec x w) as [->|Hne].
  - rewrite String.eqb_refl. lia.
  - destruct (String.eqb_spec x w); [contradiction | lia].
Qed.

(** ** Rows of the bigram table *)

Lemma bigram_count_row d prev_word word :
  bigram_count d prev_word word = Counter_get (row_of d prev_word) word.
Proof. unfold bigram_count, row_of. now destruct (Dict.find d prev_word). Qed.

Lemma defaultdict_getitem_row d key :
  fst (defaultdict_getitem d key) = row_of d key.
Proof. unfold defaultdict_getitem, row_of. now destruct (Dict.find d key). Qed.

Lemma defaultdict_incr_set d first second :
  defaultdict_incr d (first, second) =
  Dict.set d first (Counter_incr (row_of d first) second).
Proof.
  unfold defaultdict_incr, defaultdict_getitem, row_of.
  destruct (Dict.find d first); [reflexivity | apply set_set].
Qed.

Lemma rows_ok_nil : rows_ok [].
Proof. split; constructor. Qed.

Lemma row_of_ok d prev_word : rows_ok d -> Counter_ok (row_of d prev_word).
Proof.
  intros [_ Hrows]. unfold row_of.
  destruct (Dict.find d prev_word) as [row|] eqn:E; [|apply Counter_ok_nil].
  now apply (Forall_find _ _ _ _ Hrows) in E as [Hok _].
Qed.

Lemma rows_ok_incr d bigram : rows_ok d -> rows_ok (defaultdict_incr d bigram).
Proof.
  destruct bigram as [first second]. intros Hok.
  pose proof (row_of_ok d first Hok) as Hrow. destruct Hok as [Hnd Hrows].
  rewrite defaultdict_incr_set. split.
  - now apply NoDup_keys_set.
  - apply Forall_set; [exact Hrows|]. split; simpl.
    + now apply Counter_ok_incr.
    + apply Counter_incr_not_nil.
Qed.

Lemma rows_ok_fold l d :
  rows_ok d -> rows_ok (fold_left defaultdict_incr l d).
Proof.
  revert d. induction l as [|b l IH]; simpl; intros d Hok; [exact Hok|].
  apply IH. now apply rows_ok_incr.
Qed.

Lemma bigram_count_incr d first second prev_word word :
  bigram_count (defaultdict_incr d (first, second)) prev_word word =
  bigram_count d prev_word word +
  (if bigram_dec (first, second) (prev_word, word) then 1 else 0).
Proof.
  rewrite defaultdict_incr_set. unfold bigram_count at 1.
  destruct (string_dec first prev_word) as [->|Hne].
  - rewrite find_set_same, Counter_get_incr, <- bigram_count_row.
    destruct (bigram_dec _ _) as [[= ->]|Hne].
    + now rewrite String.eqb_refl.
    + destruct (String.eqb_spec second word); [congruence | reflexivity].
  - rewrite find_set_other by exact Hne. fold (bigram_count d prev_word word).
    destruct (bigram_dec _ _) as [[= -> ->]|_]; [contradiction | lia].
Qed.

(** The table after a run of increments holds the number of occurrences
    of each bigram. *)
Lemma bigram_count_fold l d prev_word word :
  bigram_count (fold_left defaultdict_incr l d) prev_word word =
  bigram_count d prev_word word +
  Z.of_nat (count_occ bigram_dec l (prev_word, word)).
Proof.
  revert d. induction l as [|[first second] l IH]; intros d.
  - simpl. lia.
  - cbn [fold_left count_occ]. rewrite IH, bigram_count_incr.
  destruct (bigram_dec (first, second) (prev_word, word)); lia.
Qed.

(** ** The count collector, declaratively *)

Lemma count_unigrams_acc sentences (c : Counter) (n : Z) :
  fold_left
    (fun (acc : Counter * Z) sentence =>
       let (unigram_counts, start_count) := acc in
       let sentence := convert_sentence sentence in
       (fold_left Counter_incr (tl sentence) unigram_counts, start_count + 1))
    sentences (c, n) =
  (fold_left Counter_incr (unigram_tokens sentences) c,
   n + Z.of_nat (length sentences)).
Proof.
  revert c n. induction sentences as [|s rest IH]; intros c n.
  - simpl. f_equal. lia.
  - cbn [fold_left]. rewrite IH. unfold unigram_tokens. cbn [flat_map].
    rewrite fold_left_app. f_equal. cbn [length]. lia.
Qed.

Lemma count_unigrams_flat sentences :
  count_unigrams sentences =
  (fold_left Counter_incr (unigram_tokens sentences) [],
   Z.of_nat (length sentences)).
Proof. unfold count_unigrams. now rewrite count_unigrams_acc. Qed.

Lemma count_bigrams_acc sentences (d : defaultdict) :
  fold_left
    (fun bigram_counts sentence =>
       let sentence := convert_sentence sentence in
       fold_left defaultdict_incr (bigram_list sentence) bigram_counts)
    sentences d =
  fold_left defaultdict_incr (corpus_bigrams sentences) d.
Proof.
  revert d. induction sentences as [|s rest IH]; intros d; [reflexivity|].
  cbn [fold_left]. rewrite IH. unfold corpus_bigrams. cbn [flat_map].
  now rewrite fold_left_app.
Qed.

Lemma count_bigrams_flat sentences :
  count_bigrams sentences =
  fold_left defaultdict_incr (corpus_bigrams sentences) [].
Proof. apply count_bigrams_acc. Qed.

Section Collected.
Variable sentences : list sentence.
Variables (U : Counter) (B : defaultdict) (sc : Z) (tc : R).
Hypothesis collected : get_counts sentences = (U, B, sc, tc).

Lemma collected_unigrams :
  U = fold_left Counter_incr (unigram_tokens sentences) [].
Proof.
  unfold get_counts in collected. rewrite count_unigrams_flat in collected.
  now inversion collected.
Qed.

Lemma collected_bigrams :
  B = fold_left defaultdict_incr (corpus_bigrams sentences) [].
Proof.
  unfold get_counts in collected. rewrite count_unigrams_flat in collected.
  rewrite count_bigrams_flat in collected. now inversion collected.
Qed.

Lemma collected_start_count : sc = Z.of_nat (length sentences).
Proof.
  unfold get_counts in collected. rewrite count_unigrams_flat in collected.
  now inversion collected.
Qed.

Lemma collected_token_count : tc = IZR (sum (Dict.values U)).
Proof.
  unfold get_counts in collected. rewrite count_unigrams_flat in collected.
  now inversion collected.
Qed.

Lemma collected_Counter_ok : Counter_ok U.
Proof. rewrite collected_unigrams. apply Counter_ok_fold, Counter_ok_nil. Qed.

Lemma collected_rows_ok : rows_ok B.
Proof. rewrite collected_bigrams. apply rows_ok_fold, rows_ok_nil. Qed.

Lemma collected_unigram_count w :
  Counter_get U w =
  Z.of_nat (count_occ string_dec (unigram_tokens sentences) w).
Proof. rewrite collected_unigrams, Counter_get_fold. reflexivity. Qed.

Lemma collected_bigram_count prev_word word :
  bigram_count B prev_word word =
  Z.of_nat (count_occ bigram_dec (corpus_bigrams sentences) (prev_word, word)).
Proof. rewrite collected_bigrams, bigram_count_fold. reflexivity. Qed.

Lemma collected_vocabulary : sentences <> [] -> 0 < Dict.len U.
Proof.
  intros Hne. rewrite collected_unigrams.
  destruct sentences as [|s rest]; [congruence|].
  unfold unigram_tokens, convert_sentence. cbn [flat_map app tl].
  assert (H : forall (l : list token) c,
             l <> [] -> 0 < Dict.len (fold_left Counter_incr l c)).
  { induction l as [|w l IH]; intros c Hl; [congruence|]. simpl.
    destruct l as [|w' l'].
    - simpl. apply len_set_pos.
    - apply IH. discriminate. }
  apply H. destruct (map lower s); discriminate.
Qed.
End Collected.

(** ** Binary64 numbers *)

Lemma Prim2SF_zero : Prim2SF 0%float = S754_zero false.
Proof. reflexivity. Qed.

Lemma Prim2SF_infinity : Prim2SF infinity = S754_infinity false.
Proof. reflexivity. Qed.

Lemma SFcompare_refl_finite s m e :
  SFcompare (S754_finite s m e) (S754_finite s m e) = Some Eq.
Proof.
  simpl. rewrite Z.compare_refl, Pos.compare_cont_refl. now destruct s.
Qed.

(** The tests of the program on a float, read on its specification. *)
Lemma eqb_zero_spec x :
  (x =? 0)%float = match Prim2SF x with S754_zero _ => true | _ => false end.
Proof.
  rewrite FloatAxioms.eqb_spec, Prim2SF_zero. unfold SFeqb.
  destruct (Prim2SF x) as [s|s| |s m e]; try reflexivity; now destruct s.
Qed.

Lemma ltb_zero_spec x :
  (0 <? x)%float =
  match Prim2SF x with
  | S754_finite false _ _ | S754_infinity false => true
  | _ => false
  end.
Proof.
  rewrite FloatAxioms.ltb_spec, Prim2SF_zero. unfold SFltb.
  destruct (Prim2SF x) as [s|s| |s m e]; try reflexivity; now destruct s.
Qed.

Lemma is_nan_spec x :
  is_nan x = match Prim2SF x with S754_nan => true | _ => false end.
Proof.
  unfold is_nan. rewrite FloatAxioms.eqb_spec. unfold SFeqb.
  destruct (Prim2SF x) as [s|s| |s m e]; try reflexivity.
  - now destruct s.
  - now rewrite SFcompare_refl_finite.
Qed.

Lemma is_infinity_spec x :
  is_infinity x =
  match Prim2SF x with S754_infinity _ => true | _ => false end.
Proof.
  unfold is_infinity.
  rewrite FloatAxioms.eqb_spec, FloatAxioms.abs_spec, Prim2SF_infinity.
  unfold SFeqb. destruct (Prim2SF x) as [s|s| |s m e]; reflexivity.
Qed.

Lemma is_finite_spec x :
  is_finite x =
  match Prim2SF x with
  | S754_zero _ | S754_finite _ _ _ => true
  | _ => false
  end.
Proof.
  unfold is_finite. rewrite is_nan_spec, is_infinity_spec.
  now destruct (Prim2SF x).
Qed.

Lemma is_finite_not_nan x : is_finite x = true -> is_nan x = false.
Proof. rewrite is_finite_spec, is_nan_spec. now destruct (Prim2SF x). Qed.

Lemma is_finite_not_infinity x : is_finite x = true -> is_infinity x = false.
Proof. rewrite is_finite_spec, is_infinity_spec. now destruct (Prim2SF x). Qed.

Lemma eqb_zero_finite x : (x =? 0)%float = true -> is_finite x = true.
Proof. rewrite eqb_zero_spec, is_finite_spec. now destruct (Prim2SF x). Qed.

(** An operation with a finite result has finite operands, and a finite
    quotient has a divisor that is not zero. *)
Lemma add_finite x y :
  is_finite (x + y) = true -> is_finite x = true /\ is_finite y = true.
Proof.
  rewrite !is_finite_spec, FloatAxioms.add_spec. unfold SF64add, SFadd.
  destruct (Prim2SF x) as [s|s| |s m e], (Prim2SF y) as [s'|s'| |s' m' e'];
    try (destruct s, s'); simpl; intros H; try discriminate; now split.
Qed.

Lemma mul_finite x y :
  is_finite (x * y) = true -> is_finite x = true /\ is_finite y = true.
Proof.
  rewrite !is_finite_spec, FloatAxioms.mul_spec. unfold SF64mul, SFmul.
  destruct (Prim2SF x) as [s|s| |s m e], (Prim2SF y) as [s'|s'| |s' m' e'];
    simpl; intros H; try discriminate; now split.
Qed.

Lemma div_finite x y :
  is_finite (x / y) = true ->
  is_finite x = true /\ (y =? 0)%float = false.
Proof.
  rewrite !is_finite_spec, eqb_zero_spec, FloatAxioms.div_spec.
  unfold SF64div, SFdiv.
  destruct (Prim2SF x) as [s|s| |s m e], (Prim2SF y) as [s'|s'| |s' m' e'];
    simpl; intros H; try discriminate; now split.
Qed.

Lemma div_finite_pos x y :
  is_finite (x / y) = true -> (0 <? x / y)%float = true ->
  is_finite y = true.
Proof.
  rewrite !is_finite_spec, ltb_zero_spec, FloatAxioms.div_spec.
  unfold SF64div, SFdiv.
  destruct (Prim2SF x) as [s|s| |s m e], (Prim2SF y) as [s'|s'| |s' m' e'];
    simpl; intros H H'; try discriminate; try reflexivity;
    destruct (xorb _ _); discriminate.
Qed.

Lemma mul_zero_finite x y :
  (x * y =? 0)%float = true -> is_finite x = true.
Proof.
  intros H. apply eqb_zero_finite in H. now apply mul_finite in H.
Qed.

(** *** Converting an [int] below [2 ^ 63] *)

Lemma digits2_pos_bounds p :
  2 ^ (Zpos (digits2_pos p) - 1) <= Zpos p < 2 ^ Zpos (digits2_pos p).
Proof.
  induction p as [p IH|p IH|]; cbn [digits2_pos].
  - rewrite Pos2Z.inj_succ.
    replace (Z.succ (Zpos (digits2_pos p)) - 1)
      with (Z.succ (Zpos (digits2_pos p) - 1)) by lia.
    rewrite !Z.pow_succ_r by lia. lia.
  - rewrite Pos2Z.inj_succ.
    replace (Z.succ (Zpos (digits2_pos p)) - 1)
      with (Z.succ (Zpos (digits2_pos p) - 1)) by lia.
    rewrite !Z.pow_succ_r by lia. lia.
  - simpl. lia.
Qed.

Lemma Zdigits2_lt m k : 0 < m -> 0 <= k -> m < 2 ^ k -> Zdigits2 m <= k.
Proof.
  intros Hm Hk Hlt. destruct m as [|p|p]; try lia. cbn [Zdigits2].
  pose proof (digits2_pos_bounds p) as [Hlo _].
  destruct (Z_le_gt_dec (Zpos (digits2_pos p)) k) as [|Hgt]; [assumption|].
  exfalso.
  assert (2 ^ k <= 2 ^ (Zpos (digits2_pos p) - 1))
    by (apply Z.pow_le_mono_r; lia).
  lia.
Qed.

Lemma digits2_pos_iter p k :
  Zpos (digits2_pos (Pos.iter xO p k)) = Zpos (digits2_pos p) + Zpos k.
Proof.
  induction k as [|k IH] using Pos.peano_ind.
  - simpl. lia.
  - rewrite Pos.iter_succ. cbn [digits2_pos]. lia.
Qed.

Lemma shr_m_shr_1 mrs : 0 <= shr_m mrs -> shr_m (shr_1 mrs) = shr_m mrs / 2.
Proof.
  destruct mrs as [m r s]. cbn [shr_m]. intros Hm. unfold shr_1.
  destruct m as [|[p|p|]|p]; cbn [shr_m]; try lia; try reflexivity.
  - apply Z.div_unique with 1; lia.
  - apply Z.div_unique with 0; lia.
Qed.

Lemma shr_m_iter p : forall mrs,
  0 <= shr_m mrs ->
  shr_m (iter_pos shr_1 p mrs) = shr_m mrs / 2 ^ Zpos p.
Proof.
  assert (Hpow : forall q, 0 < 2 ^ Zpos q)
    by (intros; apply Z.pow_pos_nonneg; lia).
  induction p as [p IH|p IH|]; intros mrs Hm; cbn [iter_pos].
  - pose proof (Hpow p) as Hp.
    assert (H1 : 0 <= shr_m (shr_1 mrs)).
    { rewrite shr_m_shr_1 by assumption. apply Z.div_pos; lia. }
    assert (H2 : 0 <= shr_m (iter_pos shr_1 p (shr_1 mrs))).
    { rewrite IH by assumption. apply Z.div_pos; lia. }
    rewrite IH by assumption. rewrite IH by assumption.
    rewrite shr_m_shr_1 by assumption.
    rewrite !Zdiv.Zdiv_Zdiv by lia.
    assert (E : 2 ^ Zpos p~1 = 2 * 2 ^ Zpos p * 2 ^ Zpos p).
    { replace (Zpos p~1) with (1 + Zpos p + Zpos p) by lia.
      rewrite !Z.pow_add_r by lia. reflexivity. }
    rewrite E. f_equal; lia.
  - pose proof (Hpow p) as Hp.
    assert (H2 : 0 <= shr_m (iter_pos shr_1 p mrs)).
    { rewrite IH by assumption. apply Z.div_pos; lia. }
    rewrite IH by assumption. rewrite IH by assumption.
    rewrite !Zdiv.Zdiv_Zdiv by lia.
    assert (E : 2 ^ Zpos p~0 = 2 ^ Zpos p * 2 ^ Zpos p).
    { replace (Zpos p~0) with (Zpos p + Zpos p) by lia.
      rewrite !Z.pow_add_r by lia. reflexivity. }
    rewrite E. f_equal; lia.
  - rewrite shr_m_shr_1 by assumption. reflexivity.
Qed.

Lemma shr_m_of_loc m l : shr_m (shr_record_of_loc m l) = m.
Proof. destruct l as [|[| |]]; reflexivity. Qed.

Lemma fexp_le a b : a <= b -> fexp prec emax a <= fexp prec emax b.
Proof. unfold fexp. lia. Qed.

Ltac fexp_values :=
  unfold fexp, SpecFloat.emin in *;
  change prec with 53 in *; change emax with 1024 in *.

(** The mantissa that [shr_fexp] leaves is positive, and the exponent is
    the larger of the given one and the canonical one. *)
Lemma shr_fexp_pos m e l :
  0 < m -> emin <= e ->
  0 < shr_m (fst (shr_fexp prec emax m e l)) <= m
  /\ snd (shr_fexp prec emax m e l) = Z.max e (fexp prec emax (Zdigits2 m + e)).
Proof.
  intros Hm He. unfold shr_fexp, shr.
  destruct m as [|p|p]; try lia. cbn [Zdigits2].
  pose proof (digits2_pos_bounds p) as [Hlo Hhi].
  set (d := Zpos (digits2_pos p)) in *.
  assert (Hd : 1 <= d) by (unfold d; lia).
  destruct (fexp prec emax (d + e) - e) as [|n|n] eqn:En.
  - cbn [fst snd]. rewrite shr_m_of_loc. lia.
  - cbn [fst snd]. rewrite shr_m_iter by (rewrite shr_m_of_loc; lia).
    rewrite shr_m_of_loc.
    assert (Hn : Zpos n <= d - 1) by (fexp_values; lia).
    assert (Hpow : 2 ^ Zpos n <= Zpos p).
    { transitivity (2 ^ (d - 1)); [apply Z.pow_le_mono_r; lia | assumption]. }
    assert (0 < 2 ^ Zpos n) by (apply Z.pow_pos_nonneg; lia).
    split; [split|].
    + apply Z.div_str_pos. lia.
    + apply Z.div_le_upper_bound; [lia|]. nia.
    + lia.
  - cbn [fst snd]. rewrite shr_m_of_loc. lia.
Qed.

Lemma round_nearest_even_bounds m l :
  m <= round_nearest_even m l <= m + 1.
Proof.
  unfold round_nearest_even. destruct l as [|[| |]]; try lia.
  destruct (Z.even m); lia.
Qed.

(** Rounding a positive mantissa never gives zero: the result is a
    positive finite number or, when the exponent is too large, infinity. *)
Lemma binary_round_aux_pos sx p e :
  emin <= e ->
  exists m2 e2,
    binary_round_aux prec emax sx (Zpos p) e loc_Exact =
      (if e2 <=? emax - prec then S754_finite sx m2 e2 else S754_infinity sx)
    /\ e2 <= Z.max e
               (fexp prec emax
                  (Zpos (digits2_pos p) + 1
                   + Z.max e (fexp prec emax (Zpos (digits2_pos p) + e)))).
Proof.
  intros He. unfold binary_round_aux.
  pose proof (shr_fexp_pos (Zpos p) e loc_Exact ltac:(lia) He)
    as [[H1 H1'] E1].
  destruct (shr_fexp prec emax (Zpos p) e loc_Exact) as [mrs' e'].
  cbn [fst snd] in *.
  pose proof (round_nearest_even_bounds (shr_m mrs') (loc_of_shr_record mrs'))
    as Hr.
  set (m1 := round_nearest_even (shr_m mrs') (loc_of_shr_record mrs')) in *.
  assert (He' : emin <= e') by lia.
  pose proof (shr_fexp_pos m1 e' loc_Exact ltac:(lia) He') as [[H2 H2'] E2].
  destruct (shr_fexp prec emax m1 e' loc_Exact) as [mrs'' e''].
  cbn [fst snd] in *.
  destruct (shr_m mrs'') as [|m2|m2] eqn:Em; try lia.
  exists m2, e''. split; [reflexivity|].
  assert (Hdig : Zdigits2 m1 <= Zpos (digits2_pos p) + 1).
  { apply Zdigits2_lt; [lia | lia |].
    pose proof (digits2_pos_bounds p) as [_ Hhi].
    rewrite Z.pow_add_r, Z.pow_1_r by lia. lia. }
  rewrite E2, E1.
  pose proof (fexp_le
                (Zdigits2 m1
                 + Z.max e (fexp prec emax (Zdigits2 (Zpos p) + e)))
                (Zpos (digits2_pos p) + 1
                 + Z.max e (fexp prec emax (Zpos (digits2_pos p) + e)))
                ltac:(cbn [Zdigits2]; lia)).
  pose proof (fexp_le (Zpos (digits2_pos p) + e)
                (Zpos (digits2_pos p) + 1
                 + Z.max e (fexp prec emax (Zpos (digits2_pos p) + e)))
                ltac:(lia)).
  cbn [Zdigits2] in *. lia.
Qed.

Lemma binary_normalize_small p :
  Zpos p < 2 ^ 63 ->
  exists m e,
    binary_normalize prec emax (Zpos p) 0 false = S754_finite false m e.
Proof.
  intros Hp. cbn [binary_normalize]. unfold binary_round, shl_align.
  pose proof (digits2_pos_bounds p) as [Hlo Hhi].
  assert (Hd : Zpos (digits2_pos p) <= 63)
    by exact (Zdigits2_lt (Zpos p) 63 ltac:(lia) ltac:(lia) Hp).
  assert (Hd1 : 1 <= Zpos (digits2_pos p)) by lia.
  set (d := Zpos (digits2_pos p)) in *.
  assert (Hf : fexp prec emax (d + 0) = d - 53) by (fexp_values; lia).
  rewrite Hf.
  destruct (d - 53 - 0) as [|n|n] eqn:En.
  - destruct (binary_round_aux_pos false p 0 ltac:(fexp_values; lia))
      as (m2 & e2 & -> & He2).
    exists m2, e2. fold d in He2.
    destruct (Z.leb_spec e2 (emax - prec)); [reflexivity | fexp_values; lia].
  - destruct (binary_round_aux_pos false p 0 ltac:(fexp_values; lia))
      as (m2 & e2 & -> & He2).
    exists m2, e2. fold d in He2.
    destruct (Z.leb_spec e2 (emax - prec)); [reflexivity | fexp_values; lia].
  - destruct (binary_round_aux_pos false (Pos.iter xO p n) (d - 53)
                ltac:(fexp_values; lia))
      as (m2 & e2 & -> & He2).
    exists m2, e2. rewrite digits2_pos_iter in He2. fold d in He2.
    destruct (Z.leb_spec e2 (emax - prec)); [reflexivity | fexp_values; lia].
Qed.

Lemma Prim2SF_int_to_float n :
  0 <= n < 2 ^ 63 ->
  Prim2SF (Binary64.int_to_float n) = binary_normalize prec emax n 0 false.
Proof.
  intros Hn. unfold Binary64.int_to_float.
  pose proof (FloatAxioms.of_uint63_spec (Uint63.of_Z n)) as H.
  rewrite Uint63.of_Z_spec in H.
  rewrite Z.mod_small in H by (change Uint63.wB with (2 ^ 63); lia).
  rewrite <- H. now rewrite SF2Prim_Prim2SF.
Qed.

(** The float of a positive [int] below [2 ^ 63] is finite and positive:
    the conversion does not overflow and the float is not zero. *)
Lemma int_to_float_positive n :
  0 < n < 2 ^ 63 ->
  convertible n
  /\ is_finite (Binary64.int_to_float n) = true
  /\ (Binary64.int_to_float n =? 0)%float = false
  /\ (0 <? Binary64.int_to_float n)%float = true.
Proof.
  intros Hn. unfold convertible.
  rewrite is_infinity_spec, is_finite_spec, eqb_zero_spec, ltb_zero_spec.
  rewrite Prim2SF_int_to_float by lia.
  destruct n as [|p|p]; try lia.
  destruct (binary_normalize_small p ltac:(lia)) as (m & e & ->).
  repeat split.
Qed.

Lemma int_to_float_0 : Binary64.int_to_float 0 = 0%float.
Proof. reflexivity. Qed.

(** ** Running the estimators *)

Lemma bigram_row_run prev_word s :
  bigram_row prev_word s =
  (Ret (row_of (bigram_counts s) prev_word), probe s prev_word).
Proof.
  unfold bigram_row, probe. rewrite <- defaultdict_getitem_row.
  now destruct (defaultdict_getitem (bigram_counts s) prev_word).
Qed.

Lemma probe_unigram_counts s prev_word :
  unigram_counts (probe s prev_word) = unigram_counts s.
Proof. reflexivity. Qed.

Lemma py_div_run a b s :
  py_div a b s =
  (if Req_dec_T b 0 then Raise ZeroDivisionError else Ret (a / b)%R, s).
Proof. unfold py_div. now destruct (Req_dec_T b 0). Qed.

Lemma math_log_run x s :
  math_log x s = (if Rlt_dec 0 x then Ret (ln x) else Raise ValueError, s).
Proof. unfold math_log. now destruct (Rlt_dec 0 x). Qed.

Lemma get_log_prob_addk_run prev_word word k s :
  get_log_prob_addk prev_word word k s =
  (let sm_unigram_counts :=
     (IZR (Counter_get (unigram_counts s) prev_word)
      + k * IZR (Dict.len (unigram_counts s)))%R in
   let p := addk_prob (unigram_counts s) (bigram_counts s) prev_word word k in
   if Req_dec_T sm_unigram_counts 0 then Raise ZeroDivisionError
   else if Rlt_dec 0 p then Ret (ln p) else Raise ValueError,
   probe s prev_word).
Proof.
  unfold get_log_prob_addk, bind, the_unigram_counts, addk_prob.
  rewrite bigram_row_run, py_div_run, probe_unigram_counts.
  rewrite bigram_count_row. cbv zeta.
  destruct (Req_dec_T _ 0); [reflexivity|]. now rewrite math_log_run.
Qed.

Lemma VocabularySize_len unigrams :
  Counter_ok unigrams -> VocabularySize unigrams = Dict.len unigrams.
Proof.
  intros [Hnd _]. unfold VocabularySize.
  now rewrite (nodup_fixed_point string_dec Hnd), len_keys.
Qed.

Lemma addk_denominator_pos unigrams prev_word k :
  Counter_ok unigrams -> 0 < Dict.len unigrams -> (0 < k)%R ->
  (0 < IZR (Counter_get unigrams prev_word) + k * IZR (Dict.len unigrams))%R.
Proof.
  intros Hok Hlen Hk.
  pose proof (IZR_le _ _ (Counter_get_nonneg unigrams prev_word Hok)) as Hu.
  pose proof (IZR_lt _ _ Hlen) as Hv.
  assert (0 < k * IZR (Dict.len unigrams))%R by now apply Rmult_lt_0_compat.
  lra.
Qed.

Lemma addk_prob_pos unigrams bigrams prev_word word k :
  Counter_ok unigrams -> rows_ok bigrams ->
  0 < Dict.len unigrams -> (0 < k)%R ->
  (0 < addk_prob unigrams bigrams prev_word word k)%R.
Proof.
  intros Hu Hb Hlen Hk. unfold addk_prob.
  apply Rdiv_lt_0_compat; [|now apply addk_denominator_pos].
  rewrite bigram_count_row.
  pose proof (IZR_le _ _ (Counter_get_nonneg _ word (row_of_ok _ prev_word Hb))).
  lra.
Qed.

(** *** In binary64 *)

Lemma math_log_positive libm x :
  (0 <? x)%float = true -> is_finite x = true ->
  is_finite (Binary64.libm_log libm x) = true ->
  Binary64.math_log libm x = Ret (Binary64.libm_log libm x).
Proof.
  intros Hpos Hfin Hlog. unfold Binary64.math_log, Binary64.math_1.
  unfold Binary64.m_log. rewrite Hfin, Hpos. cbv zeta.
  rewrite (is_finite_not_nan _ Hlog), (is_finite_not_infinity _ Hlog).
  reflexivity.
Qed.

(** [math.log(0.0)] and [math.log(-0.0)] raise ValueError. *)
Lemma math_log_zero libm x :
  (x =? 0)%float = true -> Binary64.math_log libm x = Raise ValueError.
Proof.
  intros Hz. pose proof (eqb_zero_finite x Hz) as Hfin.
  unfold Binary64.math_log, Binary64.math_1, Binary64.m_log.
  rewrite Hfin, Hz.
  assert (Hpos : (0 <? x)%float = false).
  { rewrite ltb_zero_spec. rewrite eqb_zero_spec in Hz.
    now destruct (Prim2SF x) as [s|s| |[] m e]. }
  rewrite Hpos. cbv zeta.
  change (is_nan neg_infinity) with false.
  change (is_infinity neg_infinity) with true.
  reflexivity.
Qed.

Lemma float_of_int_run n :
  Binary64.float_of_int n =
  if is_infinity (Binary64.int_to_float n) then Raise OverflowError
  else Ret (Binary64.int_to_float n).
Proof. reflexivity. Qed.

Lemma Binary64_get_log_prob_addk_run libm prev_word word k s :
  Binary64.get_log_prob_addk libm prev_word word k s =
  (let c := Binary64.int_to_float
              (bigram_count (bigram_counts s) prev_word word) in
   let v := Binary64.int_to_float (Dict.len (unigram_counts s)) in
   let u := Binary64.int_to_float (Counter_get (unigram_counts s) prev_word) in
   if is_infinity c then Raise OverflowError
   else if is_infinity v then Raise OverflowError
   else if is_infinity u then Raise OverflowError
   else if (u + k * v =? 0)%float then Raise ZeroDivisionError
   else Binary64.math_log libm ((c + k) / (u + k * v))%float,
   probe s prev_word).
Proof.
  unfold Binary64.get_log_prob_addk, bind, the_unigram_counts, Binary64.lift.
  rewrite bigram_row_run, <- bigram_count_row, probe_unigram_counts.
  rewrite !float_of_int_run. cbv zeta.
  destruct (is_infinity (Binary64.int_to_float (bigram_count _ _ _)));
    [reflexivity|].
  destruct (is_infinity (Binary64.int_to_float (Dict.len _))); [reflexivity|].
  destruct (is_infinity (Binary64.int_to_float (Counter_get _ _)));
    [reflexivity|].
  unfold Binary64.py_div. now destruct (_ =? 0)%float.
Qed.

(** When the quotient is finite and positive, or zero, no conversion has
    overflowed and the divisor is not zero. *)
Lemma addk_quotient_finite (c u v k : float) :
  is_finite ((c + k) / (u + k * v))%float = true ->
  is_infinity c = false /\ (u + k * v =? 0)%float = false.
Proof.
  intros Hq. apply div_finite in Hq as [Hnum Hden].
  apply add_finite in Hnum as [Hc _].
  split; [now apply is_finite_not_infinity | exact Hden].
Qed.

Lemma addk_quotient_positive (c u v k : float) :
  is_finite ((c + k) / (u + k * v))%float = true ->
  (0 <? (c + k) / (u + k * v))%float = true ->
  is_infinity u = false /\ is_infinity v = false.
Proof.
  intros Hq Hpos. pose proof (div_finite_pos _ _ Hq Hpos) as Hden.
  apply add_finite in Hden as [Hu Hkv].
  apply mul_finite in Hkv as [_ Hv].
  split; now apply is_finite_not_infinity.
Qed.

(** C1, as amended.  On tables collected by [get_counts] the Add-k
    estimator evaluates (BigramCounts[prev][word] + k) / (UnigramCounts[prev]
    + k * VocabularySize) in binary64 arithmetic, the counts converted to
    floats.  When the quotient so computed is positive and finite the call
    returns [math.log] of it; when it is zero (k * VocabularySize has
    overflowed, or the quotient has underflowed) the call raises ValueError.
    The vocabulary size is the number of distinct keys of UnigramCounts, and
    a [prev] or a [word] missing from a table reads as zero. *)
Theorem get_log_prob_addk_spec (libm : Binary64.Libm) sentences U B sc tc
    prev_word word (k : float) :
  get_counts sentences = (U, B, sc, tc) ->
  let q := Rounded.addk_prob U B prev_word word k in
  ((0 <? q)%float = true -> is_finite q = true ->
   is_finite (Binary64.libm_log libm q) = true ->
   fst (Binary64.get_log_prob_addk libm prev_word word k (mkStore U B)) =
   Ret (Binary64.libm_log libm q))
  /\ ((q =? 0)%float = true ->
      convertible (Counter_get U prev_word) ->
      convertible (VocabularySize U) ->
      fst (Binary64.get_log_prob_addk libm prev_word word k (mkStore U B)) =
      Raise ValueError)
  /\ (~ In prev_word (Dict.keys B) -> bigram_count B prev_word word = 0)
  /\ (~ In word (Dict.keys (row_of B prev_word)) ->
      bigram_count B prev_word word = 0)
  /\ (~ In prev_word (Dict.keys U) -> Counter_get U prev_word = 0).
Proof.
  intros Hc q.
  pose proof (collected_Counter_ok _ _ _ _ _ Hc) as HU.
  unfold q, Rounded.addk_prob. rewrite (VocabularySize_len U HU).
  split; [|split; [|split; [|split]]].
  - intros Hpos Hfin Hlog.
    destruct (addk_quotient_finite _ _ _ _ Hfin) as [Hcv Hden].
    destruct (addk_quotient_positive _ _ _ _ Hfin Hpos) as [Hu Hv].
    rewrite Binary64_get_log_prob_addk_run.
    cbn [fst unigram_counts bigram_counts]. cbv zeta.
    rewrite Hcv, Hv, Hu, Hden. now apply math_log_positive.
  - intros Hz Hu Hv.
    destruct (addk_quotient_finite _ _ _ _ (eqb_zero_finite _ Hz))
      as [Hcv Hden].
    rewrite Binary64_get_log_prob_addk_run.
    cbn [fst unigram_counts bigram_counts]. cbv zeta.
    unfold convertible in Hu, Hv. rewrite Hcv, Hv, Hu, Hden.
    now apply math_log_zero.
  - intros Hin. apply find_None_keys in Hin. unfold bigram_count.
    now rewrite Hin.
  - intros Hin. apply find_None_keys in Hin. rewrite bigram_count_row.
    unfold Counter_get. now rewrite Hin.
  - intros Hin. apply find_None_keys in Hin. unfold Counter_get.
    now rewrite Hin.
Qed.

Lemma get_log_prob_addk_spec_witness :
  fst (Binary64.get_log_prob_addk example_libm "a" "b" 1
         (mkStore [("a", 1); ("b", 1); ("</s>", 1)]
            [("<s>", [("a", 1)]); ("a", [("b", 1)]); ("b", [("</s>", 1)])])) =
  Ret (Binary64.libm_log example_libm
         (Rounded.addk_prob [("a", 1); ("b", 1); ("</s>", 1)]
            [("<s>", [("a", 1)]); ("a", [("b", 1)]); ("b", [("</s>", 1)])]
            "a" "b" 1)).
Proof.
  refine (proj1 (get_log_prob_addk_spec example_libm [["a"; "b"]] _ _ 1
                   (IZR 3) "a" "b" 1%float _) _ _ _).
  - reflexivity.
  - vm_compute. reflexivity.
  - vm_compute. reflexivity.
  - vm_compute. reflexivity.
Defined.

(** C1 fails as stated: k = 1e308 is positive and the vocabulary of the
    corpus a b has three words, yet k * 3 overflows to infinity, the
    quotient is 0.0 and the call raises ValueError; with the smallest
    positive k, 5e-324, the quotient of an unseen word after a token seen
    twice underflows to 0.0 and the call raises as well. *)
Lemma get_log_prob_addk_overflows :
  (0 <? 0x1.1ccf385ebc8ap+1023)%float = true
  /\ fst (Binary64.get_log_prob_addk example_libm "a" "b"
            0x1.1ccf385ebc8ap+1023 (trained corpus_ab)) = Raise ValueError
  /\ (0 <? 0x1p-1074)%float = true
  /\ fst (Binary64.get_log_prob_addk example_libm "a" "zebra"
            0x1p-1074 (trained corpus_abab)) = Raise ValueError.
Proof.
  repeat split; vm_compute; reflexivity.
Qed.

(** ** What a call may do to the tables *)

Lemma keys_empty_rows new : Dict.keys (empty_rows new) = new.
Proof.
  unfold Dict.keys, empty_rows. rewrite map_map. simpl. apply map_id.
Qed.

Lemma row_of_empty_rows new prev_word : row_of (empty_rows new) prev_word = [].
Proof.
  unfold row_of. induction new as [|p new IH]; simpl; [reflexivity|].
  destruct (String.eqb p prev_word); [reflexivity | exact IH].
Qed.

Lemma extends_refl s : extends s s.
Proof.
  split; [reflexivity|]. exists []. simpl. rewrite app_nil_r.
  repeat split; [constructor | contradiction].
Qed.

Lemma extends_trans s1 s2 s3 : extends s1 s2 -> extends s2 s3 -> extends s1 s3.
Proof.
  intros [Hu1 (n1 & Hb1 & Hnd1 & Hnew1)] [Hu2 (n2 & Hb2 & Hnd2 & Hnew2)].
  split; [congruence|]. exists (n1 ++ n2).
  assert (Hkeys : forall p, In p n2 ->
            ~ In p (Dict.keys (bigram_counts s1)) /\ ~ In p n1).
  { intros p Hp. specialize (Hnew2 p Hp). rewrite Hb1 in Hnew2.
    unfold Dict.keys in Hnew2. rewrite map_app, in_app_iff in Hnew2.
    fold (Dict.keys (empty_rows n1)) in Hnew2.
    rewrite keys_empty_rows in Hnew2. tauto. }
  repeat split.
  - rewrite Hb2, Hb1. unfold empty_rows. now rewrite map_app, app_assoc.
  - clear - Hnd1 Hnd2 Hkeys. induction n1 as [|p n1 IH]; simpl; [exact Hnd2|].
    inversion Hnd1; subst. constructor.
    + rewrite in_app_iff. intros [H|H]; [contradiction|].
      apply (Hkeys p H). now left.
    + apply IH; [assumption|]. intros q Hq. split; [apply (Hkeys q Hq)|].
      intros Hin. apply (Hkeys q Hq). now right.
  - intros p Hp. apply in_app_iff in Hp as [Hp|Hp];
      [now apply Hnew1 | now apply Hkeys].
Qed.

(** Every count read from the tables is the same after an extension. *)
Lemma extends_row_of s s' prev_word :
  extends s s' ->
  row_of (bigram_counts s') prev_word = row_of (bigram_counts s) prev_word.
Proof.
  intros [_ (new & Hb & _ & _)]. rewrite Hb. unfold row_of at 1 2.
  rewrite find_app. destruct (Dict.find (bigram_counts s) prev_word);
    [reflexivity | apply row_of_empty_rows].
Qed.

Lemma extends_bigram_count s s' prev_word word :
  extends s s' ->
  bigram_count (bigram_counts s') prev_word word =
  bigram_count (bigram_counts s) prev_word word.
Proof.
  intros H. now rewrite !bigram_count_row, (extends_row_of _ _ _ H).
Qed.

Lemma extends_unigram_counts s s' :
  extends s s' -> unigram_counts s' = unigram_counts s.
Proof. now intros [H _]. Qed.

Lemma probe_present s prev_word :
  In prev_word (Dict.keys (bigram_counts s)) -> probe s prev_word = s.
Proof.
  intros Hin. unfold probe, defaultdict_getitem.
  destruct (Dict.find (bigram_counts s) prev_word) eqn:E.
  - now destruct s.
  - apply find_None_keys in E. contradiction.
Qed.

Lemma probe_absent s prev_word :
  ~ In prev_word (Dict.keys (bigram_counts s)) ->
  probe s prev_word =
  mkStore (unigram_counts s) (bigram_counts s ++ [(prev_word, [])]).
Proof.
  intros Hin. apply find_None_keys in Hin. unfold probe, defaultdict_getitem.
  rewrite Hin. simpl. now rewrite (set_missing _ _ _ Hin).
Qed.

Lemma probe_extends s prev_word : extends s (probe s prev_word).
Proof.
  destruct (in_dec string_dec prev_word (Dict.keys (bigram_counts s)))
    as [Hin|Hin].
  - rewrite (probe_present _ _ Hin). apply extends_refl.
  - rewrite (probe_absent _ _ Hin). split; [reflexivity|].
    exists [prev_word]. repeat split.
    + repeat constructor. simpl. tauto.
    + intros p [<-|[]]. exact Hin.
Qed.

Lemma frames_ret {A} (a : A) : frames (ret a).
Proof. intros s. apply extends_refl. Qed.

Lemma frames_raise {A} e : frames (@raise A e).
Proof. intros s. apply extends_refl. Qed.

Lemma frames_bind {A B} (m : M A) (f : A -> M B) :
  frames m -> (forall a, frames (f a)) -> frames (bind m f).
Proof.
  intros Hm Hf s. unfold bind. specialize (Hm s).
  destruct (m s) as [[a|e] s1]; simpl in *; [|exact Hm].
  eapply extends_trans; [exact Hm | apply Hf].
Qed.

Lemma frames_mapM {A B} (f : A -> M B) l :
  (forall a, frames (f a)) -> frames (mapM f l).
Proof.
  intros Hf. induction l as [|a l IH]; simpl; [apply frames_ret|].
  apply frames_bind; [apply Hf|]. intros b.
  apply frames_bind; [exact IH|]. intros bs. apply frames_ret.
Qed.

Lemma frames_the_unigram_counts : frames the_unigram_counts.
Proof. intros s. apply extends_refl. Qed.

Lemma frames_bigram_row prev_word : frames (bigram_row prev_word).
Proof. intros s. rewrite bigram_row_run. apply probe_extends. Qed.

Lemma frames_py_div a b : frames (py_div a b).
Proof. intros s. rewrite py_div_run. apply extends_refl. Qed.

Lemma frames_math_log x : frames (math_log x).
Proof. intros s. rewrite math_log_run. apply extends_refl. Qed.

Lemma frames_prob_div count total_counts : frames (prob_div count total_counts).
Proof.
  unfold prob_div. destruct (total_counts =? 0);
    [apply frames_raise | apply frames_ret].
Qed.

Lemma frames_choice a p u : frames (choice a p u).
Proof.
  unfold choice. destruct a; [apply frames_raise|].
  destruct (negb _); [apply frames_raise|].
  destruct (negb _); [apply frames_raise|].
  destruct (negb _); [apply frames_raise|].
  destruct (searchsorted _ _ _); [apply frames_ret | apply frames_raise].
Qed.

Create HintDb frames.
#[local] Hint Resolve frames_ret frames_raise frames_the_unigram_counts
  frames_bigram_row frames_py_div frames_math_log frames_prob_div
  frames_choice : frames.

Ltac frames_step :=
  first [ apply frames_bind; [| intro]
        | apply frames_mapM; intro
        | solve [auto with frames] ].

Lemma frames_get_log_prob_addk prev_word word k :
  frames (get_log_prob_addk prev_word word k).
Proof. unfold get_log_prob_addk. repeat frames_step. Qed.

Lemma frames_get_log_prob_interp prev_word word start_count token_count lambdas :
  frames (get_log_prob_interp prev_word word start_count token_count lambdas).
Proof.
  unfold get_log_prob_interp. cbv zeta.
  apply frames_bind; [auto with frames | intro row].
  apply frames_bind.
  - destruct (Req_dec_T _ 0); repeat frames_step.
  - intro. repeat frames_step.
Qed.

Lemma frames_get_sent_log_prob_addk sentence start_count token_count k :
  frames (get_sent_log_prob_addk sentence start_count token_count k).
Proof.
  unfold get_sent_log_prob_addk. cbv zeta.
  apply frames_bind; [|intro; apply frames_ret].
  apply frames_mapM. intros [prev_word word]. apply frames_get_log_prob_addk.
Qed.

Lemma frames_get_sent_log_prob_interp sentence start_count token_count lambdas :
  frames (get_sent_log_prob_interp sentence start_count token_count lambdas).
Proof.
  unfold get_sent_log_prob_interp. cbv zeta.
  apply frames_bind; [|intro; apply frames_ret].
  apply frames_mapM. intros [prev_word word]. apply frames_get_log_prob_interp.
Qed.

Lemma frames_generate_loop draws :
  forall current_word sentence,
    frames (generate_loop draws current_word sentence).
Proof.
  induction draws as [|u draws IH]; intros current_word sentence; simpl.
  - destruct (String.eqb current_word END); apply frames_ret.
  - destruct (String.eqb current_word END); [apply frames_ret|].
    apply frames_bind; [auto with frames | intro row].
    apply frames_bind; [apply frames_mapM; intro; auto with frames | intro].
    apply frames_bind; [auto with frames | intro]. apply IH.
Qed.

Lemma frames_generate_sentence draws : frames (generate_sentence draws).
Proof.
  unfold generate_sentence, generate_tokens.
  apply frames_bind; [|intro; apply frames_ret].
  apply frames_bind; [apply frames_generate_loop | intro; apply frames_ret].
Qed.

Section FramesPerplexity.
Context {P : Type}.
Variable smoothing_function : sentence -> Z -> R -> P -> M R.
Variables (start_count : Z) (token_count : R) (parameter : P).
Hypothesis frames_smoothing_function :
  forall sentence,
    frames (smoothing_function sentence start_count token_count parameter).

Lemma frames_perplexity_loop sentences total_log_prob test_token_count :
  frames (perplexity_loop smoothing_function start_count token_count
            parameter sentences total_log_prob test_token_count).
Proof.
  revert total_log_prob test_token_count.
  induction sentences as [|x rest IH]; intros total count; simpl;
    [apply frames_ret|].
  apply frames_bind; [apply frames_smoothing_function | intro; apply IH].
Qed.

Lemma frames_calculate_perplexity sentences :
  frames (calculate_perplexity smoothing_function start_count token_count
            parameter sentences).
Proof.
  unfold calculate_perplexity.
  apply frames_bind; [apply frames_perplexity_loop|].
  intros [total count]. apply frames_bind; [auto with frames|].
  intro. apply frames_ret.
Qed.
End FramesPerplexity.

(** ** The interpolated estimator *)

Lemma get_log_prob_interp_run prev_word word start_count token_count lambdas s :
  get_log_prob_interp prev_word word start_count token_count lambdas s =
  (let U := unigram_counts s in
   let B := bigram_counts s in
   let product := (IZR (bigram_count B prev_word word) * fst lambdas)%R in
   let mix := mixture U B start_count token_count prev_word word lambdas in
   if Req_dec_T product 0 then
     if Req_dec_T token_count 0 then Raise ZeroDivisionError
     else if Req_dec_T (IZR (Dict.len U)) 0 then Raise ZeroDivisionError
     else if Rlt_dec 0 mix then Ret (ln mix) else Raise ValueError
   else if Req_dec_T (IZR (conditioning_count U start_count prev_word)) 0
     then Raise ZeroDivisionError
   else if Req_dec_T token_count 0 then Raise ZeroDivisionError
   else if Req_dec_T (IZR (Dict.len U)) 0 then Raise ZeroDivisionError
   else if Rlt_dec 0 mix then Ret (ln mix) else Raise ValueError,
   probe s prev_word).
Proof.
  unfold get_log_prob_interp, mixture, bigramTerm, unigramTerm, zerogramTerm.
  unfold bind at 1. rewrite bigram_row_run, <- bigram_count_row. cbv zeta.
  unfold conditioning_count.
  destruct (Req_dec_T (IZR (bigram_count _ _ _) * _) 0) as [Hz|Hnz].
  - unfold bind, ret, the_unigram_counts. rewrite !py_div_run.
    rewrite probe_unigram_counts.
    destruct (Req_dec_T token_count 0); [reflexivity|].
    destruct (Req_dec_T (IZR _) 0); [reflexivity|]. now rewrite math_log_run.
  - unfold bind, ret, the_unigram_counts. rewrite !py_div_run.
    rewrite probe_unigram_counts.
    destruct (Req_dec_T (IZR _) 0); [reflexivity|]. rewrite ?py_div_run.
    destruct (Req_dec_T token_count 0); [reflexivity|].
    destruct (Req_dec_T (IZR _) 0); [reflexivity|]. now rewrite math_log_run.
Qed.

Lemma trained_tables sentences :
  trained sentences =
  mkStore (fold_left Counter_incr (unigram_tokens sentences) [])
          (fold_left defaultdict_incr (corpus_bigrams sentences) []).
Proof.
  unfold trained, get_counts.
  now rewrite count_unigrams_flat, count_bigrams_flat.
Qed.

(** Evaluation of the integer reads of a closed goal, and of the tests on
    real numbers that follow from linear arithmetic. *)
Ltac eval_tables :=
  rewrite ?trained_tables;
  repeat match goal with
    | |- context [fold_left Counter_incr ?l ?c] =>
        let v := eval vm_compute in (fold_left Counter_incr l c) in
        change (fold_left Counter_incr l c) with v
    | |- context [fold_left defaultdict_incr ?l ?c] =>
        let v := eval vm_compute in (fold_left defaultdict_incr l c) in
        change (fold_left defaultdict_incr l c) with v
    end.

Ltac eval_counts :=
  cbn [fst snd unigram_counts bigram_counts];
  repeat match goal with
    | |- context [bigram_count ?B ?p ?w] =>
        let v := eval vm_compute in (bigram_count B p w) in
        change (bigram_count B p w) with v
    | |- context [conditioning_count ?U ?c ?p] =>
        let v := eval vm_compute in (conditioning_count U c p) in
        change (conditioning_count U c p) with v
    | |- context [Counter_get ?U ?p] =>
        let v := eval vm_compute in (Counter_get U p) in
        change (Counter_get U p) with v
    | |- context [Dict.len ?U] =>
        let v := eval vm_compute in (Dict.len U) in
        change (Dict.len U) with v
    | |- context [probe ?s ?p] =>
        let v := eval vm_compute in (probe s p) in
        change (probe s p) with v
    end.

Ltac decide_reals :=
  repeat match goal with
    | |- context [Req_dec_T ?a ?b] =>
        destruct (Req_dec_T a b); try (exfalso; lra)
    | |- context [Rlt_dec ?a ?b] =>
        destruct (Rlt_dec a b); try (exfalso; lra)
    end.

(** The interpolated estimator returns the logarithm of the mixture on
    exactly the inputs on which none of its divisions is by zero and the
    mixture is positive. *)
Lemma get_log_prob_interp_returns (s : store) prev_word word
    (start_count : Z) (token_count : R) (lambdas : R * R) :
  (0 < token_count)%R ->
  0 < Dict.len (unigram_counts s) ->
  ((IZR (bigram_count (bigram_counts s) prev_word word) * fst lambdas)%R
   <> 0%R ->
   conditioning_count (unigram_counts s) start_count prev_word <> 0) ->
  (0 < mixture (unigram_counts s) (bigram_counts s) start_count token_count
         prev_word word lambdas)%R ->
  fst (get_log_prob_interp prev_word word start_count token_count lambdas s) =
  Ret (ln (mixture (unigram_counts s) (bigram_counts s) start_count
             token_count prev_word word lambdas)).
Proof.
  intros Htc Hlen Hcond Hmix.
  assert (Hv : IZR (Dict.len (unigram_counts s)) <> 0%R).
  { apply not_0_IZR. lia. }
  rewrite get_log_prob_interp_run. cbn [fst]. cbv zeta.
  destruct (Req_dec_T (IZR (bigram_count _ _ _) * _) 0) as [Hz|Hnz].
  - destruct (Req_dec_T token_count 0); [lra|].
    destruct (Req_dec_T (IZR (Dict.len _)) 0); [contradiction|].
    destruct (Rlt_dec 0 _); [reflexivity | contradiction].
  - destruct (Req_dec_T (IZR (conditioning_count _ _ _)) 0) as [E|_].
    { apply eq_IZR_R0 in E. now apply Hcond in E. }
    destruct (Req_dec_T token_count 0); [lra|].
    destruct (Req_dec_T (IZR (Dict.len _)) 0); [contradiction|].
    destruct (Rlt_dec 0 _); [reflexivity | contradiction].
Qed.

(** *** In binary64 *)

Lemma Binary64_get_log_prob_interp_run libm prev_word word start_count
    token_count lambdas s :
  Binary64.get_log_prob_interp libm prev_word word start_count token_count
    lambdas s =
  (let U := unigram_counts s in
   let B := bigram_counts s in
   let c := Binary64.int_to_float (bigram_count B prev_word word) in
   let product := Rounded.product B prev_word word (fst lambdas) in
   let d := Binary64.int_to_float
              (conditioning_count U start_count prev_word) in
   let cw := Binary64.int_to_float (Counter_get U word) in
   let v := Binary64.int_to_float (Dict.len U) in
   if is_infinity c then Raise OverflowError
   else if negb (product =? 0)%float && is_infinity d then Raise OverflowError
   else if negb (product =? 0)%float && (d =? 0)%float
     then Raise ZeroDivisionError
   else if is_infinity cw then Raise OverflowError
   else if (token_count =? 0)%float then Raise ZeroDivisionError
   else if is_infinity v then Raise OverflowError
   else if (v =? 0)%float then Raise ZeroDivisionError
   else Binary64.math_log libm
          (Rounded.mixture U B start_count token_count prev_word word lambdas),
   probe s prev_word).
Proof.
  unfold Binary64.get_log_prob_interp, Rounded.mixture, Rounded.bigramTerm,
    Rounded.unigramTerm, Rounded.zerogramTerm, Rounded.product.
  unfold bind at 1. rewrite bigram_row_run, <- bigram_count_row. cbv zeta.
  unfold conditioning_count, Binary64.lift, the_unigram_counts, bind, ret,
    Binary64.float_of_int, Binary64.py_div.
  cbv zeta. rewrite ?probe_unigram_counts.
  destruct (is_infinity (Binary64.int_to_float (bigram_count _ _ _)));
    [reflexivity|].
  destruct (_ * fst lambdas =? 0)%float;
    repeat (cbv beta iota; rewrite ?probe_unigram_counts; cbn [negb andb];
            match goal with
            | |- context [is_infinity ?x] => destruct (is_infinity x)
            | |- context [(?x =? 0)%float] => destruct (x =? 0)%float
            end; try reflexivity).
Qed.

(** A finite mixture: no conversion of a count has overflowed and no
    division was by zero. *)
Lemma mixture_finite (U : Counter) (B : defaultdict) (start_count : Z)
    (token_count bigramWeight unigramWeight : float) prev_word word :
  is_finite (Rounded.mixture U B start_count token_count prev_word word
               (bigramWeight, unigramWeight)) = true ->
  is_infinity (Binary64.int_to_float (bigram_count B prev_word word)) = false
  /\ ((Rounded.product B prev_word word bigramWeight =? 0)%float = false ->
      (Binary64.int_to_float
         (conditioning_count U start_count prev_word) =? 0)%float = false)
  /\ is_infinity (Binary64.int_to_float (Counter_get U word)) = false
  /\ (token_count =? 0)%float = false
  /\ (Binary64.int_to_float (Dict.len U) =? 0)%float = false.
Proof.
  unfold Rounded.mixture, Rounded.bigramTerm, Rounded.unigramTerm,
    Rounded.zerogramTerm. cbn [fst snd]. intros Hmix.
  apply add_finite in Hmix as [Hbu Hz].
  apply add_finite in Hbu as [Hb Hu].
  apply mul_finite in Hz as [Hz _]. apply div_finite in Hz as [_ Hv].
  apply mul_finite in Hu as [Hu _]. apply div_finite in Hu as [Hcw Htc].
  split; [|split; [|split; [|split]]]; try assumption.
  - destruct (Rounded.product B prev_word word bigramWeight =? 0)%float eqn:Ep.
    + unfold Rounded.product in Ep.
      now apply is_finite_not_infinity, (mul_zero_finite _ bigramWeight).
    + apply div_finite in Hb as [Hp _]. unfold Rounded.product in Hp.
      apply mul_finite in Hp as [Hc _]. now apply is_finite_not_infinity.
  - intros Ep. rewrite Ep in Hb. now apply div_finite in Hb as [_ Hd].
  - now apply is_finite_not_infinity.
Qed.

Lemma int_to_float_nonzero n :
  (Binary64.int_to_float n =? 0)%float = false -> n <> 0.
Proof. intros H ->. rewrite int_to_float_0 in H. discriminate. Qed.

(** C2, as amended.  The interpolated estimator evaluates bigramTerm +
    unigramTerm + zerogramTerm in binary64 arithmetic, the counts and sizes
    converted to floats and 1 - bigramWeight - unigramWeight rounded as
    every other operation.  When the sum so computed is positive and finite
    the call returns [math.log] of it; such a sum entails a vocabulary that
    is not empty, a TokenCount that is not zero and, when the product
    BigramCounts[prev][word] * bigramWeight is not zero, a conditioning
    count that is not zero.  The bigram term is zero when the product is
    zero, and otherwise the product divided by StartCount for prev = START
    and by UnigramCounts[prev] for any other prev; the unigram term is
    (UnigramCounts[word] / TokenCount) * unigramWeight; the zerogram term
    is (1 / VocabularySize) * (1 - bigramWeight - unigramWeight). *)
Theorem get_log_prob_interp_spec (libm : Binary64.Libm) (s : store)
    prev_word word (start_count : Z)
    (token_count bigramWeight unigramWeight : float) :
  let U := unigram_counts s in
  let B := bigram_counts s in
  let of_int := Binary64.int_to_float in
  let product := (of_int (bigram_count B prev_word word) * bigramWeight)%float in
  let b := Rounded.bigramTerm U B start_count prev_word word bigramWeight in
  let u := Rounded.unigramTerm U token_count word unigramWeight in
  let z := Rounded.zerogramTerm U bigramWeight unigramWeight in
  convertible (Dict.len U) ->
  ((product =? 0)%float = false ->
   convertible (conditioning_count U start_count prev_word)) ->
  (0 <? b + u + z)%float = true ->
  is_finite (b + u + z)%float = true ->
  is_finite (Binary64.libm_log libm (b + u + z)%float) = true ->
  fst (Binary64.get_log_prob_interp libm prev_word word start_count
         token_count (bigramWeight, unigramWeight) s) =
    Ret (Binary64.libm_log libm (b + u + z)%float)
  /\ (Dict.len U <> 0
      /\ (token_count =? 0)%float = false
      /\ ((product =? 0)%float = false ->
          conditioning_count U start_count prev_word <> 0))
  /\ ((product =? 0)%float = true -> b = 0%float)
  /\ ((product =? 0)%float = false -> prev_word = START ->
      b = (product / of_int start_count)%float)
  /\ ((product =? 0)%float = false -> prev_word <> START ->
      b = (product / of_int (Counter_get U prev_word))%float)
  /\ u = (of_int (Counter_get U word) / token_count * unigramWeight)%float
  /\ z = (1 / of_int (Dict.len U) * (1 - bigramWeight - unigramWeight))%float.
Proof.
  intros U B of_int product b u z Hv Hd Hpos Hfin Hlog.
  change (b + u + z)%float
    with (Rounded.mixture U B start_count token_count prev_word word
            (bigramWeight, unigramWeight)) in *.
  destruct (mixture_finite U B start_count token_count bigramWeight
              unigramWeight prev_word word Hfin)
    as (Hc & Hd0 & Hcw & Htc & Hv0).
  change (Rounded.product B prev_word word bigramWeight) with product in Hd0.
  split; [|split; [|split; [|split; [|split; [|split]]]]].
  - rewrite Binary64_get_log_prob_interp_run. cbn [fst]. cbv zeta.
    fold U B. cbn [fst snd].
    change (Rounded.product B prev_word word bigramWeight) with product.
    rewrite Hc, Hcw, Htc, Hv0. unfold convertible in Hv, Hd. rewrite Hv.
    destruct (product =? 0)%float eqn:Ep; cbn [negb andb].
    + now apply math_log_positive.
    + rewrite (Hd eq_refl), (Hd0 eq_refl). now apply math_log_positive.
  - split; [|split].
    + now apply int_to_float_nonzero.
    + exact Htc.
    + intros Ep. now apply int_to_float_nonzero, Hd0.
  - intros Ep. unfold b, Rounded.bigramTerm.
    change (Rounded.product B prev_word word bigramWeight) with product.
    now rewrite Ep.
  - intros Ep ->. unfold b, Rounded.bigramTerm, conditioning_count.
    change (Rounded.product B START word bigramWeight) with product.
    now rewrite Ep.
  - intros Ep Hne. unfold b, Rounded.bigramTerm, conditioning_count.
    change (Rounded.product B prev_word word bigramWeight) with product.
    rewrite Ep. now destruct (String.eqb_spec prev_word START).
  - reflexivity.
  - reflexivity.
Qed.

Lemma get_log_prob_interp_spec_witness :
  fst (Binary64.get_log_prob_interp example_libm "a" "b" 1 3
         (0.5, 0.25)%float
         (mkStore [("a", 1); ("b", 1); ("</s>", 1)]
            [("<s>", [("a", 1)]); ("a", [("b", 1)]); ("b", [("</s>", 1)])])) =
  Ret (Binary64.libm_log example_libm
         (1 * 0.5 / 1 + 1 / 3 * 0.25 + 1 / 3 * (1 - 0.5 - 0.25))%float).
Proof.
  refine (proj1 (get_log_prob_interp_spec example_libm
                   (mkStore [("a", 1); ("b", 1); ("</s>", 1)]
                      [("<s>", [("a", 1)]); ("a", [("b", 1)]);
                       ("b", [("</s>", 1)])])
                   "a" "b" 1 3%float 0.5%float 0.25%float _ _ _ _ _)).
  - vm_compute. reflexivity.
  - intros _. vm_compute. reflexivity.
  - vm_compute. reflexivity.
  - vm_compute. reflexivity.
  - vm_compute. reflexivity.
Defined.

(** C2 fails as stated: with TokenCount > 0 and weights that sum to at
    most one the estimator raises instead of returning a logarithm when the
    vocabulary is empty, when the mixture is zero (weights 1 and 0 on an
    unseen pair), when the conditioning count of a seen bigram is zero, and
    when 1 - bigramWeight - unigramWeight rounds to 0.0 although the weights
    3 * 2^-55 and 1 - 2^-53 sum to less than one. *)
Lemma get_log_prob_interp_raises :
  fst (Binary64.get_log_prob_interp example_libm "a" "b" 1 1
         (0.5, 0.25)%float (mkStore [] [])) = Raise ZeroDivisionError
  /\ fst (Binary64.get_log_prob_interp example_libm "b" "a" 1 3
            (1, 0)%float (trained corpus_ab)) = Raise ValueError
  /\ fst (Binary64.get_log_prob_interp example_libm "<s>" "a" 0 3
            (0.5, 0.25)%float (trained corpus_ab)) = Raise ZeroDivisionError
  /\ fst (Binary64.get_log_prob_interp example_libm "a" "zebra" 1 3
            (0x1.8p-54, 0x1.fffffffffffffp-1)%float (trained corpus_ab)) =
     Raise ValueError.
Proof.
  repeat split; vm_compute; reflexivity.
Qed.

(** ** The sentence scorers *)

Lemma readable_extends s s' : readable s -> extends s s' -> readable s'.
Proof.
  intros (Hok & Hlen & Hb) Hext. unfold readable.
  rewrite (extends_unigram_counts _ _ Hext).
  split; [assumption | split; [assumption|]].
  intros p w. rewrite (extends_bigram_count _ _ _ _ Hext). apply Hb.
Qed.

Lemma readable_trained sentences : sentences <> [] -> readable (trained sentences).
Proof.
  intros Hne. unfold trained.
  destruct (get_counts sentences) as [[[U B] sc] tc] eqn:Hc.
  cbn [unigram_counts bigram_counts]. split; [|split].
  - apply (collected_Counter_ok _ _ _ _ _ Hc).
  - apply (collected_vocabulary _ _ _ _ _ Hc Hne).
  - intros p w. rewrite bigram_count_row.
    apply Counter_get_nonneg, row_of_ok, (collected_rows_ok _ _ _ _ _ Hc).
Qed.

Lemma addk_prob_extends s s' prev_word word k :
  extends s s' ->
  addk_prob (unigram_counts s') (bigram_counts s') prev_word word k =
  addk_prob (unigram_counts s) (bigram_counts s) prev_word word k.
Proof.
  intros Hext. unfold addk_prob.
  now rewrite (extends_unigram_counts _ _ Hext),
    (extends_bigram_count _ _ _ _ Hext).
Qed.

Lemma readable_addk_prob_pos s prev_word word k :
  readable s -> (0 < k)%R ->
  (0 < addk_prob (unigram_counts s) (bigram_counts s) prev_word word k)%R.
Proof.
  intros (Hok & Hlen & Hb) Hk. unfold addk_prob.
  apply Rdiv_lt_0_compat; [|now apply addk_denominator_pos].
  pose proof (IZR_le _ _ (Hb prev_word word)). lra.
Qed.

Lemma get_log_prob_addk_readable prev_word word k s :
  readable s -> (0 < k)%R ->
  get_log_prob_addk prev_word word k s =
  (Ret (ln (addk_prob (unigram_counts s) (bigram_counts s) prev_word word k)),
   probe s prev_word).
Proof.
  intros Hr Hk. rewrite get_log_prob_addk_run. cbv zeta.
  pose proof (readable_addk_prob_pos s prev_word word k Hr Hk) as Hp.
  destruct Hr as (Hok & Hlen & _).
  pose proof (addk_denominator_pos _ prev_word k Hok Hlen Hk).
  destruct (Req_dec_T _ 0); [lra|].
  destruct (Rlt_dec 0 _); [reflexivity | contradiction].
Qed.

Lemma fold_probe_extends prevs s : extends s (fold_left probe prevs s).
Proof.
  revert s. induction prevs as [|p prevs IH]; intros s; simpl.
  - apply extends_refl.
  - eapply extends_trans; [apply probe_extends | apply IH].
Qed.

Lemma mapM_addk_run k bigrams s :
  readable s -> (0 < k)%R ->
  mapM (fun bigram : token * token =>
          let (prev_word, word) := bigram in
          get_log_prob_addk prev_word word k) bigrams s =
  (Ret (addk_log_probs s k bigrams), fold_left probe (map fst bigrams) s).
Proof.
  intros Hr Hk. revert s Hr.
  induction bigrams as [|[p w] l IH]; intros s Hr; [reflexivity|].
  cbn [mapM map fold_left fst]. unfold bind at 1.
  rewrite (get_log_prob_addk_readable _ _ _ _ Hr Hk).
  unfold bind at 1.
  rewrite (IH _ (readable_extends _ _ Hr (probe_extends s p))).
  unfold ret, addk_log_probs. cbn [map fst snd]. do 3 f_equal.
  apply map_ext. intros [p' w']. cbn [fst snd].
  now rewrite (addk_prob_extends _ _ _ _ _ (probe_extends s p)).
Qed.

Lemma get_sent_log_prob_addk_run sentence start_count token_count k s :
  readable s -> (0 < k)%R ->
  get_sent_log_prob_addk sentence start_count token_count k s =
  (Ret (fsum (addk_log_probs s k (bigram_list (convert_sentence sentence)))),
   fold_left probe (map fst (bigram_list (convert_sentence sentence))) s).
Proof.
  intros Hr Hk. unfold get_sent_log_prob_addk. cbv zeta. unfold bind.
  now rewrite (mapM_addk_run _ _ _ Hr Hk).
Qed.

(** C3 does not hold of the code.  Trained on three sentences ["a"], the
    Add-k scorer with k = 1 gives the sentence ["a"] the score
    ln 2 + ln (4/5): the pair (START, a) gets (3 + 1) / (0 + 1 * 2) = 2
    because UnigramCounts[START] is zero, so exp(score) = 8/5 > 1. *)
Theorem get_sent_log_prob_addk_exceeds_one :
  exists score,
    fst (get_sent_log_prob_addk ["a"] 3 6 1 (trained corpus_aaa)) = Ret score
    /\ exp score = (8 / 5)%R
    /\ (1 < exp score)%R.
Proof.
  assert (Hr : readable (trained corpus_aaa)) by (apply readable_trained; discriminate).
  exists (ln 2 + ln (4 / 5))%R. split; [|split].
  - rewrite (get_sent_log_prob_addk_run _ _ _ _ _ Hr) by lra.
    cbn [fst]. f_equal. unfold corpus_aaa.
    change (bigram_list (convert_sentence ["a"]))
      with [("<s>", "a"); ("a", "</s>")].
    unfold addk_log_probs, fsum, addk_prob. cbn [map fold_left fst snd].
    eval_tables. eval_counts.
    replace ((3 + 1) / (0 + 1 * 2))%R with 2%R by lra.
    replace ((3 + 1) / (3 + 1 * 2))%R with (4 / 5)%R by lra.
    lra.
  - rewrite exp_plus, !exp_ln; lra.
  - rewrite exp_plus, !exp_ln; lra.
Qed.

(** ** The perplexity evaluator *)

Lemma fold_left_Zadd l a : fold_left Z.add l a = a + fold_left Z.add l 0.
Proof.
  revert a. induction l as [|x l IH]; intros a; simpl; [lia|].
  rewrite (IH (a + x)), (IH x). lia.
Qed.

Lemma fold_left_Rplus l a :
  fold_left Rplus l a = (a + fold_left Rplus l 0)%R.
Proof.
  revert a. induction l as [|x l IH]; intros a; simpl; [lra|].
  rewrite (IH (a + x)%R), (IH (0 + x)%R). lra.
Qed.

Lemma totalTokenCount_cons sentence rest :
  totalTokenCount (sentence :: rest) =
  Z.of_nat (length sentence) + 1 + totalTokenCount rest.
Proof.
  unfold totalTokenCount, sum. simpl. now rewrite fold_left_Zadd.
Qed.

Lemma totalTokenCount_nonneg sentences : 0 <= totalTokenCount sentences.
Proof.
  induction sentences as [|x rest IH]; [unfold totalTokenCount, sum; simpl; lia|].
  rewrite totalTokenCount_cons. lia.
Qed.

Section PerplexityFacts.
Context {P : Type}.
Variable smoothing_function : sentence -> Z -> R -> P -> M R.
Variables (start_count : Z) (token_count : R) (parameter : P).

Local Abbreviation scores_of :=
  (sentence_scores smoothing_function start_count token_count parameter).

Lemma perplexity_loop_run sentences :
  forall total_log_prob test_token_count s scores s',
    scores_of sentences s = (Ret scores, s') ->
    perplexity_loop smoothing_function start_count token_count parameter
      sentences total_log_prob test_token_count s =
    (Ret ((total_log_prob + fsum scores)%R,
          test_token_count + totalTokenCount sentences), s').
Proof.
  induction sentences as [|x rest IH];
    intros total count s scores s' Hrun.
  - inversion Hrun; subst. unfold ret, fsum, totalTokenCount, sum. simpl.
    now rewrite Rplus_0_r, Z.add_0_r.
  - cbn [perplexity_loop]. unfold sentence_scores in Hrun.
    cbn [mapM] in Hrun. unfold bind in Hrun |- *.
    destruct (smoothing_function x start_count token_count parameter s)
      as [[lp|e] s1]; [|discriminate].
    fold (sentence_scores smoothing_function start_count token_count parameter rest) in Hrun.
    destruct (scores_of rest s1) as [[lps|e] s2] eqn:Hrest;
      [|discriminate].
    inversion Hrun; subst.
    rewrite (IH _ _ _ _ _ Hrest), totalTokenCount_cons.
    unfold fsum. simpl. rewrite (fold_left_Rplus lps (0 + lp)%R).
    rewrite Rplus_0_l, Rplus_assoc, !Z.add_assoc. reflexivity.
Qed.

Lemma perplexity_loop_raise sentences :
  forall total_log_prob test_token_count s e s',
    scores_of sentences s = (Raise e, s') ->
    perplexity_loop smoothing_function start_count token_count parameter
      sentences total_log_prob test_token_count s = (Raise e, s').
Proof.
  induction sentences as [|x rest IH]; intros total count s e s' Hrun.
  - discriminate.
  - cbn [perplexity_loop]. unfold sentence_scores in Hrun.
    cbn [mapM] in Hrun. unfold bind in Hrun |- *.
    destruct (smoothing_function x start_count token_count parameter s)
      as [[lp|e1] s1]; [|now inversion Hrun].
    fold (sentence_scores smoothing_function start_count token_count parameter rest) in Hrun.
    destruct (scores_of rest s1) as [[lps|e2] s2] eqn:Hrest;
      [discriminate|].
    inversion Hrun; subst. now apply IH.
Qed.

(** On the empty test corpus the evaluator divides zero by zero. *)
Lemma calculate_perplexity_nil s :
  calculate_perplexity smoothing_function start_count token_count parameter
    [] s = (Raise ZeroDivisionError, s).
Proof.
  unfold calculate_perplexity, bind. cbn [perplexity_loop]. unfold ret.
  rewrite py_div_run. destruct (Req_dec_T 0 0); [reflexivity | lra].
Qed.
End PerplexityFacts.

Section Binary64PerplexityFacts.
Context {P : Type}.
Variable smoothing_function : sentence -> Z -> float -> P -> M float.
Variables (start_count : Z) (token_count : float) (parameter : P).

Local Abbreviation float_scores_of :=
  (Rounded.sentence_scores smoothing_function start_count token_count
     parameter).

Lemma Binary64_perplexity_loop_run sentences :
  forall total_log_prob test_token_count s scores s',
    float_scores_of sentences s = (Ret scores, s') ->
    Binary64.perplexity_loop smoothing_function start_count token_count
      parameter sentences total_log_prob test_token_count s =
    (Ret (fold_left PrimFloat.add scores total_log_prob,
          test_token_count + totalTokenCount sentences), s').
Proof.
  induction sentences as [|x rest IH];
    intros total count s scores s' Hrun.
  - inversion Hrun; subst. unfold ret, totalTokenCount, sum. simpl.
    now rewrite Z.add_0_r.
  - cbn [Binary64.perplexity_loop]. unfold Rounded.sentence_scores in Hrun.
    cbn [mapM] in Hrun. unfold bind in Hrun |- *.
    destruct (smoothing_function x start_count token_count parameter s)
      as [[lp|e] s1]; [|discriminate].
    fold (Rounded.sentence_scores smoothing_function start_count token_count
            parameter rest) in Hrun.
    destruct (float_scores_of rest s1) as [[lps|e] s2] eqn:Hrest;
      [|discriminate].
    inversion Hrun; subst.
    rewrite (IH _ _ _ _ _ Hrest), totalTokenCount_cons.
    cbn [fold_left]. now rewrite !Z.add_assoc.
Qed.

Lemma Binary64_perplexity_loop_raise sentences :
  forall total_log_prob test_token_count s e s',
    float_scores_of sentences s = (Raise e, s') ->
    Binary64.perplexity_loop smoothing_function start_count token_count
      parameter sentences total_log_prob test_token_count s = (Raise e, s').
Proof.
  induction sentences as [|x rest IH]; intros total count s e s' Hrun.
  - discriminate.
  - cbn [Binary64.perplexity_loop]. unfold Rounded.sentence_scores in Hrun.
    cbn [mapM] in Hrun. unfold bind in Hrun |- *.
    destruct (smoothing_function x start_count token_count parameter s)
      as [[lp|e1] s1]; [|now inversion Hrun].
    fold (Rounded.sentence_scores smoothing_function start_count token_count
            parameter rest) in Hrun.
    destruct (float_scores_of rest s1) as [[lps|e2] s2] eqn:Hrest;
      [discriminate|].
    inversion Hrun; subst. now apply IH.
Qed.
End Binary64PerplexityFacts.

Lemma totalTokenCount_positive sentences :
  sentences <> [] -> 0 < totalTokenCount sentences.
Proof.
  destruct sentences as [|x rest]; [congruence|]. intros _.
  rewrite totalTokenCount_cons. pose proof (totalTokenCount_nonneg rest). lia.
Qed.

Lemma math_exp_finite libm x :
  is_finite (Binary64.libm_exp libm x) = true ->
  Binary64.math_exp libm x = Ret (Binary64.libm_exp libm x).
Proof.
  intros H. unfold Binary64.math_exp, Binary64.math_1. cbv zeta.
  now rewrite (is_finite_not_nan _ H), (is_finite_not_infinity _ H).
Qed.

Lemma math_exp_overflow libm x :
  is_infinity (Binary64.libm_exp libm x) = true -> is_finite x = true ->
  Binary64.math_exp libm x = Raise OverflowError.
Proof.
  intros H Hx. unfold Binary64.math_exp, Binary64.math_1. cbv zeta.
  rewrite H, Hx.
  assert (Hn : is_nan (Binary64.libm_exp libm x) = false).
  { rewrite is_infinity_spec in H. rewrite is_nan_spec.
    now destruct (Prim2SF (Binary64.libm_exp libm x)). }
  now rewrite Hn.
Qed.

Lemma math_exp_invalid libm x :
  is_nan (Binary64.libm_exp libm x) = true -> is_nan x = false ->
  Binary64.math_exp libm x = Raise ValueError.
Proof.
  intros H Hx. unfold Binary64.math_exp, Binary64.math_1. cbv zeta.
  now rewrite H, Hx.
Qed.

(** C5, as amended.  On a test corpus of fewer than 2^63 tokens, for every
    scorer and parameter: when the scorer raises on a test sentence the
    evaluator raises the same exception; otherwise, with
    totalLogProbability the binary64 sum of the sentence scores (added from
    the left, from 0.0) and totalTokenCount the sum of length(sentence) + 1
    over the test sentences, the evaluator raises ZeroDivisionError on the
    empty test corpus, and on any other it applies [math.exp] to
    x = -totalLogProbability / totalTokenCount: it returns exp(x) when that
    is finite, raises OverflowError when exp(x) is infinite for a finite x,
    and ValueError when exp(x) is not a number although x is one. *)
Theorem calculate_perplexity_spec (libm : Binary64.Libm) {P : Type}
    (smoothing_function : sentence -> Z -> float -> P -> M float)
    (start_count : Z) (token_count : float) (parameter : P)
    (sentences : list sentence) (s : store) :
  totalTokenCount sentences < 2 ^ 63 ->
  let result :=
    Binary64.calculate_perplexity libm smoothing_function start_count
      token_count parameter sentences s in
  match
    Rounded.sentence_scores smoothing_function start_count token_count
      parameter sentences s
  with
  | (Raise e, s') => result = (Raise e, s')
  | (Ret scores, s') =>
      let x := Rounded.exponent scores sentences in
      let y := Binary64.libm_exp libm x in
      (sentences = [] -> result = (Raise ZeroDivisionError, s'))
      /\ (sentences <> [] ->
          result = (Binary64.math_exp libm x, s')
          /\ (is_finite y = true -> result = (Ret y, s'))
          /\ (is_infinity y = true -> is_finite x = true ->
              result = (Raise OverflowError, s'))
          /\ (is_nan y = true -> is_nan x = false ->
              result = (Raise ValueError, s')))
  end.
Proof.
  intros Hsmall result.
  destruct (Rounded.sentence_scores smoothing_function start_count
              token_count parameter sentences s) as [[scores|e] s'] eqn:Hrun.
  - assert (Hloop :
      result =
      (match Binary64.float_of_int (totalTokenCount sentences) with
       | Ret n =>
           match Binary64.py_div (- Binary64.fsum scores) n with
           | Ret q => Binary64.math_exp libm q
           | Raise e => Raise e
           end
       | Raise e => Raise e
       end, s')).
    { unfold result, Binary64.calculate_perplexity. unfold bind at 1.
      rewrite (Binary64_perplexity_loop_run _ _ _ _ _ _ _ _ _ _ Hrun).
      rewrite Z.add_0_l. unfold bind, Binary64.lift, Binary64.fsum.
      destruct (Binary64.float_of_int _); [|reflexivity].
      now destruct (Binary64.py_div _ _). }
    cbv zeta. split.
    + intros ->. rewrite Hloop. reflexivity.
    + intros Hne.
      destruct (int_to_float_positive (totalTokenCount sentences))
        as (Hconv & _ & Hnz & _).
      { split; [now apply totalTokenCount_positive | assumption]. }
      assert (Hexp : result =
                     (Binary64.math_exp libm
                        (Rounded.exponent scores sentences), s')).
      { rewrite Hloop, float_of_int_run. unfold convertible in Hconv.
        rewrite Hconv. unfold Binary64.py_div. now rewrite Hnz. }
      split; [exact Hexp|]. rewrite Hexp. split; [|split].
      * intros Hy. now rewrite math_exp_finite.
      * intros Hy Hx. now rewrite math_exp_overflow.
      * intros Hy Hx. now rewrite math_exp_invalid.
  - unfold result, Binary64.calculate_perplexity. unfold bind at 1.
    now rewrite (Binary64_perplexity_loop_raise _ _ _ _ _ _ _ _ _ _ Hrun).
Qed.

Lemma calculate_perplexity_spec_witness :
  Binary64.calculate_perplexity example_libm
    (Binary64.get_sent_log_prob_addk example_libm) 1 3 1%float [["a"; "b"]]
    (trained corpus_ab) =
  (Binary64.math_exp example_libm
     (Rounded.exponent
        [Binary64.fsum
           [Binary64.libm_log example_libm ((1 + 1) / (0 + 1 * 3));
            Binary64.libm_log example_libm ((1 + 1) / (1 + 1 * 3));
            Binary64.libm_log example_libm ((1 + 1) / (1 + 1 * 3))]]
        [["a"; "b"]]),
   trained corpus_ab).
Proof.
  refine (proj1 (proj2 (calculate_perplexity_spec example_libm
                          (Binary64.get_sent_log_prob_addk example_libm)
                          1 3%float 1%float [["a"; "b"]] (trained corpus_ab)
                          _) _)).
  - vm_compute. reflexivity.
  - discriminate.
Defined.

(** C5 fails as stated: on the empty test corpus the evaluator raises
    ZeroDivisionError; it raises when the chosen scorer does, as the
    interpolated scorer with weights (1, 0) on an unseen bigram; and with
    k = 5e-324 on the test sentence of a hundred b the average
    log-probability is about -730 per token and [math.exp] overflows. *)
Lemma calculate_perplexity_raises :
  fst (Binary64.calculate_perplexity example_libm
         (Binary64.get_sent_log_prob_addk example_libm) 1 3 1%float []
         (trained corpus_ab)) = Raise ZeroDivisionError
  /\ fst (Binary64.calculate_perplexity example_libm
            (Binary64.get_sent_log_prob_interp example_libm) 1 3
            (1, 0)%float [["b"; "a"]] (trained corpus_ab)) = Raise ValueError
  /\ fst (Binary64.calculate_perplexity example_libm
            (Binary64.get_sent_log_prob_addk example_libm) 1 3 0x1p-1074%float
            [repeat "b" 100] (trained corpus_ab)) = Raise OverflowError.
Proof.
  repeat split; vm_compute; reflexivity.
Qed.

(** ** The round trip on one sentence *)

(** C6. [get_counts] on the corpus of the single sentence ["a", "b"] returns
    UnigramCounts {a:1, b:1, </s>:1}, BigramCounts {<s>:{a:1}, a:{b:1},
    b:{</s>:1}}, StartCount 1 and TokenCount 3; START is not a key of
    UnigramCounts and END is counted once. *)
Theorem get_counts_a_b :
  get_counts [["a"; "b"]] =
  ([("a", 1); ("b", 1); ("</s>", 1)],
   [("<s>", [("a", 1)]); ("a", [("b", 1)]); ("b", [("</s>", 1)])],
   1, 3%R)
  /\ Dict.find (unigram_counts (trained [["a"; "b"]])) START = None
  /\ Dict.find (unigram_counts (trained [["a"; "b"]])) END = Some 1.
Proof.
  split; [reflexivity|].
  rewrite trained_tables. split; reflexivity.
Qed.

(** ** Add-k and the counts of START *)

(** C10. The result of the Add-k sentence scorer, value and store, does not
    depend on its [start_count] and [token_count] arguments; the
    interpolated scorer does depend on [start_count]. *)
Theorem get_sent_log_prob_addk_ignores_counts
    (sentence : sentence) (start_count1 start_count2 : Z)
    (token_count1 token_count2 k : R) (s : store) :
  get_sent_log_prob_addk sentence start_count1 token_count1 k s =
  get_sent_log_prob_addk sentence start_count2 token_count2 k s
  /\ fst (get_sent_log_prob_interp [] 1 1 (1 / 2, 0)%R (trained [[]])) <>
     fst (get_sent_log_prob_interp [] 2 1 (1 / 2, 0)%R (trained [[]])).
Proof.
  split; [reflexivity|].
  unfold get_sent_log_prob_interp. cbv zeta.
  change (bigram_list (convert_sentence [])) with [("<s>", "</s>")].
  cbn [mapM]. unfold bind. rewrite !get_log_prob_interp_run.
  unfold mixture, bigramTerm, unigramTerm, zerogramTerm.
  eval_tables. eval_counts. cbv zeta. decide_reals.
  unfold ret, fsum. cbn [fst fold_left]. intros [= E].
  replace (1 * (1 / 2) / 1 + 1 / 1 * 0 + 1 / 1 * (1 - 1 / 2 - 0))%R
    with 1%R in E by lra.
  replace (1 * (1 / 2) / 2 + 1 / 1 * 0 + 1 / 1 * (1 - 1 / 2 - 0))%R
    with (3 / 4)%R in E by lra.
  rewrite ln_1 in E.
  assert (H : (ln (3 / 4) < ln 1)%R) by (apply ln_increasing; lra).
  rewrite ln_1 in H. lra.
Qed.

(** ** Monotonicity of Add-k in [k] *)

Lemma addk_prob_difference unigrams bigrams prev_word word k1 k2 :
  let c := IZR (bigram_count bigrams prev_word word) in
  let u := IZR (Counter_get unigrams prev_word) in
  let V := IZR (Dict.len unigrams) in
  (0 < u + k1 * V)%R -> (0 < u + k2 * V)%R ->
  (addk_prob unigrams bigrams prev_word word k2
   - addk_prob unigrams bigrams prev_word word k1
   = (k2 - k1) * (u - c * V) / ((u + k1 * V) * (u + k2 * V)))%R.
Proof. intros c u V H1 H2. unfold addk_prob. fold c u V. field. lra. Qed.

(** C7, as amended.  For fixed tables with UnigramCounts[prev] >= 0 and a
    non-empty vocabulary, and 0 < k1 <= k2: the Add-k probability at k2 is
    at most that at k1 when UnigramCounts[prev] <= BigramCounts[prev][word]
    * VocabularySize, and at least that at k1 when UnigramCounts[prev] >=
    BigramCounts[prev][word] * VocabularySize; the latter covers every
    bigram whose raw count is zero. *)
Theorem addk_prob_monotone unigrams bigrams prev_word word (k1 k2 : R) :
  let c := bigram_count bigrams prev_word word in
  let u := Counter_get unigrams prev_word in
  let V := Dict.len unigrams in
  0 <= u -> 0 < V -> (0 < k1)%R -> (k1 <= k2)%R ->
  (u <= c * V ->
   (addk_prob unigrams bigrams prev_word word k2
    <= addk_prob unigrams bigrams prev_word word k1)%R)
  /\ (c * V <= u ->
      (addk_prob unigrams bigrams prev_word word k1
       <= addk_prob unigrams bigrams prev_word word k2)%R)
  /\ (c = 0 ->
      (addk_prob unigrams bigrams prev_word word k1
       <= addk_prob unigrams bigrams prev_word word k2)%R).
Proof.
  intros c u V Hu HV Hk1 Hk12.
  pose proof (IZR_le _ _ Hu) as Hu'. pose proof (IZR_lt _ _ HV) as HV'.
  assert (H1 : (0 < IZR u + k1 * IZR V)%R).
  { assert (0 < k1 * IZR V)%R by (apply Rmult_lt_0_compat; lra). lra. }
  assert (H2 : (0 < IZR u + k2 * IZR V)%R).
  { assert (0 < k2 * IZR V)%R by (apply Rmult_lt_0_compat; lra). lra. }
  pose proof (addk_prob_difference unigrams bigrams prev_word word k1 k2 H1 H2)
    as Hd. cbv zeta in Hd. fold c u V in Hd.
  assert (Hden : (0 < / ((IZR u + k1 * IZR V) * (IZR u + k2 * IZR V)))%R).
  { apply Rinv_0_lt_compat, Rmult_lt_0_compat; assumption. }
  assert (Hdown : u <= c * V ->
            (addk_prob unigrams bigrams prev_word word k2
             <= addk_prob unigrams bigrams prev_word word k1)%R).
  { intros Hle. apply IZR_le in Hle. rewrite mult_IZR in Hle.
    apply Rminus_le. rewrite Hd. unfold Rdiv.
    assert ((k2 - k1) * (IZR u - IZR c * IZR V) <= 0)%R by nra.
    nra. }
  assert (Hup : c * V <= u ->
            (addk_prob unigrams bigrams prev_word word k1
             <= addk_prob unigrams bigrams prev_word word k2)%R).
  { intros Hle. apply IZR_le in Hle. rewrite mult_IZR in Hle.
    apply Rge_le, Rminus_ge, Rle_ge. rewrite Hd. unfold Rdiv.
    assert (0 <= (k2 - k1) * (IZR u - IZR c * IZR V))%R by nra.
    nra. }
  split; [exact Hdown | split; [exact Hup|]].
  intros Hc. apply Hup. rewrite Hc. lia.
Qed.

Lemma addk_prob_monotone_witness :
  (addk_prob (unigram_counts (trained corpus_aaaab))
     (bigram_counts (trained corpus_aaaab)) "a" "b" 1
   <= addk_prob (unigram_counts (trained corpus_aaaab))
        (bigram_counts (trained corpus_aaaab)) "a" "b" 2)%R.
Proof.
  refine (proj1 (proj2 (addk_prob_monotone
                          (unigram_counts (trained corpus_aaaab))
                          (bigram_counts (trained corpus_aaaab))
                          "a" "b" 1 2 _ _ _ _)) _);
    try lra; unfold corpus_aaaab; eval_tables; eval_counts; lia.
Defined.

(** C7 fails as stated: trained on the sentence a a a a b, the bigram (a, b)
    has the raw count 1, a maximum-likelihood estimate of 1/4, and an Add-k
    probability of 2/7 at k = 1 and of 3/10 at k = 2, so its smoothed
    probability grows with k. *)
Lemma addk_prob_grows_for_seen_bigram :
  bigram_count (bigram_counts (trained corpus_aaaab)) "a" "b" = 1
  /\ Counter_get (unigram_counts (trained corpus_aaaab)) "a" = 4
  /\ addk_prob (unigram_counts (trained corpus_aaaab))
       (bigram_counts (trained corpus_aaaab)) "a" "b" 1 = (2 / 7)%R
  /\ addk_prob (unigram_counts (trained corpus_aaaab))
       (bigram_counts (trained corpus_aaaab)) "a" "b" 2 = (3 / 10)%R
  /\ (1 / 4 < 2 / 7 < 3 / 10)%R.
Proof.
  unfold corpus_aaaab, addk_prob. eval_tables. eval_counts.
  repeat split; try reflexivity; lra.
Qed.

(** ** The tables after a call *)

(** C4, as amended.  Every call to an estimator, to a sentence scorer or to
    the generator leaves UnigramCounts unchanged and only extends
    BigramCounts: the rows it had keep their place and content, every count
    read from it is the same, and the only change is that tokens that were
    not keys are appended as keys with an empty row.  An Add-k call whose
    prev is a key leaves the tables equal; one whose prev is not a key
    appends the row (prev, {}). *)
Theorem calls_only_extend_tables (s : store) :
  (forall prev_word word k,
      extends s (snd (get_log_prob_addk prev_word word k s)))
  /\ (forall prev_word word start_count token_count lambdas,
         extends s (snd (get_log_prob_interp prev_word word start_count
                           token_count lambdas s)))
  /\ (forall sentence start_count token_count k,
         extends s (snd (get_sent_log_prob_addk sentence start_count
                           token_count k s)))
  /\ (forall sentence start_count token_count lambdas,
         extends s (snd (get_sent_log_prob_interp sentence start_count
                           token_count lambdas s)))
  /\ (forall draws, extends s (snd (generate_sentence draws s)))
  /\ (forall s',
         extends s s' ->
         unigram_counts s' = unigram_counts s /\
         forall prev_word word,
           bigram_count (bigram_counts s') prev_word word =
           bigram_count (bigram_counts s) prev_word word)
  /\ (forall prev_word word k,
         In prev_word (Dict.keys (bigram_counts s)) ->
         snd (get_log_prob_addk prev_word word k s) = s)
  /\ (forall prev_word word k,
         ~ In prev_word (Dict.keys (bigram_counts s)) ->
         snd (get_log_prob_addk prev_word word k s) =
         mkStore (unigram_counts s) (bigram_counts s ++ [(prev_word, [])])).
Proof.
  split; [intros; apply frames_get_log_prob_addk|].
  split; [intros; apply frames_get_log_prob_interp|].
  split; [intros; apply frames_get_sent_log_prob_addk|].
  split; [intros; apply frames_get_sent_log_prob_interp|].
  split; [intros; apply frames_generate_sentence|].
  split; [|split].
  - intros s' Hext. split; [now apply extends_unigram_counts|].
    intros p w. now apply extends_bigram_count.
  - intros p w k Hin. rewrite get_log_prob_addk_run. now apply probe_present.
  - intros p w k Hin. rewrite get_log_prob_addk_run. now apply probe_absent.
Qed.

Lemma calls_only_extend_tables_witness :
  snd (get_log_prob_addk "a" "b" 1 (trained corpus_ab)) = trained corpus_ab.
Proof.
  refine (proj1 (proj2 (proj2 (proj2 (proj2 (proj2 (proj2
            (calls_only_extend_tables (trained corpus_ab))))))))
            "a" "b" 1%R _).
  rewrite trained_tables. vm_compute. tauto.
Defined.

(** C4 fails as stated: an Add-k call whose prev is not a key of
    BigramCounts adds that key to the table. *)
Lemma get_log_prob_addk_adds_key :
  Dict.keys (bigram_counts (trained corpus_ab)) = ["<s>"; "a"; "b"]
  /\ Dict.keys (bigram_counts
                  (snd (get_log_prob_addk "x" "a" 1 (trained corpus_ab)))) =
     ["<s>"; "a"; "b"; "x"].
Proof.
  rewrite get_log_prob_addk_run. cbn [snd]. unfold corpus_ab.
  eval_tables. split; reflexivity.
Qed.

(** ** Empty input *)

Lemma Binary64_get_log_prob_addk_returns libm prev_word word k s :
  let q :=
    ((Binary64.int_to_float (bigram_count (bigram_counts s) prev_word word)
      + k)
     / (Binary64.int_to_float (Counter_get (unigram_counts s) prev_word)
        + k * Binary64.int_to_float (Dict.len (unigram_counts s))))%float in
  (0 <? q)%float = true -> is_finite q = true ->
  is_finite (Binary64.libm_log libm q) = true ->
  Binary64.get_log_prob_addk libm prev_word word k s =
  (Ret (Binary64.libm_log libm q), probe s prev_word).
Proof.
  intros q Hpos Hfin Hlog.
  destruct (addk_quotient_finite _ _ _ _ Hfin) as [Hcv Hden].
  destruct (addk_quotient_positive _ _ _ _ Hfin Hpos) as [Hu Hv].
  rewrite Binary64_get_log_prob_addk_run. cbv zeta.
  rewrite Hcv, Hv, Hu, Hden. f_equal. now apply math_log_positive.
Qed.

Lemma Binary64_get_log_prob_interp_returns libm prev_word word start_count
    token_count lambdas s :
  let U := unigram_counts s in
  let B := bigram_counts s in
  let m := Rounded.mixture U B start_count token_count prev_word word
             lambdas in
  convertible (Dict.len U) ->
  ((Rounded.product B prev_word word (fst lambdas) =? 0)%float = false ->
   convertible (conditioning_count U start_count prev_word)) ->
  (0 <? m)%float = true -> is_finite m = true ->
  is_finite (Binary64.libm_log libm m) = true ->
  Binary64.get_log_prob_interp libm prev_word word start_count token_count
    lambdas s =
  (Ret (Binary64.libm_log libm m), probe s prev_word).
Proof.
  intros U B m Hv Hd Hpos Hfin Hlog. destruct lambdas as [bw uw].
  destruct (mixture_finite U B start_count token_count bw uw prev_word word
              Hfin) as (Hc & Hd0 & Hcw & Htc & Hv0).
  rewrite Binary64_get_log_prob_interp_run. cbv zeta. fold U B.
  cbn [fst snd] in *.
  rewrite Hc, Hcw, Htc, Hv0. unfold convertible in Hv, Hd. rewrite Hv.
  destruct (Rounded.product B prev_word word bw =? 0)%float eqn:Ep;
    cbn [negb andb].
  - f_equal. now apply math_log_positive.
  - rewrite (Hd eq_refl), (Hd0 eq_refl). f_equal. now apply math_log_positive.
Qed.

Lemma Binary64_get_sent_log_prob_addk_nil libm start_count token_count k s :
  Binary64.get_sent_log_prob_addk libm [] start_count token_count k s =
  match Binary64.get_log_prob_addk libm START END k s with
  | (Ret x, s') => (Ret (0 + x)%float, s')
  | (Raise e, s') => (Raise e, s')
  end.
Proof.
  unfold Binary64.get_sent_log_prob_addk. cbv zeta.
  change (bigram_list (convert_sentence [])) with [(START, END)].
  cbn [mapM]. unfold bind, ret.
  now destruct (Binary64.get_log_prob_addk libm START END k s) as [[x|e] s'].
Qed.

Lemma Binary64_get_sent_log_prob_interp_nil libm start_count token_count
    lambdas s :
  Binary64.get_sent_log_prob_interp libm [] start_count token_count lambdas s =
  match
    Binary64.get_log_prob_interp libm START END start_count token_count
      lambdas s
  with
  | (Ret x, s') => (Ret (0 + x)%float, s')
  | (Raise e, s') => (Raise e, s')
  end.
Proof.
  unfold Binary64.get_sent_log_prob_interp. cbv zeta.
  change (bigram_list (convert_sentence [])) with [(START, END)].
  cbn [mapM]. unfold bind, ret.
  now destruct (Binary64.get_log_prob_interp libm START END start_count
                  token_count lambdas s) as [[x|e] s'].
Qed.

(** C8, as amended.  [get_counts] on the empty corpus returns empty tables,
    StartCount 0 and TokenCount 0.  The empty sentence is accepted by every
    operation: the normaliser maps it to [START, END], [get_counts] counts
    it, each sentence scorer gives it the score of the single pair
    (START, END) and returns whenever its estimator returns on that pair,
    which on the tables of a corpus it does when the Add-k quotient,
    respectively the interpolated mixture, of the pair is positive and
    finite as binary64 computes it, and so is its logarithm; the evaluator
    on the test corpus of the empty sentence applies [math.exp] to minus
    that score divided by 1.  On the empty test corpus the evaluator raises
    ZeroDivisionError. *)
Theorem empty_input (libm : Binary64.Libm) {P : Type}
    (smoothing_function : sentence -> Z -> float -> P -> M float)
    (parameter : P) (start_count : Z) (token_count k : float)
    (lambdas : float * float) (s : store) (sentences : list sentence) :
  let U := unigram_counts (trained sentences) in
  let B := bigram_counts (trained sentences) in
  let q := Rounded.addk_prob U B START END k in
  let m := Rounded.mixture U B start_count token_count START END lambdas in
  get_counts [] = ([], [], 0, 0%R)
  /\ Binary64.get_counts [] = Ret ([], [], 0, 0%float)
  /\ convert_sentence [] = [START; END]
  /\ get_counts [[]] = ([(END, 1)], [(START, [(END, 1)])], 1, 1%R)
  /\ Binary64.get_sent_log_prob_addk libm [] start_count token_count k s =
     match Binary64.get_log_prob_addk libm START END k s with
     | (Ret x, s') => (Ret (0 + x)%float, s')
     | (Raise e, s') => (Raise e, s')
     end
  /\ Binary64.get_sent_log_prob_interp libm [] start_count token_count
       lambdas s =
     match
       Binary64.get_log_prob_interp libm START END start_count token_count
         lambdas s
     with
     | (Ret x, s') => (Ret (0 + x)%float, s')
     | (Raise e, s') => (Raise e, s')
     end
  /\ Binary64.calculate_perplexity libm smoothing_function start_count
       token_count parameter [[]] s =
     match smoothing_function [] start_count token_count parameter s with
     | (Ret x, s') => (Binary64.math_exp libm (- (0 + x) / 1)%float, s')
     | (Raise e, s') => (Raise e, s')
     end
  /\ ((0 <? q)%float = true -> is_finite q = true ->
      is_finite (Binary64.libm_log libm q) = true ->
      fst (Binary64.get_sent_log_prob_addk libm [] start_count token_count k
             (trained sentences)) =
      Ret (0 + Binary64.libm_log libm q)%float)
  /\ (convertible (Dict.len U) ->
      ((Rounded.product B START END (fst lambdas) =? 0)%float = false ->
       convertible start_count) ->
      (0 <? m)%float = true -> is_finite m = true ->
      is_finite (Binary64.libm_log libm m) = true ->
      fst (Binary64.get_sent_log_prob_interp libm [] start_count token_count
             lambdas (trained sentences)) =
      Ret (0 + Binary64.libm_log libm m)%float)
  /\ Binary64.calculate_perplexity libm smoothing_function start_count
       token_count parameter [] s = (Raise ZeroDivisionError, s).
Proof.
  intros U B q m.
  split; [reflexivity|]. split; [reflexivity|]. split; [reflexivity|].
  split; [reflexivity|].
  split; [apply Binary64_get_sent_log_prob_addk_nil|].
  split; [apply Binary64_get_sent_log_prob_interp_nil|].
  split; [|split; [|split]].
  - unfold Binary64.calculate_perplexity. cbn [Binary64.perplexity_loop].
    unfold bind, ret, Binary64.lift.
    destruct (smoothing_function [] start_count token_count parameter s)
      as [[x|e] s']; reflexivity.
  - intros Hpos Hfin Hlog. rewrite Binary64_get_sent_log_prob_addk_nil.
    unfold q, Rounded.addk_prob in *.
    assert (HU : Counter_ok U).
    { unfold U, trained.
      destruct (get_counts sentences) as [[[U' B'] sc] tc] eqn:Hc.
      apply (collected_Counter_ok _ _ _ _ _ Hc). }
    rewrite (VocabularySize_len U HU) in *.
    now rewrite (Binary64_get_log_prob_addk_returns libm START END k
                   (trained sentences) Hpos Hfin Hlog).
  - intros Hv Hd Hpos Hfin Hlog.
    rewrite Binary64_get_sent_log_prob_interp_nil.
    now rewrite (Binary64_get_log_prob_interp_returns libm START END
                   start_count token_count lambdas (trained sentences)
                   Hv Hd Hpos Hfin Hlog).
  - reflexivity.
Qed.

Lemma empty_input_witness :
  fst (Binary64.get_sent_log_prob_interp example_libm [] 1 3 (0.5, 0.25)%float
         (trained corpus_ab)) =
  Ret (0 + Binary64.libm_log example_libm
             (Rounded.mixture (unigram_counts (trained corpus_ab))
                (bigram_counts (trained corpus_ab)) 1 3 START END
                (0.5, 0.25)))%float
  /\ fst (Binary64.calculate_perplexity example_libm
            (Binary64.get_sent_log_prob_addk example_libm) 1 3 1%float [[]]
            (trained corpus_ab)) =
     Ret (Binary64.libm_exp example_libm
            (- (0 + (0 + Binary64.libm_log example_libm
                            (Rounded.addk_prob
                               (unigram_counts (trained corpus_ab))
                               (bigram_counts (trained corpus_ab))
                               START END 1))) / 1))%float.
Proof.
  pose proof (empty_input example_libm
                (Binary64.get_sent_log_prob_addk example_libm) 1%float 1
                3%float 1%float (0.5, 0.25)%float (trained corpus_ab)
                corpus_ab) as H.
  cbv zeta in H.
  destruct H as (_ & _ & _ & _ & _ & _ & Hev & Haddk & Hinterp & _).
  split.
  - apply Hinterp.
    + vm_compute. reflexivity.
    + intros _. vm_compute. reflexivity.
    + vm_compute. reflexivity.
    + vm_compute. reflexivity.
    + vm_compute. reflexivity.
  - rewrite Hev. vm_compute. reflexivity.
Defined.

(** C8 fails as stated: on the empty test corpus the evaluator raises
    ZeroDivisionError, whatever the training corpus. *)
Lemma empty_input_raises :
  fst (Binary64.calculate_perplexity example_libm
         (Binary64.get_sent_log_prob_addk example_libm) 1 3 1%float []
         (trained corpus_ab)) = Raise ZeroDivisionError
  /\ fst (Binary64.calculate_perplexity example_libm
            (Binary64.get_sent_log_prob_interp example_libm) 0 0
            (0.5, 0.25)%float [] (trained [])) = Raise ZeroDivisionError.
Proof.
  split; vm_compute; reflexivity.
Qed.

(** ** Sampling from a row *)

Lemma Qsum_acc l a : (fold_left Qplus l a == a + Qsum l)%Q.
Proof.
  unfold Qsum. revert a. induction l as [|x l IH]; intros a; simpl.
  - ring.
  - rewrite (IH (a + x)%Q), (IH (0 + x)%Q). ring.
Qed.

Lemma Qsum_cons x l : (Qsum (x :: l) == x + Qsum l)%Q.
Proof. unfold Qsum at 1. simpl. rewrite Qsum_acc. ring. Qed.

Lemma sum_cons x l : sum (x :: l) = x + sum l.
Proof. unfold sum. simpl. now rewrite fold_left_Zadd. Qed.

Lemma Qsum_scaled total_counts counts :
  (Qsum (scaled total_counts counts)
   == inject_Z (sum counts) / inject_Z total_counts)%Q.
Proof.
  induction counts as [|c l IH].
  - unfold Qsum, sum, Qdiv. simpl. ring.
  - unfold scaled in *. cbn [map]. rewrite Qsum_cons, IH, sum_cons.
    rewrite inject_Z_plus. unfold Qdiv. ring.
Qed.

Lemma values_of_keys (row : Counter) :
  NoDup (Dict.keys row) ->
  map (Counter_get row) (Dict.keys row) = Dict.values row.
Proof.
  intros Hnd. unfold Dict.keys, Dict.values. rewrite map_map.
  apply map_ext_in. intros [w c] Hin. cbn [fst snd]. unfold Counter_get.
  now rewrite (In_find _ _ _ Hnd Hin).
Qed.

Lemma row_probs_scaled (row : Counter) :
  NoDup (Dict.keys row) ->
  row_probs row = scaled (sum (Dict.values row)) (Dict.values row).
Proof.
  intros Hnd. unfold row_probs.
  transitivity (scaled (sum (Dict.values row))
                  (map (Counter_get row) (Dict.keys row))).
  - unfold scaled. now rewrite map_map.
  - now rewrite (values_of_keys row Hnd).
Qed.

Lemma sum_positive (counts : list Z) :
  Forall (fun c => 0 < c) counts -> counts <> [] -> 0 < sum counts.
Proof.
  intros Hpos Hne. induction Hpos as [|c l Hc Hl IH]; [congruence|].
  rewrite sum_cons. destruct l as [|c' l'].
  - unfold sum. simpl. lia.
  - assert (0 < sum (c' :: l')) by (apply IH; discriminate). lia.
Qed.

Lemma Counter_ok_values row :
  Counter_ok row -> Forall (fun c => 0 < c) (Dict.values row).
Proof.
  intros [_ Hpos]. unfold Dict.values. rewrite Forall_map.
  exact Hpos.
Qed.

Lemma Qsum_app l1 l2 : (Qsum (l1 ++ l2) == Qsum l1 + Qsum l2)%Q.
Proof.
  induction l1 as [|x l1 IH]; simpl.
  - unfold Qsum at 2. simpl. ring.
  - rewrite !Qsum_cons, IH. ring.
Qed.

Lemma Qsum_nonneg l : Forall (fun p => (0 <= p)%Q) l -> (0 <= Qsum l)%Q.
Proof.
  induction 1 as [|x l Hx Hl IH].
  - unfold Qsum. simpl. lra.
  - rewrite Qsum_cons. lra.
Qed.

Lemma searchsorted_In a p u w : searchsorted a p u = Some w -> In w a.
Proof.
  revert p u. induction a as [|x a IH]; intros [|px p] u; simpl;
    try discriminate.
  destruct (Qlt_le_dec u px).
  - intros [= ->]. now left.
  - intros H. right. eapply IH, H.
Qed.


(** The draw that is the mass before an entry of positive probability
    finds that entry. *)
Lemma searchsorted_hit pre_a w post_a pre_p pw post_p u :
  length pre_a = length pre_p ->
  Forall (fun p => (0 <= p)%Q) pre_p -> (0 < pw)%Q ->
  (u == Qsum pre_p)%Q ->
  searchsorted (pre_a ++ w :: post_a) (pre_p ++ pw :: post_p) u = Some w.
Proof.
  revert pre_p u. induction pre_a as [|x pre_a IH];
    intros [|q pre_p] u Hlen Hpos Hpw Hu; try discriminate; simpl.
  - destruct (Qlt_le_dec u pw) as [_|Hge]; [reflexivity|].
    unfold Qsum in Hu. simpl in Hu. lra.
  - inversion Hpos as [|? ? Hq Hpos']; subst.
    rewrite Qsum_cons in Hu.
    destruct (Qlt_le_dec u q) as [Hlt|_].
    + pose proof (Qsum_nonneg _ Hpos') as Hs. lra.
    + apply IH; try assumption.
      * simpl in Hlen. congruence.
      * lra.
Qed.

Section SampledRow.
Variable row : Counter.
Hypothesis row_sampled : sampled_row row.

Lemma sampled_total_pos : 0 < sum (Dict.values row).
Proof.
  destruct row_sampled as [Hok Hne]. apply sum_positive.
  - now apply Counter_ok_values.
  - unfold Dict.values. destruct row; [congruence | discriminate].
Qed.

Lemma sampled_keys_not_nil : Dict.keys row <> [].
Proof.
  destruct row_sampled as [_ Hne]. unfold Dict.keys.
  destruct row; [congruence | discriminate].
Qed.

Lemma sampled_prob_nonneg word :
  (0 <= inject_Z (Counter_get row word) / inject_Z (sum (Dict.values row)))%Q.
Proof.
  destruct row_sampled as [Hok _].
  pose proof (Counter_get_nonneg row word Hok) as Hc.
  pose proof sampled_total_pos as Ht.
  apply Qle_shift_div_l.
  - change 0%Q with (inject_Z 0). now rewrite <- Zlt_Qlt.
  - rewrite Qmult_0_l. change 0%Q with (inject_Z 0). now rewrite <- Zle_Qle.
Qed.

Lemma sampled_prob_pos word :
  In word (Dict.keys row) ->
  (0 < inject_Z (Counter_get row word) / inject_Z (sum (Dict.values row)))%Q.
Proof.
  destruct row_sampled as [Hok _]. intros Hin.
  apply (Counter_ok_In row word Hok) in Hin.
  pose proof sampled_total_pos as Ht.
  apply Qlt_shift_div_l.
  - change 0%Q with (inject_Z 0). now rewrite <- Zlt_Qlt.
  - rewrite Qmult_0_l. change 0%Q with (inject_Z 0). now rewrite <- Zlt_Qlt.
Qed.

Lemma sampled_probs_nonneg :
  Forall (fun p => (0 <= p)%Q) (row_probs row).
Proof.
  unfold row_probs. rewrite Forall_map, Forall_forall.
  intros word _. apply sampled_prob_nonneg.
Qed.

Lemma sampled_probs_sum : (Qsum (row_probs row) == 1)%Q.
Proof.
  destruct row_sampled as [[Hnd _] _].
  rewrite (row_probs_scaled row Hnd), Qsum_scaled.
  pose proof sampled_total_pos as Ht. field.
  intros E. change 0%Q with (inject_Z 0) in E.
  apply (proj1 (inject_Z_injective _ _)) in E. lia.
Qed.

Lemma sampled_checks :
  negb (forallb (Qle_bool 0) (row_probs row)) = false /\
  negb (Qeq_bool (Qsum (row_probs row)) 1) = false.
Proof.
  split; apply negb_false_iff.
  - apply forallb_forall. intros p Hp. apply Qle_bool_iff.
    pose proof sampled_probs_nonneg as H. rewrite Forall_forall in H.
    now apply H.
  - apply Qeq_bool_iff, sampled_probs_sum.
Qed.

Lemma choice_sampled u s :
  choice (Dict.keys row) (row_probs row) u s =
  match searchsorted (Dict.keys row) (row_probs row) u with
  | Some w => (Ret w, s)
  | None => (Raise IndexError, s)
  end.
Proof.
  unfold choice. pose proof sampled_keys_not_nil as Hk.
  destruct (Dict.keys row) as [|k ks] eqn:E; [congruence|].
  rewrite <- E. destruct sampled_checks as [-> ->].
  replace (length (row_probs row)) with (length (Dict.keys row))
    by (unfold row_probs; now rewrite length_map).
  rewrite Nat.eqb_refl. cbn [negb].
  now destruct (searchsorted _ _ _).
Qed.


(** Every key of the row is sampled by some uniform draw. *)
Lemma choice_reaches word s :
  In word (Dict.keys row) ->
  exists u, uniform u /\
            choice (Dict.keys row) (row_probs row) u s = (Ret word, s).
Proof.
  intros Hin. pose proof (sampled_prob_pos word Hin) as Hpw.
  destruct (in_split _ _ Hin) as (pre & post & Hsplit).
  set (f := fun word : token =>
              (inject_Z (Counter_get row word)
               / inject_Z (sum (Dict.values row)))%Q) in *.
  assert (Hprobs : row_probs row = map f pre ++ f word :: map f post).
  { unfold row_probs. fold f. now rewrite Hsplit, map_app. }
  assert (Hpre : Forall (fun p => (0 <= p)%Q) (map f pre)).
  { rewrite Forall_map, Forall_forall. intros w _. apply sampled_prob_nonneg. }
  assert (Hpost : Forall (fun p => (0 <= p)%Q) (map f post)).
  { rewrite Forall_map, Forall_forall. intros w _. apply sampled_prob_nonneg. }
  exists (Qsum (map f pre)). split; [split|].
  - now apply Qsum_nonneg.
  - pose proof sampled_probs_sum as Hs.
    rewrite Hprobs, Qsum_app, Qsum_cons in Hs.
    pose proof (Qsum_nonneg _ Hpost) as Hp.
    change (0 < f word)%Q in Hpw.
    revert Hs Hp Hpw.
    generalize (Qsum (map f pre)), (Qsum (map f post)), (f word).
    intros A C pw Hs Hp Hpw. lra.
  - rewrite choice_sampled, Hprobs, Hsplit.
    rewrite (searchsorted_hit pre word post (map f pre) (f word) (map f post));
      try assumption; try reflexivity.
    now rewrite length_map.
Qed.
End SampledRow.

(** ** The bigrams of a corpus *)

Lemma bigram_list_cons x y rest :
  bigram_list (x :: y :: rest) = (x, y) :: bigram_list (y :: rest).
Proof. reflexivity. Qed.

Lemma In_bigram_list l p w :
  In (p, w) (bigram_list l) -> In p l /\ In w (tl l).
Proof.
  induction l as [|x [|y rest] IH]; try contradiction.
  rewrite bigram_list_cons. intros [[= -> ->]|Hin].
  - split; now left.
  - destruct (IH Hin) as [Hp Hw]. split; right; [exact Hp|].
    destruct rest; [contradiction | exact Hw].
Qed.

Lemma reaches_END_incl pairs pairs' w :
  incl pairs pairs' -> reaches_END pairs w -> reaches_END pairs' w.
Proof.
  intros Hincl. induction 1 as [|w w' Hin _ IH].
  - constructor.
  - eapply reaches_step; [apply Hincl, Hin | exact IH].
Qed.

(** Every token of a sentence that ends in END reaches END along the
    bigrams of that sentence. *)
Lemma sentence_reaches_END l w :
  In w (l ++ [END]) -> reaches_END (bigram_list (l ++ [END])) w.
Proof.
  revert w. induction l as [|x l IH]; intros w; simpl.
  - intros [<-|[]]. constructor.
  - destruct (l ++ [END]) as [|y rest] eqn:E.
    { destruct l; discriminate. }
    rewrite bigram_list_cons. intros [<-|Hin].
    + eapply reaches_step; [now left|].
      eapply reaches_END_incl; [|apply IH; now left].
      intros b Hb. now right.
    + eapply reaches_END_incl; [|apply IH, Hin].
      intros b Hb. now right.
Qed.

Section CorpusBigrams.
Variable sentences : list sentence.

Lemma corpus_bigrams_incl sentence :
  In sentence sentences ->
  incl (bigram_list (convert_sentence sentence)) (corpus_bigrams sentences).
Proof.
  intros Hs b Hb. unfold corpus_bigrams. apply in_flat_map.
  now exists sentence.
Qed.

Lemma corpus_bigrams_In p w :
  In (p, w) (corpus_bigrams sentences) ->
  exists sentence,
    In sentence sentences /\ In p (convert_sentence sentence)
    /\ In w (map lower sentence ++ [END]).
Proof.
  unfold corpus_bigrams. rewrite in_flat_map.
  intros (sentence & Hs & Hb). exists sentence. split; [exact Hs|].
  now apply In_bigram_list in Hb.
Qed.

(** Every successor in the corpus reaches END. *)
Lemma successor_reaches_END p w :
  In (p, w) (corpus_bigrams sentences) ->
  reaches_END (corpus_bigrams sentences) w.
Proof.
  intros Hin. destruct (corpus_bigrams_In p w Hin) as (sentence & Hs & _ & Hw).
  eapply reaches_END_incl; [apply (corpus_bigrams_incl sentence Hs)|].
  unfold convert_sentence.
  change ([START] ++ map lower sentence ++ [END])
    with ((START :: map lower sentence) ++ [END]).
  apply sentence_reaches_END. simpl. now right.
Qed.



(** The table of the corpus, row by row. *)
Let B := bigram_counts (trained sentences).

Lemma trained_bigram_count p w :
  bigram_count B p w =
  Z.of_nat (count_occ bigram_dec (corpus_bigrams sentences) (p, w)).
Proof.
  unfold B. rewrite trained_tables. cbn [bigram_counts].
  now rewrite bigram_count_fold.
Qed.

Lemma trained_rows_ok : rows_ok B.
Proof.
  unfold B. rewrite trained_tables. apply rows_ok_fold, rows_ok_nil.
Qed.

Lemma trained_row_sampled p :
  In p (Dict.keys B) -> sampled_row (row_of B p).
Proof.
  intros Hin. destruct trained_rows_ok as [_ Hrows]. unfold row_of.
  destruct (Dict.find B p) as [row|] eqn:E.
  - apply (Forall_find _ _ _ _ Hrows) in E. exact E.
  - apply find_None_keys in E. contradiction.
Qed.

Lemma trained_successor p w :
  In w (Dict.keys (row_of B p)) <-> In (p, w) (corpus_bigrams sentences).
Proof.
  rewrite (Counter_ok_In _ _ (row_of_ok B p trained_rows_ok)).
  rewrite <- bigram_count_row, trained_bigram_count.
  rewrite (count_occ_In bigram_dec). lia.
Qed.

Lemma trained_row_key p w :
  In (p, w) (corpus_bigrams sentences) -> In p (Dict.keys B).
Proof.
  intros Hin. apply trained_successor in Hin.
  destruct (in_dec string_dec p (Dict.keys B)) as [H|H]; [exact H|].
  apply find_None_keys in H. unfold row_of in Hin. rewrite H in Hin.
  contradiction.
Qed.

(** A token that reaches END is END or has a row to sample from. *)
Lemma reaches_END_row w :
  reaches_END (corpus_bigrams sentences) w -> w = END \/ In w (Dict.keys B).
Proof.
  intros [|w0 w' Hin _]; [now left | right].
  eapply trained_row_key, Hin.
Qed.
End CorpusBigrams.

(** ** The generator on the tables of a corpus *)

Lemma mapM_prob_div row total_counts words s :
  total_counts <> 0 ->
  mapM (fun word => prob_div (Counter_get row word) total_counts) words s =
  (Ret (map (fun word =>
               (inject_Z (Counter_get row word) / inject_Z total_counts)%Q)
            words), s).
Proof.
  intros Hne. revert s. induction words as [|w l IH]; intros s; [reflexivity|].
  cbn [mapM map]. unfold bind, prob_div at 1.
  destruct (Z.eqb_spec total_counts 0); [contradiction|].
  unfold ret at 1. now rewrite IH.
Qed.

Section Generator.
Variable sentences : list sentence.
Let s := trained sentences.
Let B := bigram_counts (trained sentences).
Let pairs := corpus_bigrams sentences.

Lemma generate_loop_END draws sentence :
  generate_loop draws END sentence s = (Ret (Some sentence), s).
Proof. destruct draws; reflexivity. Qed.

Lemma generate_loop_nil current_word sentence :
  current_word <> END ->
  generate_loop [] current_word sentence s = (Ret None, s).
Proof.
  intros Hne. simpl.
  destruct (String.eqb_spec current_word END); [contradiction | reflexivity].
Qed.

(** One iteration of the loop from a word that has a row. *)
Lemma generate_loop_step u draws current_word sentence :
  current_word <> END -> In current_word (Dict.keys B) ->
  generate_loop (u :: draws) current_word sentence s =
  match searchsorted (Dict.keys (row_of B current_word))
          (row_probs (row_of B current_word)) u with
  | Some w => generate_loop draws w (sentence ++ [w]) s
  | None => (Raise IndexError, s)
  end.
Proof.
  intros Hne Hin. cbn [generate_loop].
  destruct (String.eqb_spec current_word END); [contradiction|].
  pose proof (trained_row_sampled sentences current_word Hin) as Hrow.
  fold B in Hrow.
  unfold bind at 1. rewrite bigram_row_run.
  rewrite (probe_present s current_word Hin). fold B.
  unfold bind at 1. rewrite mapM_prob_div.
  - fold (row_probs (row_of B current_word)).
    unfold bind at 1. rewrite (choice_sampled _ Hrow).
    now destruct (searchsorted _ _ u).
  - pose proof (sampled_total_pos _ Hrow) as Hpos.
    unfold B, s in *. lia.
Qed.

Lemma sampled_word_row current_word u w :
  searchsorted (Dict.keys (row_of B current_word))
    (row_probs (row_of B current_word)) u = Some w ->
  In (current_word, w) pairs /\ (w = END \/ In w (Dict.keys B)).
Proof.
  intros Hw. apply searchsorted_In in Hw.
  apply (trained_successor sentences) in Hw. split; [exact Hw|].
  eapply reaches_END_row, successor_reaches_END, Hw.
Qed.


End Generator.


(** ** The draws that select a word *)

Section Interval.
Variable row : Counter.
Hypothesis row_sampled : sampled_row row.

Local Abbreviation prob :=
  (fun word : token =>
     (inject_Z (Counter_get row word) / inject_Z (sum (Dict.values row)))%Q).


End Interval.

(** ** Termination with probability one *)

Lemma fsum_cons x l : fsum (x :: l) = (x + fsum l)%R.
Proof.
  unfold fsum. cbn [fold_left]. rewrite (fold_left_Rplus l (0 + x)%R). lra.
Qed.

Section WeightedSums.
Local Open Scope R_scope.
Variables p x y : token -> R.





End WeightedSums.


Section SuccessorProbabilities.
Variable row : Counter.
Hypothesis row_sampled : sampled_row row.



End SuccessorProbabilities.

Section Termination.
Variable sentences : list sentence.
Let B := bigram_counts (trained sentences).
Let pairs := corpus_bigrams sentences.
Let words := START :: map snd pairs.














End Termination.



(** ** Unigram and bigram counts of the same corpus *)

Lemma count_occ_bigram_list l p w :
  (count_occ bigram_dec (bigram_list l) (p, w)
   <= count_occ string_dec l p)%nat.
Proof.
  induction l as [|x [|y rest] IH].
  - simpl. lia.
  - simpl. destruct (string_dec x p); lia.
  - rewrite bigram_list_cons. cbn [count_occ] in *.
    destruct (bigram_dec (x, y) (p, w)) as [[= -> ->]|Hne].
    + destruct (string_dec p p); [lia | congruence].
    + destruct (string_dec x p); lia.
Qed.

Lemma count_occ_flat_map {A B : Type} (dec : forall x y : B, {x = y} + {x <> y})
    (f : A -> list B) l b :
  count_occ dec (flat_map f l) b =
  fold_right (fun a n => (count_occ dec (f a) b + n)%nat) 0%nat l.
Proof.
  induction l as [|a l IH]; [reflexivity|].
  cbn [flat_map fold_right]. now rewrite count_occ_app, IH.
Qed.

(** A bigram whose first token is not START occurs at most as often as
    its first token is counted. *)
Lemma corpus_bigram_le_unigram sentences p w :
  p <> START ->
  (count_occ bigram_dec (corpus_bigrams sentences) (p, w)
   <= count_occ string_dec (unigram_tokens sentences) p)%nat.
Proof.
  intros Hne. unfold corpus_bigrams, unigram_tokens.
  rewrite !count_occ_flat_map.
  induction sentences as [|s rest IH]; [reflexivity|].
  cbn [fold_right]. apply Nat.add_le_mono; [|exact IH].
  unfold convert_sentence. cbn [app tl].
  destruct (map lower s ++ [END]) as [|y r] eqn:E.
  { destruct (map lower s); discriminate. }
  rewrite bigram_list_cons, count_occ_cons_neq by congruence.
  apply count_occ_bigram_list.
Qed.

Section CollectedCounts.
Variable sentences : list sentence.
Variables (U : Counter) (B : defaultdict) (sc : Z) (tc : R).
Hypothesis collected : get_counts sentences = (U, B, sc, tc).

Lemma collected_bigram_le_unigram p w :
  p <> START -> bigram_count B p w <= Counter_get U p.
Proof.
  intros Hne.
  rewrite (collected_bigram_count _ _ _ _ _ collected).
  rewrite (collected_unigram_count _ _ _ _ _ collected).
  apply inj_le. now apply corpus_bigram_le_unigram.
Qed.

Lemma collected_bigram_nonneg p w : 0 <= bigram_count B p w.
Proof. rewrite (collected_bigram_count _ _ _ _ _ collected). lia. Qed.

Lemma collected_token_count_pos : sentences <> [] -> (0 < tc)%R.
Proof.
  intros Hne. rewrite (collected_token_count _ _ _ _ _ collected).
  apply IZR_lt, sum_positive.
  - apply Counter_ok_values, (collected_Counter_ok _ _ _ _ _ collected).
  - pose proof (collected_vocabulary _ _ _ _ _ collected Hne) as Hlen.
    unfold Dict.len, Dict.values in *. destruct U; simpl in *; [lia|discriminate].
Qed.

Lemma collected_conditioning_count p w :
  bigram_count B p w <> 0 -> 0 < conditioning_count U sc p.
Proof.
  intros Hb. pose proof (collected_bigram_nonneg p w) as Hge.
  unfold conditioning_count. destruct (String.eqb_spec p START) as [->|Hne].
  - rewrite (collected_start_count _ _ _ _ _ collected).
    destruct sentences as [|s rest] eqn:E; [|simpl; lia].
    exfalso. apply Hb. unfold get_counts in collected. simpl in collected.
    injection collected as _ <- _ _. reflexivity.
  - pose proof (collected_bigram_le_unigram p w Hne). lia.
Qed.

(** On the tables and counts of a non-empty corpus, with weights that are
    not negative and leave a positive weight to the zerogram, the
    interpolated estimator returns. *)
Lemma get_log_prob_interp_collected p w (bigramWeight unigramWeight : R) :
  sentences <> [] ->
  (0 <= bigramWeight)%R -> (0 <= unigramWeight)%R ->
  (bigramWeight + unigramWeight < 1)%R ->
  fst (get_log_prob_interp p w sc tc (bigramWeight, unigramWeight)
         (mkStore U B)) =
  Ret (ln (mixture U B sc tc p w (bigramWeight, unigramWeight))).
Proof.
  intros Hne Hb Hu Hz.
  pose proof (collected_token_count_pos Hne) as Htc.
  pose proof (collected_vocabulary _ _ _ _ _ collected Hne) as Hlen.
  pose proof (collected_Counter_ok _ _ _ _ _ collected) as HU.
  assert (Hcond : (IZR (bigram_count B p w) * bigramWeight)%R <> 0%R ->
                  conditioning_count U sc p <> 0).
  { intros Hprod. assert (Hc : bigram_count B p w <> 0).
    { intros E. apply Hprod. rewrite E. lra. }
    pose proof (collected_conditioning_count p w Hc). lia. }
  assert (Hmix : (0 < bigramTerm U B sc p w bigramWeight
                      + unigramTerm U tc w unigramWeight
                      + zerogramTerm U bigramWeight unigramWeight)%R).
  { assert (H1 : (0 <= bigramTerm U B sc p w bigramWeight)%R).
    { unfold bigramTerm. cbv zeta. destruct (Req_dec_T _ 0) as [_|Hprod]; [lra|].
      assert (Hc : bigram_count B p w <> 0).
      { intros E. apply Hprod. rewrite E. lra. }
      pose proof (IZR_lt _ _ (collected_conditioning_count p w Hc)).
      pose proof (IZR_le _ _ (collected_bigram_nonneg p w)).
      apply Rmult_le_pos; [apply Rmult_le_pos; lra|].
      left. now apply Rinv_0_lt_compat. }
    assert (H2 : (0 <= unigramTerm U tc w unigramWeight)%R).
    { unfold unigramTerm.
      pose proof (IZR_le _ _ (Counter_get_nonneg U w HU)).
      apply Rmult_le_pos; [|lra]. apply Rmult_le_pos; [lra|].
      left. now apply Rinv_0_lt_compat. }
    assert (H3 : (0 < zerogramTerm U bigramWeight unigramWeight)%R).
    { unfold zerogramTerm. pose proof (IZR_lt _ _ Hlen).
      apply Rmult_lt_0_compat; [|lra].
      apply Rdiv_lt_0_compat; lra. }
    lra. }
  exact (get_log_prob_interp_returns (mkStore U B) p w sc tc
           (bigramWeight, unigramWeight) Htc Hlen Hcond Hmix).
Qed.

(** For a conditioning token other than START the Add-k probability is at
    most one. *)
Lemma addk_prob_le_1 p w (k : R) :
  sentences <> [] -> p <> START -> (0 < k)%R ->
  (addk_prob U B p w k <= 1)%R.
Proof.
  intros Hne Hp Hk.
  pose proof (collected_vocabulary _ _ _ _ _ collected Hne) as Hlen.
  pose proof (collected_Counter_ok _ _ _ _ _ collected) as HU.
  pose proof (addk_denominator_pos U p k HU Hlen Hk) as Hden.
  pose proof (IZR_le _ _ (collected_bigram_le_unigram p w Hp)) as Hle.
  assert (HV : (1 <= IZR (Dict.len U))%R) by (apply IZR_le; lia).
  unfold addk_prob. apply (Rmult_le_reg_r _ _ _ Hden).
  unfold Rdiv. rewrite Rmult_assoc, Rinv_l by lra. nra.
Qed.
End CollectedCounts.

(** * Further properties of the code *)

(** ** What the collector counts *)

Lemma sum_values_set (c : Counter) w v :
  sum (Dict.values (Dict.set c w v)) = sum (Dict.values c) - Counter_get c w + v.
Proof.
  unfold Counter_get. induction c as [|[k0 v0] c IH]; simpl.
  - unfold sum. simpl. lia.
  - destruct (String.eqb k0 w).
    + unfold Dict.values. cbn [map snd]. rewrite !sum_cons. lia.
    + unfold Dict.values in *. cbn [map snd]. rewrite !sum_cons, IH. lia.
Qed.

Lemma sum_values_fold l (c : Counter) :
  sum (Dict.values (fold_left Counter_incr l c)) =
  sum (Dict.values c) + Z.of_nat (length l).
Proof.
  revert c. induction l as [|w l IH]; intros c; [simpl; lia|].
  cbn [fold_left length]. rewrite IH. unfold Counter_incr at 1.
  rewrite sum_values_set. lia.
Qed.

Lemma length_unigram_tokens sentences :
  Z.of_nat (length (unigram_tokens sentences)) = totalTokenCount sentences.
Proof.
  induction sentences as [|s rest IH].
  - reflexivity.
  - rewrite totalTokenCount_cons, <- IH. unfold unigram_tokens.
    cbn [flat_map]. rewrite length_app. unfold convert_sentence.
    cbn [app tl]. rewrite length_app, length_map. cbn [length].
    rewrite !Nat2Z.inj_add. reflexivity.
Qed.

(** X1. Each unigram count is the number of occurrences of the token
    after the first position of the normalised sentences, and each bigram
    count is the number of occurrences of the pair among their adjacent
    pairs. *)
Theorem get_counts_counts_occurrences sentences prev_word word :
  Counter_get (unigram_counts (trained sentences)) word =
    Z.of_nat (count_occ string_dec (unigram_tokens sentences) word)
  /\ bigram_count (bigram_counts (trained sentences)) prev_word word =
    Z.of_nat (count_occ bigram_dec (corpus_bigrams sentences)
                (prev_word, word)).
Proof.
  rewrite trained_tables. cbn [unigram_counts bigram_counts].
  now rewrite Counter_get_fold, bigram_count_fold.
Qed.

Lemma collected_totals sentences U B sc tc :
  get_counts sentences = (U, B, sc, tc) ->
  sc = Z.of_nat (length sentences)
  /\ tc = IZR (sum (Dict.values U))
  /\ sum (Dict.values U) = totalTokenCount sentences.
Proof.
  intros Hc. split; [|split].
  - apply (collected_start_count _ _ _ _ _ Hc).
  - apply (collected_token_count _ _ _ _ _ Hc).
  - rewrite (collected_unigrams _ _ _ _ _ Hc), sum_values_fold.
    rewrite length_unigram_tokens. reflexivity.
Qed.

(** X2. [start_count] is the number of sentences, and [token_count] is
    the sum of the unigram counts, which is the total of len(sentence) + 1
    over the corpus. *)
Theorem get_counts_totals sentences U B sc tc :
  get_counts sentences = (U, B, sc, tc) ->
  sc = Z.of_nat (length sentences)
  /\ tc = IZR (sum (Dict.values U))
  /\ sum (Dict.values U) = totalTokenCount sentences.
Proof.
  exact (collected_totals sentences U B sc tc).
Qed.

Lemma get_counts_totals_witness :
  1 = Z.of_nat (length corpus_ab)
  /\ 3%R = IZR (sum (Dict.values [("a", 1); ("b", 1); ("</s>", 1)]))
  /\ sum (Dict.values [("a", 1); ("b", 1); ("</s>", 1)]) =
     totalTokenCount corpus_ab.
Proof.
  apply (get_counts_totals corpus_ab _
           [("<s>", [("a", 1)]); ("a", [("b", 1)]); ("b", [("</s>", 1)])]).
  reflexivity.
Defined.

(** X3. Counting a corpus made of two parts adds the counts of the
    parts: unigram counts, bigram counts, [start_count] and
    [token_count]. *)
Theorem get_counts_app sentences1 sentences2 U1 B1 sc1 tc1 U2 B2 sc2 tc2
    U B sc tc prev_word word :
  get_counts sentences1 = (U1, B1, sc1, tc1) ->
  get_counts sentences2 = (U2, B2, sc2, tc2) ->
  get_counts (sentences1 ++ sentences2) = (U, B, sc, tc) ->
  Counter_get U word = Counter_get U1 word + Counter_get U2 word
  /\ bigram_count B prev_word word =
     bigram_count B1 prev_word word + bigram_count B2 prev_word word
  /\ sc = sc1 + sc2
  /\ tc = (tc1 + tc2)%R.
Proof.
  intros H1 H2 H.
  destruct (collected_totals _ _ _ _ _ H1) as (Hs1 & Ht1 & Hv1).
  destruct (collected_totals _ _ _ _ _ H2) as (Hs2 & Ht2 & Hv2).
  destruct (collected_totals _ _ _ _ _ H) as (Hs & Ht & Hv).
  split; [|split; [|split]].
  - rewrite (collected_unigram_count _ _ _ _ _ H),
      (collected_unigram_count _ _ _ _ _ H1),
      (collected_unigram_count _ _ _ _ _ H2).
    unfold unigram_tokens. rewrite flat_map_app, count_occ_app.
    apply Nat2Z.inj_add.
  - rewrite (collected_bigram_count _ _ _ _ _ H),
      (collected_bigram_count _ _ _ _ _ H1),
      (collected_bigram_count _ _ _ _ _ H2).
    unfold corpus_bigrams. rewrite flat_map_app, count_occ_app.
    apply Nat2Z.inj_add.
  - rewrite Hs, Hs1, Hs2, length_app. apply Nat2Z.inj_add.
  - rewrite Ht, Ht1, Ht2, Hv, Hv1, Hv2, <- plus_IZR. f_equal.
    rewrite <- !length_unigram_tokens. unfold unigram_tokens.
    rewrite flat_map_app, length_app. apply Nat2Z.inj_add.
Qed.

Lemma get_counts_app_witness :
  Counter_get (unigram_counts (trained (corpus_ab ++ corpus_aa))) "a" =
    Counter_get (unigram_counts (trained corpus_ab)) "a"
    + Counter_get (unigram_counts (trained corpus_aa)) "a"
  /\ bigram_count (bigram_counts (trained (corpus_ab ++ corpus_aa))) "<s>" "a" =
     bigram_count (bigram_counts (trained corpus_ab)) "<s>" "a"
     + bigram_count (bigram_counts (trained corpus_aa)) "<s>" "a"
  /\ 2 = 1 + 1
  /\ 6%R = (3 + 3)%R.
Proof.
  apply (get_counts_app corpus_ab corpus_aa
           (unigram_counts (trained corpus_ab))
           (bigram_counts (trained corpus_ab)) 1 3
           (unigram_counts (trained corpus_aa))
           (bigram_counts (trained corpus_aa)) 1 3
           (unigram_counts (trained (corpus_ab ++ corpus_aa)))
           (bigram_counts (trained (corpus_ab ++ corpus_aa))) 2 6);
    reflexivity.
Defined.

(** ** The pairs of a normalised sentence *)

Lemma combine_fst_snd {A B : Type} (a : list A) (b : list B) :
  length a = length b ->
  map fst (combine a b) = a /\ map snd (combine a b) = b.
Proof.
  revert b. induction a as [|x a IH]; intros [|y b] Hlen; try discriminate.
  - now split.
  - simpl. injection Hlen as Hlen. destruct (IH b Hlen) as [-> ->]. now split.
Qed.

Lemma bigram_list_convert sentence :
  map fst (bigram_list (convert_sentence sentence)) = START :: map lower sentence
  /\ map snd (bigram_list (convert_sentence sentence)) =
     map lower sentence ++ [END].
Proof.
  unfold bigram_list, convert_sentence.
  change ([START] ++ map lower sentence ++ [END])
    with ((START :: map lower sentence) ++ [END]).
  rewrite removelast_last. cbn [app tl]. apply combine_fst_snd.
  rewrite length_app. cbn [length]. unfold token. lia.
Qed.

(** X4. A normalised sentence has len(sentence) + 2 tokens, starts with
    START and ends with END; it has len(sentence) + 1 adjacent pairs, whose
    conditioning tokens are START followed by the lower-cased tokens and
    whose predicted tokens are the lower-cased tokens followed by END. *)
Theorem convert_sentence_pairs sentence :
  length (convert_sentence sentence) = S (S (length sentence))
  /\ hd_error (convert_sentence sentence) = Some START
  /\ last (convert_sentence sentence) START = END
  /\ length (bigram_list (convert_sentence sentence)) = S (length sentence)
  /\ map fst (bigram_list (convert_sentence sentence)) =
     START :: map lower sentence
  /\ map snd (bigram_list (convert_sentence sentence)) =
     map lower sentence ++ [END].
Proof.
  destruct (bigram_list_convert sentence) as [Hfst Hsnd].
  split; [|split; [|split; [|split; [|split]]]]; try assumption.
  - unfold convert_sentence. cbn [app length].
    rewrite length_app, length_map. cbn [length]. unfold token. lia.
  - reflexivity.
  - unfold convert_sentence.
    change ([START] ++ map lower sentence ++ [END])
      with ((START :: map lower sentence) ++ [END]).
    apply last_last.
  - rewrite <- (length_map fst), Hfst. cbn [length]. now rewrite length_map.
Qed.

(** ** Rows of the bigram table and unigram counts *)

Lemma row_of_incr d first second prev_word :
  row_of (defaultdict_incr d (first, second)) prev_word =
  if String.eqb first prev_word
  then Counter_incr (row_of d prev_word) second
  else row_of d prev_word.
Proof.
  rewrite defaultdict_incr_set. unfold row_of at 1.
  destruct (String.eqb_spec first prev_word) as [->|Hne].
  - now rewrite find_set_same.
  - now rewrite find_set_other.
Qed.

Lemma row_sum_fold l d prev_word :
  sum (Dict.values (row_of (fold_left defaultdict_incr l d) prev_word)) =
  sum (Dict.values (row_of d prev_word))
  + Z.of_nat (count_occ string_dec (map fst l) prev_word).
Proof.
  revert d. induction l as [|[first second] l IH]; intros d.
  - simpl. lia.
  - cbn [fold_left map fst count_occ]. rewrite IH, row_of_incr.
    destruct (string_dec first prev_word) as [->|Hne].
    + rewrite String.eqb_refl. unfold Counter_incr.
      rewrite sum_values_set, Nat2Z.inj_succ. lia.
    + destruct (String.eqb_spec first prev_word); [contradiction | lia].
Qed.

Lemma map_fst_corpus_bigrams sentences :
  map fst (corpus_bigrams sentences) =
  flat_map (fun s => START :: map lower s) sentences.
Proof.
  unfold corpus_bigrams. induction sentences as [|s rest IH]; [reflexivity|].
  cbn [flat_map]. rewrite map_app, IH.
  now rewrite (proj1 (bigram_list_convert s)).
Qed.

Lemma count_conditioning_tokens sentences p :
  (count_occ string_dec (flat_map (fun s => START :: map lower s) sentences) p
   + (if String.eqb p END then length sentences else 0)
   = count_occ string_dec (unigram_tokens sentences) p
     + (if String.eqb p START then length sentences else 0))%nat.
Proof.
  unfold unigram_tokens. induction sentences as [|s rest IH].
  - simpl. now destruct (String.eqb p END), (String.eqb p START).
  - cbn [flat_map length]. unfold convert_sentence at 1. cbn [app tl].
    rewrite !count_occ_app. cbn [count_occ]. rewrite ?count_occ_app.
    destruct (string_dec START p) as [Hs|Hs];
      destruct (string_dec END p) as [He|He];
      destruct (String.eqb_spec p END) as [He'|He'];
      destruct (String.eqb_spec p START) as [Hs'|Hs'];
      unfold START, END in *; try congruence;
      unfold sentence, token in *; lia.
Qed.

Lemma trained_row_sum sentences prev_word :
  sum (Dict.values (row_of (bigram_counts (trained sentences)) prev_word))
    + (if String.eqb prev_word END then Z.of_nat (length sentences) else 0)
  = Counter_get (unigram_counts (trained sentences)) prev_word
    + (if String.eqb prev_word START then Z.of_nat (length sentences) else 0).
Proof.
  rewrite trained_tables. cbn [unigram_counts bigram_counts].
  rewrite row_sum_fold, Counter_get_fold, map_fst_corpus_bigrams.
  pose proof (count_conditioning_tokens sentences prev_word) as H.
  change (sum (Dict.values (row_of [] prev_word))) with 0.
  change (Counter_get [] prev_word) with 0.
  apply (f_equal Z.of_nat) in H. rewrite !Nat2Z.inj_add in H.
  destruct (String.eqb prev_word END), (String.eqb prev_word START);
    cbn [Z.of_nat] in H; rewrite ?Z.add_0_r in *; rewrite ?Z.add_0_l;
    exact H.
Qed.

Lemma trained_row_sum_inner sentences prev_word :
  prev_word <> START -> prev_word <> END ->
  sum (Dict.values (row_of (bigram_counts (trained sentences)) prev_word)) =
  Counter_get (unigram_counts (trained sentences)) prev_word.
Proof.
  intros Hs He. pose proof (trained_row_sum sentences prev_word) as Hgen.
  destruct (String.eqb_spec prev_word END); [contradiction|].
  destruct (String.eqb_spec prev_word START); [contradiction|].
  rewrite !Z.add_0_r in Hgen. exact Hgen.
Qed.

(** X5. The counts of a row of the bigram table add up to the unigram
    count of its token, for every token other than START and END; in
    general the row of START also counts the opening of every sentence and
    the unigram count of END also counts the end of every sentence. *)
Theorem row_sum_is_unigram_count sentences prev_word :
  let U := unigram_counts (trained sentences) in
  let B := bigram_counts (trained sentences) in
  let n := Z.of_nat (length sentences) in
  sum (Dict.values (row_of B prev_word))
    + (if String.eqb prev_word END then n else 0)
  = Counter_get U prev_word + (if String.eqb prev_word START then n else 0)
  /\ (prev_word <> START -> prev_word <> END ->
      sum (Dict.values (row_of B prev_word)) = Counter_get U prev_word).
Proof.
  intros U B n. split.
  - apply trained_row_sum.
  - apply trained_row_sum_inner.
Qed.

Lemma row_sum_is_unigram_count_witness :
  sum (Dict.values (row_of (bigram_counts (trained corpus_aaaab)) "a")) =
  Counter_get (unigram_counts (trained corpus_aaaab)) "a".
Proof.
  refine (proj2 (row_sum_is_unigram_count corpus_aaaab "a") _ _);
    discriminate.
Defined.

(** ** The vocabulary *)

Lemma In_unigram_tokens sentences w :
  In w (unigram_tokens sentences) <->
  exists sentence,
    In sentence sentences /\ (w = END \/ In w (map lower sentence)).
Proof.
  unfold unigram_tokens. rewrite in_flat_map.
  split; intros (sentence & Hs & Hw); exists sentence; (split; [exact Hs|]).
  - unfold convert_sentence in Hw. cbn [app tl] in Hw.
    apply in_app_iff in Hw as [Hw|[<-|[]]]; [now right | now left].
  - unfold convert_sentence. cbn [app tl]. apply in_app_iff.
    destruct Hw as [->|Hw]; [right; now left | now left].
Qed.

Lemma trained_Counter_ok sentences :
  Counter_ok (unigram_counts (trained sentences)).
Proof. rewrite trained_tables. apply Counter_ok_fold, Counter_ok_nil. Qed.

Lemma trained_vocabulary sentences w :
  In w (Dict.keys (unigram_counts (trained sentences))) <->
  exists sentence,
    In sentence sentences /\ (w = END \/ In w (map lower sentence)).
Proof.
  rewrite (Counter_ok_In _ w (trained_Counter_ok sentences)).
  rewrite <- In_unigram_tokens, trained_tables. cbn [unigram_counts].
  rewrite Counter_get_fold, (count_occ_In string_dec).
  change (Counter_get [] w) with 0. lia.
Qed.

(** X6. The keys of the unigram table are distinct, and they are END (as
    soon as there is a sentence) and the lower-cased tokens of the corpus;
    so START is a key only when some token lower-cases to START, and
    [len(unigram_counts)] is the number of distinct such tokens. *)
Theorem vocabulary_is_lowercased_tokens sentences w :
  let U := unigram_counts (trained sentences) in
  NoDup (Dict.keys U)
  /\ (In w (Dict.keys U) <->
      exists sentence,
        In sentence sentences /\ (w = END \/ In w (map lower sentence)))
  /\ (In START (Dict.keys U) <->
      exists sentence tok,
        In sentence sentences /\ In tok sentence /\ lower tok = START)
  /\ Dict.len U = VocabularySize U.
Proof.
  intros U. pose proof (trained_Counter_ok sentences) as Hok. fold U in Hok.
  split; [apply Hok | split; [apply trained_vocabulary | split]].
  - unfold U. rewrite trained_vocabulary. split.
    + intros (sentence & Hs & [He|Hin]); [discriminate|].
      apply in_map_iff in Hin as (tok & Htok & Hin). now exists sentence, tok.
    + intros (sentence & tok & Hs & Hin & Htok). exists sentence.
      split; [exact Hs | right]. rewrite <- Htok. now apply in_map.
  - symmetry. now apply VocabularySize_len.
Qed.

(** ** Case folding *)

Lemma lower_ascii_idempotent c : lower_ascii (lower_ascii c) = lower_ascii c.
Proof. destruct c as [[] [] [] [] [] [] [] []]; reflexivity. Qed.

Lemma lower_idempotent w : lower (lower w) = lower w.
Proof.
  induction w as [|c w IH]; [reflexivity|].
  simpl. now rewrite lower_ascii_idempotent, IH.
Qed.

Lemma convert_sentence_lower sentence :
  convert_sentence (map lower sentence) = convert_sentence sentence.
Proof.
  unfold convert_sentence. rewrite map_map. do 2 f_equal.
  apply map_ext. intros w. apply lower_idempotent.
Qed.

Lemma flat_map_map {A B C : Type} (f : B -> list C) (g : A -> B) l :
  flat_map f (map g l) = flat_map (fun a => f (g a)) l.
Proof.
  induction l as [|a l IH]; [reflexivity|]. simpl. now rewrite IH.
Qed.

Section LowercasedTestSet.
Context {P : Type}.
Variable smoothing_function : sentence -> Z -> R -> P -> M R.
Variables (start_count : Z) (token_count : R) (parameter : P).
Hypothesis folds_case :
  forall sentence,
    smoothing_function (map lower sentence) start_count token_count parameter
    = smoothing_function sentence start_count token_count parameter.

Lemma perplexity_loop_lower sentences :
  forall total_log_prob test_token_count s,
    perplexity_loop smoothing_function start_count token_count parameter
      (map (map lower) sentences) total_log_prob test_token_count s =
    perplexity_loop smoothing_function start_count token_count parameter
      sentences total_log_prob test_token_count s.
Proof.
  induction sentences as [|x rest IH]; intros total count s; [reflexivity|].
  cbn [map perplexity_loop]. rewrite length_map. unfold bind.
  rewrite folds_case.
  destruct (smoothing_function x start_count token_count parameter s)
    as [[lp|e] s1]; [apply IH | reflexivity].
Qed.

Lemma calculate_perplexity_lower sentences s :
  calculate_perplexity smoothing_function start_count token_count parameter
    (map (map lower) sentences) s =
  calculate_perplexity smoothing_function start_count token_count parameter
    sentences s.
Proof.
  unfold calculate_perplexity, bind. now rewrite perplexity_loop_lower.
Qed.
End LowercasedTestSet.

(** X7. Lower-casing is idempotent, so lower-casing the input beforehand
    changes nothing: the counts of a lower-cased corpus, the scores of a
    lower-cased sentence and the perplexity of a lower-cased test set (as
    the notebook builds its test set) are those of the original. *)
Theorem lowercased_input_is_equivalent
    (sentences : list sentence) (sentence : sentence)
    (start_count : Z) (token_count k : R) (lambdas : R * R) (s : store) :
  get_counts (map (map lower) sentences) = get_counts sentences
  /\ get_sent_log_prob_addk (map lower sentence) start_count token_count k s
     = get_sent_log_prob_addk sentence start_count token_count k s
  /\ get_sent_log_prob_interp (map lower sentence) start_count token_count
       lambdas s
     = get_sent_log_prob_interp sentence start_count token_count lambdas s
  /\ calculate_perplexity get_sent_log_prob_addk start_count token_count k
       (map (map lower) sentences) s
     = calculate_perplexity get_sent_log_prob_addk start_count token_count k
         sentences s
  /\ calculate_perplexity get_sent_log_prob_interp start_count token_count
       lambdas (map (map lower) sentences) s
     = calculate_perplexity get_sent_log_prob_interp start_count token_count
         lambdas sentences s.
Proof.
  assert (Haddk : forall x,
             get_sent_log_prob_addk (map lower x) start_count token_count k
             = get_sent_log_prob_addk x start_count token_count k).
  { intros x. unfold get_sent_log_prob_addk.
    now rewrite convert_sentence_lower. }
  assert (Hinterp : forall x,
             get_sent_log_prob_interp (map lower x) start_count token_count
               lambdas
             = get_sent_log_prob_interp x start_count token_count lambdas).
  { intros x. unfold get_sent_log_prob_interp.
    now rewrite convert_sentence_lower. }
  split; [|split; [|split; [|split]]].
  - unfold get_counts. rewrite !count_unigrams_flat, !count_bigrams_flat.
    unfold unigram_tokens, corpus_bigrams. rewrite !flat_map_map, length_map.
    rewrite (flat_map_ext _ (fun s0 => tl (convert_sentence s0)))
      by (intros x; now rewrite convert_sentence_lower).
    rewrite (flat_map_ext _ (fun s0 => bigram_list (convert_sentence s0)))
      by (intros x; now rewrite convert_sentence_lower).
    reflexivity.
  - now rewrite Haddk.
  - now rewrite Hinterp.
  - now apply calculate_perplexity_lower.
  - now apply calculate_perplexity_lower.
Qed.

(** ** Add-k as a distribution over the vocabulary *)

Lemma sum_map_point (L : list token) (k0 : token) (v0 : Z) (g : token -> Z) :
  NoDup L -> In k0 L ->
  sum (map (fun w => if String.eqb k0 w then v0 else g w) L) =
  v0 + sum (map g L) - g k0.
Proof.
  induction L as [|x L IH]; intros Hnd Hin; [contradiction|].
  inversion Hnd as [|? ? Hx Hnd']; subst. cbn [map]. rewrite !sum_cons.
  destruct Hin as [->|Hin].
  - rewrite String.eqb_refl.
    assert (E : map (fun w => if String.eqb k0 w then v0 else g w) L = map g L).
    { apply map_ext_in. intros w Hw.
      destruct (String.eqb_spec k0 w); [congruence | reflexivity]. }
    rewrite E. lia.
  - rewrite (IH Hnd' Hin).
    destruct (String.eqb_spec k0 x); [congruence | lia].
Qed.

Lemma sum_map_zero (L : list token) (g : token -> Z) :
  (forall w, In w L -> g w = 0) -> sum (map g L) = 0.
Proof.
  induction L as [|x L IH]; intros Hg; [reflexivity|].
  cbn [map]. rewrite sum_cons, (Hg x) by now left.
  rewrite IH; [lia|]. intros w Hw. apply Hg. now right.
Qed.

(** The counts of a row, added up over a list of distinct tokens that
    holds all its keys, give the sum of its values. *)
Lemma sum_Counter_get_over (row : Counter) (L : list token) :
  NoDup (Dict.keys row) -> NoDup L -> incl (Dict.keys row) L ->
  sum (map (Counter_get row) L) = sum (Dict.values row).
Proof.
  induction row as [|[k0 v0] row IH]; intros Hrow HL Hincl.
  - unfold Dict.values. cbn [map]. apply sum_map_zero. reflexivity.
  - inversion Hrow as [|? ? Hk0 Hrow']; subst.
    unfold Dict.values. cbn [map snd]. rewrite sum_cons.
    assert (E : map (Counter_get ((k0, v0) :: row)) L =
                map (fun w => if String.eqb k0 w then v0
                              else Counter_get row w) L).
    { apply map_ext. intros w. unfold Counter_get. simpl.
      now destruct (String.eqb k0 w). }
    rewrite E, sum_map_point; [|exact HL | apply Hincl; now left].
    fold (Dict.values row). rewrite IH; try assumption.
    + assert (H0 : Counter_get row k0 = 0).
      { unfold Counter_get. apply find_None_keys in Hk0. now rewrite Hk0. }
      lia.
    + intros w Hw. apply Hincl. now right.
Qed.

Lemma fsum_addk (c : token -> Z) (k D : R) (L : list token) :
  fsum (map (fun w => ((IZR (c w) + k) / D)%R) L) =
  ((IZR (sum (map c L)) + k * IZR (Z.of_nat (length L))) / D)%R.
Proof.
  induction L as [|x L IH].
  - unfold fsum, sum. simpl. lra.
  - cbn [map length]. rewrite fsum_cons, IH, sum_cons, plus_IZR.
    rewrite Nat2Z.inj_succ, succ_IZR. lra.
Qed.

(** X8. On the tables of a non-empty corpus and for k > 0, the Add-k
    probabilities of the words of the vocabulary after a conditioning token
    other than START and END add up to 1; after START they add up to
    1 + StartCount / (UnigramCounts[START] + k * VocabularySize), which is
    more than 1. *)
Theorem addk_probabilities_add_up sentences prev_word (k : R) :
  let U := unigram_counts (trained sentences) in
  let B := bigram_counts (trained sentences) in
  let mass p := fsum (map (fun w => addk_prob U B p w k) (Dict.keys U)) in
  sentences <> [] -> (0 < k)%R ->
  (prev_word <> START -> prev_word <> END -> mass prev_word = 1%R)
  /\ mass START =
     (1 + IZR (Z.of_nat (length sentences))
          / (IZR (Counter_get U START) + k * IZR (Dict.len U)))%R
  /\ (1 < mass START)%R.
Proof.
  intros U B mass Hne Hk.
  assert (HU : Counter_ok U).
  { unfold U. rewrite trained_tables. apply Counter_ok_fold, Counter_ok_nil. }
  pose proof (trained_rows_ok sentences) as HB. fold B in HB.
  assert (Hlen : 0 < Dict.len U).
  { apply (proj1 (proj2 (readable_trained sentences Hne))). }
  assert (Hmass : forall p,
             mass p = ((IZR (sum (Dict.values (row_of B p)))
                        + k * IZR (Dict.len U))
                       / (IZR (Counter_get U p) + k * IZR (Dict.len U)))%R).
  { intros p. unfold mass, addk_prob.
    rewrite (fsum_addk (fun w => bigram_count B p w)).
    rewrite <- len_keys. do 3 f_equal.
    rewrite (map_ext _ (Counter_get (row_of B p)))
      by (intros w; apply bigram_count_row).
    apply sum_Counter_get_over.
    - apply (row_of_ok B p HB).
    - apply HU.
    - intros w Hw. apply (trained_successor sentences) in Hw.
      destruct (corpus_bigrams_In sentences p w Hw) as (sentence & Hs & _ & Hin).
      apply (trained_vocabulary sentences w).
      exists sentence. split; [exact Hs|].
      apply in_app_iff in Hin as [Hin|[<-|[]]]; [now right | now left]. }
  pose proof (trained_row_sum sentences START) as HS. fold U B in HS.
  change (String.eqb START END) with false in HS.
  change (String.eqb START START) with true in HS.
  rewrite Z.add_0_r in HS.
  assert (Hden : forall p,
             (0 < IZR (Counter_get U p) + k * IZR (Dict.len U))%R).
  { intros p. now apply addk_denominator_pos. }
  split; [|split].
  - intros Hs He. rewrite Hmass. unfold B, U.
    rewrite (trained_row_sum_inner sentences prev_word Hs He). fold U.
    apply Rdiv_diag. pose proof (Hden prev_word). lra.
  - rewrite Hmass, HS, plus_IZR.
    pose proof (Hden START). field. lra.
  - rewrite Hmass, HS, plus_IZR.
    pose proof (Hden START) as HD.
    assert (Hn : (0 < IZR (Z.of_nat (length sentences)))%R).
    { apply IZR_lt. destruct sentences; [congruence | simpl; lia]. }
    apply (Rmult_lt_reg_r _ _ _ HD).
    unfold Rdiv. rewrite Rmult_assoc, Rinv_l by lra. lra.
Qed.

Lemma addk_probabilities_add_up_witness :
  fsum (map (fun w => addk_prob (unigram_counts (trained corpus_ab))
                        (bigram_counts (trained corpus_ab)) "a" w 1)
          (Dict.keys (unigram_counts (trained corpus_ab)))) = 1%R.
Proof.
  refine (proj1 (addk_probabilities_add_up corpus_ab "a" 1 _ _) _ _);
    try discriminate. lra.
Defined.

(** ** Bounds on the estimates *)

Lemma get_counts_trained sentences :
  exists sc tc,
    get_counts sentences =
    (unigram_counts (trained sentences), bigram_counts (trained sentences),
     sc, tc).
Proof.
  unfold trained. destruct (get_counts sentences) as [[[U B] sc] tc].
  now exists sc, tc.
Qed.

Lemma ln_at_most_zero x : (0 < x <= 1)%R -> (ln x <= 0)%R.
Proof.
  intros [H0 H1]. rewrite <- ln_1. destruct H1 as [H1| ->].
  - left. now apply ln_increasing.
  - apply Rle_refl.
Qed.

(** X9. In exact arithmetic, on the tables of a non-empty corpus and for
    k > 0, the Add-k quotient (BigramCounts[prev][word] + k) /
    (UnigramCounts[prev] + k * VocabularySize) lies in (0, 1] for every
    conditioning token other than START, whether or not the pair or its
    tokens were seen; its logarithm is at most 0. *)
Theorem addk_prob_bounded sentences prev_word word (k : R) :
  sentences <> [] -> prev_word <> START -> (0 < k)%R ->
  let p :=
    addk_prob (unigram_counts (trained sentences))
      (bigram_counts (trained sentences)) prev_word word k in
  (0 < p <= 1)%R /\ (ln p <= 0)%R.
Proof.
  intros Hne Hp Hk p.
  pose proof (readable_trained sentences Hne) as Hr.
  destruct (get_counts_trained sentences) as (sc & tc & Hc).
  pose proof (addk_prob_le_1 _ _ _ _ _ Hc prev_word word k Hne Hp Hk) as Hle.
  pose proof (readable_addk_prob_pos _ prev_word word k Hr Hk) as Hpos.
  split; [now split|]. apply ln_at_most_zero. now split.
Qed.

Lemma addk_prob_bounded_witness :
  (0 < addk_prob (unigram_counts (trained corpus_ab))
         (bigram_counts (trained corpus_ab)) "a" "zebra" 1 <= 1)%R
  /\ (ln (addk_prob (unigram_counts (trained corpus_ab))
            (bigram_counts (trained corpus_ab)) "a" "zebra" 1) <= 0)%R.
Proof.
  apply (addk_prob_bounded corpus_ab "a" "zebra" 1); try discriminate. lra.
Defined.

(** X10. With k = 0 the Add-k estimator is the unsmoothed estimate and is
    not total: it raises ZeroDivisionError when the conditioning token has
    the unigram count 0, raises ValueError when that count is positive and
    the pair has the count 0, and returns log(BigramCounts[prev][word] /
    UnigramCounts[prev]) when both are positive. *)
Theorem get_log_prob_addk_unsmoothed (s : store) prev_word word :
  let U := unigram_counts s in
  let B := bigram_counts s in
  (Counter_get U prev_word = 0 ->
   fst (get_log_prob_addk prev_word word 0 s) = Raise ZeroDivisionError)
  /\ (0 < Counter_get U prev_word -> bigram_count B prev_word word = 0 ->
      fst (get_log_prob_addk prev_word word 0 s) = Raise ValueError)
  /\ (0 < Counter_get U prev_word -> 0 < bigram_count B prev_word word ->
      fst (get_log_prob_addk prev_word word 0 s) =
      Ret (ln (IZR (bigram_count B prev_word word)
               / IZR (Counter_get U prev_word)))).
Proof.
  intros U B. rewrite get_log_prob_addk_run. cbn [fst]. fold U B.
  unfold addk_prob. cbv zeta.
  rewrite Rmult_0_l, !Rplus_0_r.
  split; [|split].
  - intros E. rewrite E. destruct (Req_dec_T 0 0); [reflexivity | lra].
  - intros HU HB. apply IZR_lt in HU. rewrite HB.
    destruct (Req_dec_T _ 0); [lra|].
    destruct (Rlt_dec 0 _) as [Hlt|_]; [|reflexivity].
    unfold Rdiv in Hlt. rewrite Rmult_0_l in Hlt. lra.
  - intros HU HB. apply IZR_lt in HU, HB.
    destruct (Req_dec_T _ 0); [lra|].
    destruct (Rlt_dec 0 _) as [_|Hn]; [reflexivity|].
    exfalso. apply Hn. now apply Rdiv_lt_0_compat.
Qed.

Lemma get_log_prob_addk_unsmoothed_witness :
  fst (get_log_prob_addk "a" "b" 0 (trained corpus_ab)) =
  Ret (ln (IZR (bigram_count (bigram_counts (trained corpus_ab)) "a" "b")
           / IZR (Counter_get (unigram_counts (trained corpus_ab)) "a"))).
Proof.
  refine (proj2 (proj2 (get_log_prob_addk_unsmoothed (trained corpus_ab)
                          "a" "b")) _ _);
    unfold corpus_ab; eval_tables; eval_counts; lia.
Defined.

Lemma Counter_get_le_sum (c : Counter) w :
  Counter_ok c -> Counter_get c w <= sum (Dict.values c).
Proof.
  intros [_ Hpos]. unfold Counter_get.
  induction c as [|[k0 v0] c IH]; [unfold sum; simpl; lia|].
  inversion Hpos as [|? ? Hv Hpos']; subst. unfold positive_entry in Hv.
  simpl in Hv. unfold Dict.values. cbn [map snd Dict.find]. rewrite sum_cons.
  fold (Dict.values c). specialize (IH Hpos').
  assert (0 <= sum (Dict.values c)).
  { clear - Hpos'. induction c as [|[k v] c IH]; [unfold sum; simpl; lia|].
    inversion Hpos' as [|? ? Hv H]; subst. unfold positive_entry in Hv.
    simpl in Hv. unfold Dict.values. cbn [map snd]. rewrite sum_cons.
    specialize (IH H). unfold Dict.values in IH. lia. }
  destruct (String.eqb k0 w); [lia|].
  destruct (Dict.find c w); lia.
Qed.

Section CollectedBounds.
Variable sentences : list sentence.
Variables (U : Counter) (B : defaultdict) (sc : Z) (tc : R).
Hypothesis collected : get_counts sentences = (U, B, sc, tc).
Hypothesis nonempty : sentences <> [].
Hypothesis no_START :
  forall sentence tok,
    In sentence sentences -> In tok sentence -> lower tok <> START.

Lemma collected_trained : trained sentences = mkStore U B.
Proof. unfold trained. now rewrite collected. Qed.

Lemma collected_START_unseen : Counter_get U START = 0.
Proof.
  pose proof (trained_vocabulary sentences START) as Hv.
  rewrite collected_trained in Hv. cbn [unigram_counts] in Hv.
  destruct (Dict.find U START) as [n|] eqn:E.
  - exfalso. apply find_Some_In in E.
    assert (Hin : In START (Dict.keys U)).
    { change START with (fst (START, n)). now apply in_map. }
    apply Hv in Hin as (sentence & Hs & [He|Hin]); [discriminate|].
    apply in_map_iff in Hin as (tok & Htok & Hin).
    now apply (no_START sentence tok).
  - unfold Counter_get. now rewrite E.
Qed.

Lemma collected_bigram_le_conditioning p w :
  bigram_count B p w <= conditioning_count U sc p.
Proof.
  unfold conditioning_count. destruct (String.eqb_spec p START) as [->|Hne].
  - pose proof (trained_row_sum sentences START) as Hrow.
    rewrite collected_trained in Hrow. cbn [unigram_counts bigram_counts] in Hrow.
    change (String.eqb START END) with false in Hrow.
    change (String.eqb START START) with true in Hrow.
    rewrite collected_START_unseen in Hrow.
    rewrite (collected_start_count _ _ _ _ _ collected).
    rewrite bigram_count_row.
    pose proof (Counter_get_le_sum (row_of B START) w
                  (row_of_ok B START (collected_rows_ok _ _ _ _ _ collected))).
    lia.
  - now apply (collected_bigram_le_unigram _ _ _ _ _ collected).
Qed.

(** The mixture of the interpolated estimator is at most one. *)
Lemma mixture_le_1 p w (bigramWeight unigramWeight : R) :
  (0 <= bigramWeight)%R -> (0 <= unigramWeight)%R ->
  (bigramWeight + unigramWeight < 1)%R ->
  (mixture U B sc tc p w (bigramWeight, unigramWeight) <= 1)%R.
Proof.
  intros Hb Hu Hz.
  pose proof (collected_token_count_pos _ _ _ _ _ collected nonempty) as Htc.
  pose proof (collected_vocabulary _ _ _ _ _ collected nonempty) as Hlen.
  pose proof (collected_Counter_ok _ _ _ _ _ collected) as HU.
  unfold mixture. cbn [fst snd].
  assert (H1 : (bigramTerm U B sc p w bigramWeight <= bigramWeight)%R).
  { unfold bigramTerm. cbv zeta. destruct (Req_dec_T _ 0) as [_|Hprod]; [lra|].
    assert (Hc : bigram_count B p w <> 0).
    { intros E. apply Hprod. rewrite E. lra. }
    pose proof (IZR_lt _ _ (collected_conditioning_count _ _ _ _ _ collected
                              p w Hc)) as Hcond.
    pose proof (IZR_le _ _ (collected_bigram_le_conditioning p w)) as Hle.
    apply (Rmult_le_reg_r _ _ _ Hcond).
    unfold Rdiv. rewrite Rmult_assoc, Rinv_l by lra. nra. }
  assert (H2 : (unigramTerm U tc w unigramWeight <= unigramWeight)%R).
  { unfold unigramTerm.
    pose proof (IZR_le _ _ (Counter_get_le_sum U w HU)) as Hle.
    rewrite <- (collected_token_count _ _ _ _ _ collected) in Hle.
    pose proof (IZR_le _ _ (Counter_get_nonneg U w HU)) as Hge.
    assert (IZR (Counter_get U w) / tc <= 1)%R.
    { apply (Rmult_le_reg_r _ _ _ Htc).
      unfold Rdiv. rewrite Rmult_assoc, Rinv_l by lra. lra. }
    nra. }
  assert (H3 : (zerogramTerm U bigramWeight unigramWeight
                <= 1 - bigramWeight - unigramWeight)%R).
  { unfold zerogramTerm.
    assert (HV : (1 <= IZR (Dict.len U))%R) by (apply IZR_le; lia).
    assert (1 / IZR (Dict.len U) <= 1)%R.
    { apply (Rmult_le_reg_r (IZR (Dict.len U))); [lra|].
      unfold Rdiv. rewrite Rmult_assoc, Rinv_l by lra. lra. }
    nra. }
  lra.
Qed.
End CollectedBounds.

(** X11. In exact arithmetic, on the tables and counts that [get_counts]
    returns for a non-empty corpus none of whose tokens lower-cases to
    START, and with weights that are not negative and add up to less than
    1, the mixture bigramTerm + unigramTerm + zerogramTerm of the
    interpolated estimator lies in (0, 1] for every pair of tokens, seen or
    not; its logarithm is at most 0. *)
Theorem mixture_bounded sentences U B sc tc prev_word word
    (bigramWeight unigramWeight : R) :
  get_counts sentences = (U, B, sc, tc) ->
  sentences <> [] ->
  (forall sentence tok,
      In sentence sentences -> In tok sentence -> lower tok <> START) ->
  (0 <= bigramWeight)%R -> (0 <= unigramWeight)%R ->
  (bigramWeight + unigramWeight < 1)%R ->
  let m := mixture U B sc tc prev_word word (bigramWeight, unigramWeight) in
  (0 < m <= 1)%R /\ (ln m <= 0)%R.
Proof.
  intros Hc Hne Hwf Hb Hu Hz m.
  pose proof (get_log_prob_interp_collected _ _ _ _ _ Hc prev_word word
                bigramWeight unigramWeight Hne Hb Hu Hz) as Hrun.
  pose proof (mixture_le_1 _ _ _ _ _ Hc Hne Hwf prev_word word
                bigramWeight unigramWeight Hb Hu Hz) as Hle.
  assert (Hpos : (0 < m)%R).
  { rewrite get_log_prob_interp_run in Hrun. cbn [fst] in Hrun.
    cbn [unigram_counts bigram_counts] in Hrun. cbv zeta in Hrun.
    destruct (Rlt_dec 0 _) as [H|H]; [exact H|].
    repeat match type of Hrun with
           | context [Req_dec_T ?a ?b] => destruct (Req_dec_T a b)
           end; discriminate. }
  split; [now split|]. apply ln_at_most_zero. now split.
Qed.

Lemma mixture_bounded_witness :
  (0 < mixture (unigram_counts (trained corpus_ab))
         (bigram_counts (trained corpus_ab)) 1 3 "zebra" "b" (1 / 2, 1 / 4)
   <= 1)%R
  /\ (ln (mixture (unigram_counts (trained corpus_ab))
            (bigram_counts (trained corpus_ab)) 1 3 "zebra" "b"
            (1 / 2, 1 / 4)) <= 0)%R.
Proof.
  apply (mixture_bounded corpus_ab); try lra.
  - reflexivity.
  - discriminate.
  - intros sentence tok [<-|[]] [<-|[<-|[]]]; discriminate.
Defined.

(** ** Results do not depend on the rows that reads insert *)

Lemma same_reads_refl s : same_reads s s.
Proof. now split. Qed.

Lemma extends_same_reads s s' : extends s s' -> same_reads s s'.
Proof.
  intros H. split.
  - symmetry. now apply extends_unigram_counts.
  - intros p. symmetry. now apply extends_row_of.
Qed.

Lemma same_reads_probe s s' prev_word :
  same_reads s s' -> same_reads (probe s prev_word) (probe s' prev_word).
Proof.
  intros [Hu Hrows]. split; [exact Hu|]. intros p.
  rewrite (extends_row_of _ _ p (probe_extends s prev_word)).
  rewrite (extends_row_of _ _ p (probe_extends s' prev_word)).
  apply Hrows.
Qed.

Lemma respects_ret {A} (a : A) : respects (ret a).
Proof. intros s s' H. now split. Qed.

Lemma respects_raise {A} e : respects (@raise A e).
Proof. intros s s' H. now split. Qed.

Lemma respects_bind {A B} (m : M A) (f : A -> M B) :
  respects m -> (forall a, respects (f a)) -> respects (bind m f).
Proof.
  intros Hm Hf s s' H. unfold bind. destruct (Hm s s' H) as [Hv Hs].
  destruct (m s) as [[a|e] s1], (m s') as [[a'|e'] s1'];
    cbn [fst snd] in *; try discriminate.
  - injection Hv as <-. now apply Hf.
  - injection Hv as <-. now split.
Qed.

Lemma respects_mapM {A B} (f : A -> M B) l :
  (forall a, respects (f a)) -> respects (mapM f l).
Proof.
  intros Hf. induction l as [|a l IH]; simpl; [apply respects_ret|].
  apply respects_bind; [apply Hf|]. intros b.
  apply respects_bind; [exact IH|]. intros bs. apply respects_ret.
Qed.

Lemma respects_the_unigram_counts : respects the_unigram_counts.
Proof.
  intros s s' H. unfold the_unigram_counts. cbn [fst snd].
  split; [|exact H]. now rewrite (proj1 H).
Qed.

Lemma respects_bigram_row prev_word : respects (bigram_row prev_word).
Proof.
  intros s s' H. rewrite !bigram_row_run. cbn [fst snd]. split.
  - now rewrite (proj2 H prev_word).
  - now apply same_reads_probe.
Qed.

Lemma respects_py_div a b : respects (py_div a b).
Proof. intros s s' H. rewrite !py_div_run. now split. Qed.

Lemma respects_math_log x : respects (math_log x).
Proof. intros s s' H. rewrite !math_log_run. now split. Qed.

Lemma respects_prob_div count total_counts :
  respects (prob_div count total_counts).
Proof.
  unfold prob_div. destruct (total_counts =? 0);
    [apply respects_raise | apply respects_ret].
Qed.

Lemma respects_choice a p u : respects (choice a p u).
Proof.
  unfold choice. destruct a; [apply respects_raise|].
  destruct (negb _); [apply respects_raise|].
  destruct (negb _); [apply respects_raise|].
  destruct (negb _); [apply respects_raise|].
  destruct (searchsorted _ _ _); [apply respects_ret | apply respects_raise].
Qed.

Create HintDb respects.
#[local] Hint Resolve respects_ret respects_raise respects_the_unigram_counts
  respects_bigram_row respects_py_div respects_math_log respects_prob_div
  respects_choice : respects.

Ltac respects_step :=
  first [ apply respects_bind; [| intro]
        | apply respects_mapM; intro
        | solve [auto with respects] ].

Lemma respects_get_log_prob_addk prev_word word k :
  respects (get_log_prob_addk prev_word word k).
Proof. unfold get_log_prob_addk. repeat respects_step. Qed.

Lemma respects_get_log_prob_interp prev_word word start_count token_count
    lambdas :
  respects (get_log_prob_interp prev_word word start_count token_count lambdas).
Proof.
  unfold get_log_prob_interp. cbv zeta.
  apply respects_bind; [auto with respects | intro row].
  apply respects_bind.
  - destruct (Req_dec_T _ 0); repeat respects_step.
  - intro. repeat respects_step.
Qed.

Lemma respects_get_sent_log_prob_addk sentence start_count token_count k :
  respects (get_sent_log_prob_addk sentence start_count token_count k).
Proof.
  unfold get_sent_log_prob_addk. cbv zeta.
  apply respects_bind; [|intro; apply respects_ret].
  apply respects_mapM. intros [prev_word word].
  apply respects_get_log_prob_addk.
Qed.

Lemma respects_get_sent_log_prob_interp sentence start_count token_count
    lambdas :
  respects (get_sent_log_prob_interp sentence start_count token_count lambdas).
Proof.
  unfold get_sent_log_prob_interp. cbv zeta.
  apply respects_bind; [|intro; apply respects_ret].
  apply respects_mapM. intros [prev_word word].
  apply respects_get_log_prob_interp.
Qed.

Lemma respects_generate_loop draws :
  forall current_word sentence,
    respects (generate_loop draws current_word sentence).
Proof.
  induction draws as [|u draws IH]; intros current_word sentence; simpl.
  - destruct (String.eqb current_word END); apply respects_ret.
  - destruct (String.eqb current_word END); [apply respects_ret|].
    apply respects_bind; [auto with respects | intro row].
    apply respects_bind; [apply respects_mapM; intro; auto with respects
                         | intro].
    apply respects_bind; [auto with respects | intro]. apply IH.
Qed.

Lemma respects_generate_sentence draws : respects (generate_sentence draws).
Proof.
  unfold generate_sentence, generate_tokens.
  apply respects_bind; [|intro; apply respects_ret].
  apply respects_bind; [apply respects_generate_loop
                       | intro; apply respects_ret].
Qed.

Section RespectsPerplexity.
Context {P : Type}.
Variable smoothing_function : sentence -> Z -> R -> P -> M R.
Variables (start_count : Z) (token_count : R) (parameter : P).
Hypothesis respects_smoothing_function :
  forall sentence,
    respects (smoothing_function sentence start_count token_count parameter).

Lemma respects_calculate_perplexity sentences :
  respects (calculate_perplexity smoothing_function start_count token_count
              parameter sentences).
Proof.
  unfold calculate_perplexity. apply respects_bind.
  - generalize 0%R at 1. generalize 0 at 1.
    induction sentences as [|x rest IH]; intros count total; simpl;
      [apply respects_ret|].
    apply respects_bind; [apply respects_smoothing_function | intro; apply IH].
  - intros [total count]. apply respects_bind; [auto with respects|].
    intro. apply respects_ret.
Qed.
End RespectsPerplexity.

(** X12. The rows that earlier calls inserted into BigramCounts never
    change a later result: on a store that extends another one, both
    estimators, both sentence scorers, the generator and the perplexity
    evaluator return the same outcome as on the original store. *)
Theorem results_ignore_inserted_rows (s s' : store)
    (prev_word word : token) (sentences : list sentence)
    (test_sentence : sentence)
    (start_count : Z) (token_count k : R) (lambdas : R * R)
    (draws : list Q) :
  extends s s' ->
  fst (get_log_prob_addk prev_word word k s') =
    fst (get_log_prob_addk prev_word word k s)
  /\ fst (get_log_prob_interp prev_word word start_count token_count
            lambdas s') =
     fst (get_log_prob_interp prev_word word start_count token_count
            lambdas s)
  /\ fst (get_sent_log_prob_addk test_sentence start_count token_count k s') =
     fst (get_sent_log_prob_addk test_sentence start_count token_count k s)
  /\ fst (get_sent_log_prob_interp test_sentence start_count token_count
            lambdas s') =
     fst (get_sent_log_prob_interp test_sentence start_count token_count
            lambdas s)
  /\ fst (generate_sentence draws s') = fst (generate_sentence draws s)
  /\ fst (calculate_perplexity get_sent_log_prob_addk start_count
            token_count k sentences s') =
     fst (calculate_perplexity get_sent_log_prob_addk start_count
            token_count k sentences s)
  /\ fst (calculate_perplexity get_sent_log_prob_interp start_count
            token_count lambdas sentences s') =
     fst (calculate_perplexity get_sent_log_prob_interp start_count
            token_count lambdas sentences s).
Proof.
  intros Hext. apply extends_same_reads in Hext.
  repeat split; symmetry.
  - apply (respects_get_log_prob_addk _ _ _ _ _ Hext).
  - apply (respects_get_log_prob_interp _ _ _ _ _ _ _ Hext).
  - apply (respects_get_sent_log_prob_addk _ _ _ _ _ _ Hext).
  - apply (respects_get_sent_log_prob_interp _ _ _ _ _ _ Hext).
  - apply (respects_generate_sentence _ _ _ Hext).
  - apply (respects_calculate_perplexity get_sent_log_prob_addk _ _ _
             (fun x => respects_get_sent_log_prob_addk x _ _ _) _ _ _ Hext).
  - apply (respects_calculate_perplexity get_sent_log_prob_interp _ _ _
             (fun x => respects_get_sent_log_prob_interp x _ _ _) _ _ _ Hext).
Qed.

Lemma results_ignore_inserted_rows_witness :
  fst (get_sent_log_prob_addk ["x"; "b"] 1 3 1
         (snd (get_log_prob_addk "x" "a" 1 (trained corpus_ab)))) =
  fst (get_sent_log_prob_addk ["x"; "b"] 1 3 1 (trained corpus_ab)).
Proof.
  refine (proj1 (proj2 (proj2
            (results_ignore_inserted_rows (trained corpus_ab)
               (snd (get_log_prob_addk "x" "a" 1 (trained corpus_ab)))
               "a" "b" [] ["x"; "b"] 1 3 1 (1, 0)%R [] _)))).
  apply frames_get_log_prob_addk.
Defined.

(** ** What the generator emits *)

Lemma generate_loop_missing_row u draws current_word sentence s :
  current_word <> END ->
  row_of (bigram_counts s) current_word = [] ->
  generate_loop (u :: draws) current_word sentence s =
  (Raise ValueError, probe s current_word).
Proof.
  intros Hne Hrow. cbn [generate_loop].
  destruct (String.eqb_spec current_word END); [contradiction|].
  unfold bind at 1. rewrite bigram_row_run, Hrow. reflexivity.
Qed.

(** X13. When the current word has no row in BigramCounts, or an empty
    one, the generator raises ValueError at its first draw; if the row was
    missing, the failed call has inserted it: BigramCounts then has the key
    START with an empty row. *)
Theorem generate_sentence_without_START_row (s : store) (u : Q)
    (draws : list Q) :
  (row_of (bigram_counts s) START = [] ->
   fst (generate_sentence (u :: draws) s) = Raise ValueError)
  /\ (~ In START (Dict.keys (bigram_counts s)) ->
      generate_sentence (u :: draws) s =
      (Raise ValueError,
       mkStore (unigram_counts s) (bigram_counts s ++ [(START, [])]))).
Proof.
  split.
  - intros Hrow. unfold generate_sentence, generate_tokens, bind.
    rewrite generate_loop_missing_row; [reflexivity | discriminate | exact Hrow].
  - intros Hin. unfold generate_sentence, generate_tokens, bind.
    rewrite generate_loop_missing_row; [|discriminate|].
    + now rewrite (probe_absent _ _ Hin).
    + apply find_None_keys in Hin. unfold row_of. now rewrite Hin.
Qed.

Lemma generate_sentence_without_START_row_witness :
  generate_sentence [0%Q] (mkStore [("a", 1)] [("a", [("b", 1)])]) =
  (Raise ValueError,
   mkStore [("a", 1)] ([("a", [("b", 1)])] ++ [(START, [])])).
Proof.
  refine (proj2 (generate_sentence_without_START_row
                   (mkStore [("a", 1)] [("a", [("b", 1)])]) 0 []) _).
  simpl. intros [H|[]]. discriminate.
Defined.

Lemma follows_bigram_list pairs w ws :
  follows pairs w ws -> incl (bigram_list (w :: ws)) pairs.
Proof.
  revert w. induction ws as [|x ws IH]; intros w Hf.
  - intros b [].
  - destruct Hf as [Hin Hf]. rewrite bigram_list_cons.
    intros b [<-|Hb]; [exact Hin | now apply (IH x Hf)].
Qed.

Lemma last_default {A : Type} (l : list A) (a b : A) :
  l <> [] -> last l a = last l b.
Proof.
  induction l as [|x [|y l] IH]; intros Hne; [congruence | reflexivity|].
  change (last (y :: l) a = last (y :: l) b). apply IH. discriminate.
Qed.

Section GeneratorPaths.
Variable sentences : list sentence.
Local Abbreviation s := (trained sentences).
Local Abbreviation B := (bigram_counts (trained sentences)).
Local Abbreviation pairs := (corpus_bigrams sentences).

Lemma generate_loop_follows draws :
  forall current_word sentence result s',
    current_word = END \/ In current_word (Dict.keys B) ->
    generate_loop draws current_word sentence s = (Ret (Some result), s') ->
    exists ws,
      result = sentence ++ ws /\ follows pairs current_word ws
      /\ (current_word <> END -> last ws current_word = END)
      /\ (forall w, In w (removelast ws) -> w <> END /\ lower w = w).
Proof.
  induction draws as [|u draws IH]; intros w sent result s' Hw Hrun.
  - destruct (string_dec w END) as [->|Hne].
    + rewrite generate_loop_END in Hrun. injection Hrun as <- _.
      exists []. rewrite app_nil_r. repeat split; try contradiction.
    + rewrite (generate_loop_nil _ _ _ Hne) in Hrun. discriminate.
  - destruct (string_dec w END) as [->|Hne].
    + rewrite generate_loop_END in Hrun. injection Hrun as <- _.
      exists []. rewrite app_nil_r. repeat split; try contradiction.
    + destruct Hw as [Hw|Hw]; [contradiction|].
      rewrite (generate_loop_step _ _ _ _ _ Hne Hw) in Hrun.
      destruct (searchsorted _ _ u) as [w'|] eqn:Hs; [|discriminate].
      destruct (sampled_word_row _ _ _ _ Hs) as [Hpair Hw'].
      destruct (IH _ _ _ _ Hw' Hrun) as (ws & -> & Hf & Hlast & Hbody).
      exists (w' :: ws). split; [now rewrite <- app_assoc|].
      split; [now split|]. split.
      * intros _. destruct (string_dec w' END) as [->|Hne'].
        { rewrite generate_loop_END in Hrun. injection Hrun as Hres _.
          apply (f_equal (@length token)) in Hres.
          rewrite !length_app in Hres. destruct ws; [reflexivity|].
          cbn [length] in Hres. unfold token in *. lia. }
        specialize (Hlast Hne'). destruct ws as [|x ws'].
        { simpl in Hlast. contradiction. }
        change (last (x :: ws') w = END).
        rewrite (last_default _ w w') by discriminate. exact Hlast.
      * intros x Hx. destruct ws as [|y ws'] eqn:Ews; [contradiction|].
        cbn [removelast] in Hx. destruct Hx as [<-|Hx].
        { destruct (string_dec w' END) as [->|Hne'].
          - rewrite generate_loop_END in Hrun. injection Hrun as Hres _.
            apply (f_equal (@length token)) in Hres.
            rewrite !length_app in Hres. cbn [length] in Hres.
            unfold token in *. lia.
          - split; [exact Hne'|].
            destruct (corpus_bigrams_In sentences w w' Hpair)
              as (sentence & _ & _ & Hin).
            apply in_app_iff in Hin as [Hin|[<-|[]]]; [|contradiction].
            apply in_map_iff in Hin as (tok & <- & _).
            apply lower_idempotent. }
        now apply Hbody.
Qed.
End GeneratorPaths.

(** X14. Whatever the draws, a sentence that the generator returns from
    the tables of a corpus is made of lower-cased tokens other than END, and
    every adjacent pair of its normalised form, from START through END, is
    a bigram that was counted in the corpus. *)
Theorem generate_sentence_follows_corpus (sentences : list sentence)
    (draws : list Q) (toks : list token) (s' : store) :
  generate_tokens draws (trained sentences) = (Ret (Some toks), s') ->
  convert_sentence toks = [START] ++ toks ++ [END]
  /\ ~ In END toks
  /\ forall prev_word word,
       In (prev_word, word) (bigram_list (convert_sentence toks)) ->
       0 < bigram_count (bigram_counts (trained sentences)) prev_word word.
Proof.
  intros Hrun. unfold generate_tokens, bind in Hrun.
  destruct (generate_loop draws START [START] (trained sentences))
    as [[[result|]|e] s1] eqn:Hloop; try discriminate.
  injection Hrun as <- <-.
  assert (Hkey : START = END \/
                 In START (Dict.keys (bigram_counts (trained sentences)))).
  { right.
    destruct (in_dec string_dec START
                (Dict.keys (bigram_counts (trained sentences)))) as [H|H];
      [exact H | exfalso].
    destruct draws as [|u draws].
    - rewrite generate_loop_nil in Hloop by discriminate. discriminate.
    - rewrite generate_loop_missing_row in Hloop; [discriminate..|].
      apply find_None_keys in H. unfold row_of. now rewrite H. }
  destruct (generate_loop_follows sentences draws _ _ _ _ Hkey Hloop)
    as (ws & -> & Hf & Hlast & Hbody).
  specialize (Hlast ltac:(discriminate)).
  assert (Hws : ws = removelast ws ++ [END]).
  { destruct ws as [|x ws']; [discriminate|].
    rewrite <- Hlast. apply app_removelast_last. discriminate. }
  assert (Hstrip : strip ([START] ++ ws) = removelast ws).
  { reflexivity. }
  rewrite Hstrip.
  assert (Hlow : map lower (removelast ws) = removelast ws).
  { rewrite <- (map_id (removelast ws)) at 2. apply map_ext_in.
    intros w Hw. now apply Hbody. }
  assert (Hconv : convert_sentence (removelast ws) =
                  [START] ++ removelast ws ++ [END]).
  { unfold convert_sentence. now rewrite Hlow. }
  split; [exact Hconv | split].
  - intros Hin. now destruct (Hbody END Hin).
  - intros p w Hin. rewrite Hconv, <- Hws in Hin.
    apply (follows_bigram_list _ _ _ Hf) in Hin.
    rewrite trained_bigram_count.
    apply (count_occ_In bigram_dec) in Hin. lia.
Qed.

Lemma generate_sentence_follows_corpus_witness :
  convert_sentence ["a"; "b"] = [START] ++ ["a"; "b"] ++ [END]
  /\ ~ In END ["a"; "b"]
  /\ forall prev_word word,
       In (prev_word, word) (bigram_list (convert_sentence ["a"; "b"])) ->
       0 < bigram_count (bigram_counts (trained corpus_ab)) prev_word word.
Proof.
  apply (generate_sentence_follows_corpus corpus_ab [0; 0; 0]%Q ["a"; "b"]
           (trained corpus_ab)).
  rewrite trained_tables. vm_compute. reflexivity.
Defined.

(** ** Exceptions of the scorer *)

(** X16. An exception of the sentence scorer ends the evaluation: when
    the scorer raises on some test sentence, [calculate_perplexity] raises
    the same exception and leaves the store that the scorer left. *)
Theorem calculate_perplexity_propagates {P : Type}
    (smoothing_function : sentence -> Z -> R -> P -> M R)
    (start_count : Z) (token_count : R) (parameter : P)
    (sentences : list sentence) (s s' : store) (e : exn) :
  sentence_scores smoothing_function start_count token_count parameter
    sentences s = (Raise e, s') ->
  calculate_perplexity smoothing_function start_count token_count parameter
    sentences s = (Raise e, s').
Proof.
  intros Hrun. unfold calculate_perplexity, bind.
  now rewrite (perplexity_loop_raise _ _ _ _ _ _ _ _ _ _ Hrun).
Qed.

Lemma calculate_perplexity_propagates_witness :
  calculate_perplexity get_sent_log_prob_addk 0 0 1%R [["a"]] (mkStore [] [])
  = (Raise ZeroDivisionError, mkStore [] [(START, [])]).
Proof.
  apply calculate_perplexity_propagates.
  unfold sentence_scores. cbn [mapM]. unfold bind at 1.
  unfold get_sent_log_prob_addk. cbv zeta.
  change (bigram_list (convert_sentence ["a"]))
    with [("<s>", "a"); ("a", "</s>")].
  cbn [mapM]. unfold bind at 1. unfold bind at 1.
  rewrite get_log_prob_addk_run. cbn [unigram_counts bigram_counts]. cbv zeta.
  change (Counter_get [] "<s>") with 0.
  change (Dict.len (@nil (token * Z))) with 0.
  destruct (Req_dec_T _ 0) as [_|Hn]; [reflexivity | exfalso; lra].
Defined.

(** ** The score of the interpolated mixture *)

Lemma fsum_nonpos l : Forall (fun x => (x <= 0)%R) l -> (fsum l <= 0)%R.
Proof.
  induction 1 as [|x l Hx Hl IH]; [unfold fsum; simpl; lra|].
  rewrite fsum_cons. lra.
Qed.

Section InterpolatedScoring.
Variable sentences : list sentence.
Variables (U : Counter) (B : defaultdict) (sc : Z) (tc : R).
Variables bigramWeight unigramWeight : R.
Hypothesis collected : get_counts sentences = (U, B, sc, tc).
Hypothesis nonempty : sentences <> [].
Hypothesis no_START :
  forall sentence tok,
    In sentence sentences -> In tok sentence -> lower tok <> START.
Hypothesis weights :
  (0 <= bigramWeight)%R /\ (0 <= unigramWeight)%R /\
  (bigramWeight + unigramWeight < 1)%R.

Local Abbreviation lambdas := (bigramWeight, unigramWeight).
Local Abbreviation log_mixture :=
  (fun bigram : token * token =>
     ln (mixture U B sc tc (fst bigram) (snd bigram) lambdas)).

Lemma log_mixture_nonpos bigram : (log_mixture bigram <= 0)%R.
Proof.
  destruct weights as (Hb & Hu & Hz).
  pose proof (mixture_le_1 _ _ _ _ _ collected nonempty no_START
                (fst bigram) (snd bigram) _ _ Hb Hu Hz) as Hle.
  pose proof (get_log_prob_interp_collected _ _ _ _ _ collected
                (fst bigram) (snd bigram) _ _ nonempty Hb Hu Hz) as Hrun.
  apply ln_at_most_zero. split; [|exact Hle].
  rewrite get_log_prob_interp_run in Hrun. cbn [fst] in Hrun.
  cbn [unigram_counts bigram_counts] in Hrun. cbv zeta in Hrun.
  destruct (Rlt_dec 0 _) as [H|H]; [exact H|].
  repeat match type of Hrun with
         | context [Req_dec_T ?a ?b] => destruct (Req_dec_T a b)
         end; discriminate.
Qed.

Lemma interp_score_nonpos sentence :
  (fsum (map log_mixture (bigram_list (convert_sentence sentence))) <= 0)%R.
Proof.
  apply fsum_nonpos. rewrite Forall_map, Forall_forall.
  intros b _. apply log_mixture_nonpos.
Qed.

End InterpolatedScoring.

(** X17. In exact arithmetic, on the tables and counts that [get_counts]
    returns for a non-empty corpus none of whose tokens lower-cases to
    START, and with weights that are not negative and add up to less than
    1, the sum of the logarithms of the interpolated mixture over the pairs
    of a sentence is at most 0, so its exponential lies in (0, 1]; and over
    a test corpus that is not empty, exp(-total / totalTokenCount) is at
    least 1. *)
Theorem interp_score_bounded sentences U B sc tc
    (bigramWeight unigramWeight : R)
    (test_sentence : sentence) (test_sentences : list sentence) :
  get_counts sentences = (U, B, sc, tc) ->
  sentences <> [] ->
  (forall sentence tok,
      In sentence sentences -> In tok sentence -> lower tok <> START) ->
  (0 <= bigramWeight)%R /\ (0 <= unigramWeight)%R /\
  (bigramWeight + unigramWeight < 1)%R ->
  let score x :=
    fsum (map (fun bigram : token * token =>
                 ln (mixture U B sc tc (fst bigram) (snd bigram)
                       (bigramWeight, unigramWeight)))
            (bigram_list (convert_sentence x))) in
  (score test_sentence <= 0)%R
  /\ (0 < exp (score test_sentence) <= 1)%R
  /\ (test_sentences <> [] ->
      (1 <= exp (- fsum (map score test_sentences)
                 / IZR (totalTokenCount test_sentences)))%R).
Proof.
  intros Hc Hne Hwf Hw score.
  assert (Hscore : forall x, (score x <= 0)%R).
  { intros x. apply (interp_score_nonpos _ _ _ _ _ _ _ Hc Hne Hwf Hw). }
  split; [apply Hscore|]. split.
  - split; [apply exp_pos|]. rewrite <- exp_0.
    destruct (Hscore test_sentence) as [Hlt|Heq].
    + left. now apply exp_increasing.
    + rewrite Heq. apply Rle_refl.
  - intros Htest.
    assert (Hpos : (0 < IZR (totalTokenCount test_sentences))%R)
      by now apply IZR_lt, totalTokenCount_positive.
    assert (Hsum : (fsum (map score test_sentences) <= 0)%R).
    { apply fsum_nonpos. rewrite Forall_map, Forall_forall. intros x _.
      apply Hscore. }
    rewrite <- exp_0.
    assert (H0 : (0 <= - fsum (map score test_sentences)
                       / IZR (totalTokenCount test_sentences))%R).
    { apply Rmult_le_pos; [lra|]. left. now apply Rinv_0_lt_compat. }
    destruct H0 as [Hlt|Heq].
    + left. now apply exp_increasing.
    + rewrite <- Heq. apply Rle_refl.
Qed.

Lemma interp_score_bounded_witness :
  (fsum (map (fun bigram : token * token =>
                ln (mixture (unigram_counts (trained corpus_ab))
                      (bigram_counts (trained corpus_ab))
                      1 3 (fst bigram) (snd bigram) (1 / 2, 1 / 4)))
           (bigram_list (convert_sentence ["x"; "b"]))) <= 0)%R.
Proof.
  refine (proj1 (interp_score_bounded corpus_ab _ _ 1 3 (1 / 2) (1 / 4)
                   ["x"; "b"] [["x"; "b"]] _ _ _ _)).
  - reflexivity.
  - discriminate.
  - intros sentence tok [<-|[]] [<-|[<-|[]]]; discriminate.
  - lra.
Defined.

(** ** The draws that the generator consumes *)

Lemma generate_loop_at_END draws sentence s :
  generate_loop draws END sentence s = (Ret (Some sentence), s).
Proof. destruct draws; reflexivity. Qed.

Lemma generate_loop_uses_draws draws :
  forall current_word sentence s result s',
    generate_loop draws current_word sentence s = (Ret (Some result), s') ->
    exists ws,
      result = sentence ++ ws
      /\ (length ws <= length draws)%nat
      /\ (current_word <> END -> ws <> [])
      /\ forall more,
           generate_loop (firstn (length ws) draws ++ more) current_word
             sentence s = (Ret (Some result), s').
Proof.
  induction draws as [|u draws IH]; intros w sent s result s' Hrun.
  - destruct (string_dec w END) as [->|Hne].
    + rewrite generate_loop_at_END in Hrun. injection Hrun as <- <-.
      exists []. rewrite app_nil_r. repeat split; try contradiction.
      * simpl. lia.
      * intros more. apply generate_loop_at_END.
    + simpl in Hrun. destruct (String.eqb_spec w END); [contradiction|].
      discriminate.
  - destruct (string_dec w END) as [->|Hne].
    + rewrite generate_loop_at_END in Hrun. injection Hrun as <- <-.
      exists []. rewrite app_nil_r. repeat split; try contradiction.
      * simpl. lia.
      * intros more. apply generate_loop_at_END.
    + cbn [generate_loop] in Hrun.
      destruct (String.eqb_spec w END) as [|_]; [contradiction|].
      unfold bind at 1 in Hrun.
      destruct (bigram_row w s) as [[row|e] s1] eqn:Hrow; [|discriminate].
      unfold bind at 1 in Hrun.
      destruct (mapM _ (Dict.keys row) s1) as [[probs|e] s2] eqn:Hprobs;
        [|discriminate].
      unfold bind at 1 in Hrun.
      destruct (choice (Dict.keys row) probs u s2) as [[w'|e] s3] eqn:Hchoice;
        [|discriminate].
      destruct (IH _ _ _ _ _ Hrun) as (ws & -> & Hlen & _ & Hmore).
      exists (w' :: ws). split; [now rewrite <- app_assoc|].
      split; [simpl; lia|]. split; [discriminate|].
      intros more. cbn [length firstn app generate_loop].
      destruct (String.eqb_spec w END) as [|_]; [contradiction|].
      unfold bind at 1. rewrite Hrow.
      unfold bind at 1. rewrite Hprobs.
      unfold bind at 1. rewrite Hchoice. apply Hmore.
Qed.

(** X18. The generator consumes one draw per word that it emits, END
    included: when it returns a sentence of n tokens it has used the first
    n + 1 draws, and any draws after those change neither the sentence nor
    the tables it leaves. *)
Theorem generate_tokens_uses_draws (draws : list Q) (s s' : store)
    (toks : list token) :
  generate_tokens draws s = (Ret (Some toks), s') ->
  (length toks < length draws)%nat
  /\ (forall more,
         generate_tokens (firstn (S (length toks)) draws ++ more) s =
         (Ret (Some toks), s'))
  /\ (forall more,
         generate_sentence (draws ++ more) s =
         (Ret (Some (String.concat " " toks)), s')).
Proof.
  intros Hrun. unfold generate_tokens, bind in Hrun.
  destruct (generate_loop draws START [START] s) as [[[result|]|e] s1]
    eqn:Hloop; try discriminate.
  injection Hrun as <- <-.
  destruct (generate_loop_uses_draws _ _ _ _ _ _ Hloop)
    as (ws & -> & Hlen & Hne & Hmore).
  specialize (Hne ltac:(discriminate)).
  assert (Hn : S (length (removelast ws)) = length ws).
  { rewrite (app_removelast_last START Hne) at 2.
    rewrite length_app. cbn [length]. lia. }
  change (strip ([START] ++ ws)) with (removelast ws).
  split; [lia | split].
  - intros more. rewrite Hn. unfold generate_tokens, bind.
    now rewrite Hmore.
  - intros more. unfold generate_sentence, generate_tokens, bind.
    rewrite <- (firstn_skipn (length ws) draws), <- app_assoc.
    now rewrite Hmore.
Qed.

Lemma generate_tokens_uses_draws_witness :
  (length ["a"; "b"] < length [0; 0; 0; 1 # 3]%Q)%nat
  /\ (forall more,
         generate_tokens
           (firstn (S (length ["a"; "b"])) [0; 0; 0; 1 # 3]%Q ++ more)
           (mkStore [("a", 1); ("b", 1); ("</s>", 1)]
              [("<s>", [("a", 1)]); ("a", [("b", 1)]); ("b", [("</s>", 1)])])
         = (Ret (Some ["a"; "b"]),
            mkStore [("a", 1); ("b", 1); ("</s>", 1)]
              [("<s>", [("a", 1)]); ("a", [("b", 1)]); ("b", [("</s>", 1)])]))
  /\ (forall more,
         generate_sentence ([0; 0; 0; 1 # 3]%Q ++ more)
           (mkStore [("a", 1); ("b", 1); ("</s>", 1)]
              [("<s>", [("a", 1)]); ("a", [("b", 1)]); ("b", [("</s>", 1)])])
         = (Ret (Some (String.concat " " ["a"; "b"])),
            mkStore [("a", 1); ("b", 1); ("</s>", 1)]
              [("<s>", [("a", 1)]); ("a", [("b", 1)]); ("b", [("</s>", 1)])])).
Proof.
  apply generate_tokens_uses_draws. vm_compute. reflexivity.
Defined.

(** ** Words that were never seen *)

Lemma mul_zero_l y : is_finite y = true -> (0 * y =? 0)%float = true.
Proof.
  rewrite is_finite_spec, eqb_zero_spec, FloatAxioms.mul_spec, Prim2SF_zero.
  unfold SF64mul, SFmul. now destruct (Prim2SF y) as [s|s| |s m e].
Qed.

Lemma zero_div_mul tc uw :
  is_nan tc = false -> (tc =? 0)%float = false -> is_finite uw = true ->
  exists sign, Prim2SF (0 / tc * uw) = S754_zero sign.
Proof.
  rewrite is_nan_spec, eqb_zero_spec, is_finite_spec.
  rewrite FloatAxioms.mul_spec, FloatAxioms.div_spec, Prim2SF_zero.
  unfold SF64mul, SFmul, SF64div, SFdiv.
  destruct (Prim2SF tc) as [s|s| |s m e], (Prim2SF uw) as [s'|s'| |s' m' e'];
    try discriminate; intros _ _ _; eexists; reflexivity.
Qed.

Lemma zero_add_zero x sign :
  Prim2SF x = S754_zero sign -> (0 + x)%float = 0%float.
Proof.
  intros Hx. apply FloatAxioms.Prim2SF_inj.
  rewrite FloatAxioms.add_spec, Hx, Prim2SF_zero.
  now destruct sign.
Qed.

Lemma zero_add_positive z : (0 <? z)%float = true -> (0 + z)%float = z.
Proof.
  rewrite ltb_zero_spec. intros Hz. apply FloatAxioms.Prim2SF_inj.
  rewrite FloatAxioms.add_spec, Prim2SF_zero. unfold SF64add, SFadd.
  now destruct (Prim2SF z) as [s|[]| |[] m e].
Qed.

Lemma positive_product_factor x y :
  (0 <? x * y)%float = true -> (x =? 0)%float = false.
Proof.
  rewrite ltb_zero_spec, eqb_zero_spec, FloatAxioms.mul_spec.
  unfold SF64mul, SFmul.
  destruct (Prim2SF x) as [s|s| |s m e], (Prim2SF y) as [s'|s'| |s' m' e'];
    try discriminate; try reflexivity.
  all: try (destruct s, s'; discriminate).
Qed.

Lemma one_div_nonzero v :
  (1 / v =? 0)%float = false -> is_infinity v = false.
Proof.
  rewrite eqb_zero_spec, is_infinity_spec, FloatAxioms.div_spec.
  replace (Prim2SF 1) with (S754_finite false 4503599627370496 (-52))
    by reflexivity.
  unfold SF64div, SFdiv. now destruct (Prim2SF v) as [s|s| |s m e].
Qed.

(** X19. In binary64, a word with no unigram count after a conditioning
    token with which it has no bigram count gets exactly the zerogram mass
    from the interpolated estimator: with finite weights and a token count
    that is a number other than zero, the bigram and the unigram term are
    zero, the mixture is the float (1 / VocabularySize) * (1 - bigramWeight
    - unigramWeight), and when this float is positive and finite, and its
    logarithm is finite, the call returns the logarithm, whatever the
    conditioning token is. *)
Theorem get_log_prob_interp_unseen_word (libm : Binary64.Libm) (s : store)
    prev_word word (start_count : Z)
    (token_count bigramWeight unigramWeight : float) :
  Counter_get (unigram_counts s) word = 0 ->
  bigram_count (bigram_counts s) prev_word word = 0 ->
  is_nan token_count = false -> (token_count =? 0)%float = false ->
  is_finite bigramWeight = true -> is_finite unigramWeight = true ->
  let z :=
    Rounded.zerogramTerm (unigram_counts s) bigramWeight unigramWeight in
  (0 <? z)%float = true -> is_finite z = true ->
  is_finite (Binary64.libm_log libm z) = true ->
  Rounded.mixture (unigram_counts s) (bigram_counts s) start_count
    token_count prev_word word (bigramWeight, unigramWeight) = z
  /\ fst (Binary64.get_log_prob_interp libm prev_word word start_count
            token_count (bigramWeight, unigramWeight) s) =
     Ret (Binary64.libm_log libm z).
Proof.
  intros HU HB Hnan Htc Hbw Huw z Hpos Hfin Hlog.
  assert (Hproduct :
            (Rounded.product (bigram_counts s) prev_word word bigramWeight
             =? 0)%float = true).
  { unfold Rounded.product. rewrite HB, int_to_float_0.
    now apply mul_zero_l. }
  assert (Hmix :
            Rounded.mixture (unigram_counts s) (bigram_counts s) start_count
              token_count prev_word word (bigramWeight, unigramWeight) = z).
  { unfold Rounded.mixture, Rounded.bigramTerm, Rounded.unigramTerm.
    cbn [fst snd]. rewrite Hproduct, HU, int_to_float_0.
    destruct (zero_div_mul token_count unigramWeight Hnan Htc Huw)
      as [sign Hzero].
    rewrite (zero_add_zero _ sign Hzero).
    now apply zero_add_positive. }
  split; [exact Hmix|].
  assert (Hv : convertible (Dict.len (unigram_counts s))).
  { unfold convertible. apply one_div_nonzero.
    eapply positive_product_factor. exact Hpos. }
  rewrite (Binary64_get_log_prob_interp_returns libm prev_word word
             start_count token_count (bigramWeight, unigramWeight) s).
  - cbn [fst]. now rewrite Hmix.
  - exact Hv.
  - cbn [fst]. rewrite Hproduct. discriminate.
  - now rewrite Hmix.
  - now rewrite Hmix.
  - now rewrite Hmix.
Qed.

Lemma get_log_prob_interp_unseen_word_witness :
  fst (Binary64.get_log_prob_interp example_libm "a" "zebra" 1 3
         (0.5, 0.25)%float (trained corpus_ab)) =
  Ret (Binary64.libm_log example_libm
         (Rounded.zerogramTerm (unigram_counts (trained corpus_ab))
            0.5 0.25)).
Proof.
  refine (proj2 (get_log_prob_interp_unseen_word example_libm
                   (trained corpus_ab) "a" "zebra" 1 3%float 0.5%float
                   0.25%float _ _ _ _ _ _ _ _ _));
    vm_compute; reflexivity.
Defined.

(** X20. In exact arithmetic, after a conditioning token that has no
    unigram count and no bigram count with the word (a token that was
    never seen, and START before a word that opens no sentence), the Add-k
    quotient is 1 / VocabularySize, whatever k other than zero is, when
    the vocabulary is not empty. *)
Theorem addk_prob_unseen_prev (s : store) prev_word word (k : R) :
  Counter_get (unigram_counts s) prev_word = 0 ->
  bigram_count (bigram_counts s) prev_word word = 0 ->
  0 < Dict.len (unigram_counts s) ->
  k <> 0%R ->
  addk_prob (unigram_counts s) (bigram_counts s) prev_word word k =
  (1 / IZR (Dict.len (unigram_counts s)))%R.
Proof.
  intros HU HB Hlen Hk. pose proof (IZR_lt _ _ Hlen) as HV.
  unfold addk_prob. rewrite HU, HB. field. split; lra.
Qed.

Lemma addk_prob_unseen_prev_witness :
  addk_prob (unigram_counts (trained corpus_ab))
    (bigram_counts (trained corpus_ab)) "zebra" "a" 1 =
  (1 / IZR (Dict.len (unigram_counts (trained corpus_ab))))%R.
Proof.
  apply addk_prob_unseen_prev; try lra;
    unfold corpus_ab; eval_tables; eval_counts; try reflexivity; lia.
Defined.

(** ** The rows the generator can reach *)

(** X21. In the tables of a corpus every stored count is at least 1, no
    row is empty and keys are distinct; a token has a row exactly when it
    is the first token of a counted pair, and every word stored in a row is
    END or has a row of its own, so the generator never looks up a missing
    row after it has found the row of START. *)
Theorem trained_rows_are_closed (sentences : list sentence)
    (prev_word word : token) :
  let B := bigram_counts (trained sentences) in
  rows_ok B
  /\ (In prev_word (Dict.keys B) <->
      exists w, In (prev_word, w) (corpus_bigrams sentences))
  /\ (In word (Dict.keys (row_of B prev_word)) ->
      1 <= bigram_count B prev_word word
      /\ (word = END \/
          (In word (Dict.keys B) /\ row_of B word <> []))).
Proof.
  intros B. split; [apply trained_rows_ok | split].
  - split.
    + intros Hin. pose proof (trained_row_sampled sentences _ Hin) as [_ Hne].
      fold B in Hne. destruct (row_of B prev_word) as [|[w c] row] eqn:E;
        [congruence|].
      exists w. apply (trained_successor sentences). fold B. rewrite E.
      now left.
    + intros [w Hw]. eapply trained_row_key, Hw.
  - intros Hin. split.
    + pose proof (proj1 (Counter_ok_In _ word
                           (row_of_ok B prev_word (trained_rows_ok sentences)))
                    Hin) as Hpos.
      rewrite bigram_count_row. lia.
    + apply (trained_successor sentences) in Hin.
      destruct (reaches_END_row sentences word
                  (successor_reaches_END sentences _ _ Hin)) as [->|Hkey];
        [now left | right].
      split; [exact Hkey|].
      apply (trained_row_sampled sentences word Hkey).
Qed.

Lemma trained_rows_are_closed_witness :
  1 <= bigram_count (bigram_counts (trained corpus_ab)) "a" "b"
  /\ ("b" = END \/
      (In "b" (Dict.keys (bigram_counts (trained corpus_ab)))
       /\ row_of (bigram_counts (trained corpus_ab)) "b" <> [])).
Proof.
  refine (proj2 (proj2 (trained_rows_are_closed corpus_ab "a" "b")) _).
  rewrite trained_tables. vm_compute. tauto.
Defined.

(** ** The binary64 program and the tables *)

Lemma frames_Binary64_get_log_prob_addk libm prev_word word k :
  frames (Binary64.get_log_prob_addk libm prev_word word k).
Proof.
  intros s. rewrite Binary64_get_log_prob_addk_run. apply probe_extends.
Qed.

Lemma frames_Binary64_get_log_prob_interp libm prev_word word start_count
    token_count lambdas :
  frames (Binary64.get_log_prob_interp libm prev_word word start_count
            token_count lambdas).
Proof.
  intros s. rewrite Binary64_get_log_prob_interp_run. apply probe_extends.
Qed.

Lemma frames_Binary64_get_sent_log_prob_addk libm sentence start_count
    token_count k :
  frames (Binary64.get_sent_log_prob_addk libm sentence start_count
            token_count k).
Proof.
  unfold Binary64.get_sent_log_prob_addk. cbv zeta.
  apply frames_bind; [|intro; apply frames_ret].
  apply frames_mapM. intros [prev_word word].
  apply frames_Binary64_get_log_prob_addk.
Qed.

Lemma frames_Binary64_get_sent_log_prob_interp libm sentence start_count
    token_count lambdas :
  frames (Binary64.get_sent_log_prob_interp libm sentence start_count
            token_count lambdas).
Proof.
  unfold Binary64.get_sent_log_prob_interp. cbv zeta.
  apply frames_bind; [|intro; apply frames_ret].
  apply frames_mapM. intros [prev_word word].
  apply frames_Binary64_get_log_prob_interp.
Qed.

Lemma frames_lift {A} (o : outcome A) : frames (Binary64.lift o).
Proof. intros s. apply extends_refl. Qed.

Section FramesBinary64Perplexity.
Variable libm : Binary64.Libm.
Context {P : Type}.
Variable smoothing_function : sentence -> Z -> float -> P -> M float.
Variables (start_count : Z) (token_count : float) (parameter : P).
Hypothesis frames_smoothing_function :
  forall sentence,
    frames (smoothing_function sentence start_count token_count parameter).

Lemma frames_Binary64_perplexity_loop sentences total_log_prob
    test_token_count :
  frames (Binary64.perplexity_loop smoothing_function start_count
            token_count parameter sentences total_log_prob test_token_count).
Proof.
  revert total_log_prob test_token_count.
  induction sentences as [|x rest IH]; intros total count; simpl;
    [apply frames_ret|].
  apply frames_bind; [apply frames_smoothing_function | intro; apply IH].
Qed.

Lemma frames_Binary64_calculate_perplexity sentences :
  frames (Binary64.calculate_perplexity libm smoothing_function start_count
            token_count parameter sentences).
Proof.
  unfold Binary64.calculate_perplexity.
  apply frames_bind; [apply frames_Binary64_perplexity_loop|].
  intros [total count]. apply frames_bind; [apply frames_lift|].
  intro. apply frames_bind; [apply frames_lift|]. intro. apply frames_lift.
Qed.
End FramesBinary64Perplexity.

(** X22. In binary64 as in exact arithmetic, a call changes the tables
    only by the rows that reading [bigram_counts[prev_word]] inserts: an
    estimator call leaves the store of that one read, whether it returns
    or raises, and every scorer call and every evaluation leaves
    UnigramCounts as it was and BigramCounts extended by empty rows. *)
Theorem binary64_calls_only_extend_tables (libm : Binary64.Libm) (s : store) :
  (forall prev_word word k,
      snd (Binary64.get_log_prob_addk libm prev_word word k s) =
      probe s prev_word)
  /\ (forall prev_word word start_count token_count lambdas,
         snd (Binary64.get_log_prob_interp libm prev_word word start_count
                token_count lambdas s) = probe s prev_word)
  /\ (forall prev_word, extends s (probe s prev_word))
  /\ (forall sentence start_count token_count k,
         extends s (snd (Binary64.get_sent_log_prob_addk libm sentence
                           start_count token_count k s)))
  /\ (forall sentence start_count token_count lambdas,
         extends s (snd (Binary64.get_sent_log_prob_interp libm sentence
                           start_count token_count lambdas s)))
  /\ (forall sentences start_count token_count k,
         extends s (snd (Binary64.calculate_perplexity libm
                           (Binary64.get_sent_log_prob_addk libm)
                           start_count token_count k sentences s)))
  /\ (forall sentences start_count token_count lambdas,
         extends s (snd (Binary64.calculate_perplexity libm
                           (Binary64.get_sent_log_prob_interp libm)
                           start_count token_count lambdas sentences s))).
Proof.
  split; [intros; now rewrite Binary64_get_log_prob_addk_run|].
  split; [intros; now rewrite Binary64_get_log_prob_interp_run|].
  split; [intros; apply probe_extends|].
  split; [intros; apply frames_Binary64_get_sent_log_prob_addk|].
  split; [intros; apply frames_Binary64_get_sent_log_prob_interp|].
  split; intros; apply frames_Binary64_calculate_perplexity; intros;
    [apply frames_Binary64_get_sent_log_prob_addk
    | apply frames_Binary64_get_sent_log_prob_interp].
Qed.

Section Binary64IgnoredCounts.
Variable libm : Binary64.Libm.
Variables (start_count1 start_count2 : Z) (token_count1 token_count2 : float).
Variable k : float.

Lemma Binary64_perplexity_loop_ignores_counts sentences :
  forall total_log_prob test_token_count s,
    Binary64.perplexity_loop (Binary64.get_sent_log_prob_addk libm)
      start_count1 token_count1 k sentences total_log_prob test_token_count s
    = Binary64.perplexity_loop (Binary64.get_sent_log_prob_addk libm)
        start_count2 token_count2 k sentences total_log_prob
        test_token_count s.
Proof.
  induction sentences as [|x rest IH]; intros total count s; [reflexivity|].
  cbn [Binary64.perplexity_loop]. unfold bind.
  change (Binary64.get_sent_log_prob_addk libm x start_count1 token_count1 k s)
    with (Binary64.get_sent_log_prob_addk libm x start_count2 token_count2
            k s).
  destruct (Binary64.get_sent_log_prob_addk libm x start_count2 token_count2
              k s) as [[lp|e] s1]; [apply IH | reflexivity].
Qed.
End Binary64IgnoredCounts.

(** X23. In binary64 the Add-k sentence scorer, and the evaluator run
    with it, return the same outcome and leave the same store whatever
    [start_count] and [token_count] they are given. *)
Theorem binary64_addk_scorer_ignores_counts (libm : Binary64.Libm)
    (sentences : list sentence) (test_sentence : sentence)
    (start_count1 start_count2 : Z) (token_count1 token_count2 k : float)
    (s : store) :
  Binary64.get_sent_log_prob_addk libm test_sentence start_count1
    token_count1 k s
  = Binary64.get_sent_log_prob_addk libm test_sentence start_count2
      token_count2 k s
  /\ Binary64.calculate_perplexity libm (Binary64.get_sent_log_prob_addk libm)
       start_count1 token_count1 k sentences s
     = Binary64.calculate_perplexity libm
         (Binary64.get_sent_log_prob_addk libm)
         start_count2 token_count2 k sentences s.
Proof.
  split; [reflexivity|].
  unfold Binary64.calculate_perplexity. unfold bind at 1 3.
  now rewrite (Binary64_perplexity_loop_ignores_counts libm start_count1
                 start_count2 token_count1 token_count2).
Qed.

(** X24. The probability above 1 that the Add-k scorer gives the pair
    (START, a) arises in binary64 as well: trained on three sentences a,
    with k = 1, the quotient of that pair is exactly 2.0 and that of
    (a, END) is 4/5, so for every C library whose logarithms of these two
    numbers are finite the scorer returns 0.0 + log 2.0 + log 0.8 for the
    sentence a; with the library of the examples this score is positive
    and its exponential exceeds 1. *)
Theorem binary64_addk_exceeds_one (libm : Binary64.Libm) :
  let U := unigram_counts (trained corpus_aaa) in
  let B := bigram_counts (trained corpus_aaa) in
  Rounded.addk_prob U B START "a" 1 = 2%float
  /\ Rounded.addk_prob U B "a" END 1 = (4 / 5)%float
  /\ (is_finite (Binary64.libm_log libm 2) = true ->
      is_finite (Binary64.libm_log libm (4 / 5)) = true ->
      fst (Binary64.get_sent_log_prob_addk libm ["a"] 3 6 1
             (trained corpus_aaa)) =
      Ret (0 + Binary64.libm_log libm 2
           + Binary64.libm_log libm (4 / 5))%float)
  /\ (0 <? 0 + example_log 2 + example_log (4 / 5))%float = true
  /\ (1 <? example_exp (0 + example_log 2 + example_log (4 / 5)))%float
     = true.
Proof.
  cbv zeta. split; [vm_compute; reflexivity|].
  split; [vm_compute; reflexivity|].
  split; [|split; vm_compute; reflexivity].
  intros H2 H45.
  unfold Binary64.get_sent_log_prob_addk. cbv zeta.
  change (bigram_list (convert_sentence ["a"]))
    with [("<s>", "a"); ("a", "</s>")].
  cbn [mapM]. cbv beta iota. unfold bind.
  rewrite (Binary64_get_log_prob_addk_returns libm "<s>" "a" 1
             (trained corpus_aaa));
    [|vm_compute; reflexivity | vm_compute; reflexivity
     |exact H2].
  rewrite (Binary64_get_log_prob_addk_returns libm "a" "</s>" 1
             (probe (trained corpus_aaa) "<s>"));
    [|vm_compute; reflexivity | vm_compute; reflexivity
     |exact H45].
  reflexivity.
Qed.

Lemma binary64_addk_exceeds_one_witness :
  fst (Binary64.get_sent_log_prob_addk example_libm ["a"] 3 6 1
         (trained corpus_aaa)) =
  Ret (0 + example_log 2 + example_log (4 / 5))%float.
Proof.
  refine (proj1 (proj2 (proj2 (binary64_addk_exceeds_one example_libm))) _ _);
    vm_compute; reflexivity.
Defined.
